(** * MAIAR runtime core: a shallow embedding and its verified properties

    The development follows the TypeScript sources of the agent runtime:

    - [runtime/managers/model/index.ts]  (class [ModelManager])
    - [runtime/managers/plugin.ts]       (class [PluginRegistry])
    - the runtime class itself (class [Runtime]: event queue, evaluation
      loop, pipeline generation / modification / execution, [getObject]),
      together with the earlier free-standing [getObject] helper.

    Asynchronous functions are embedded in a state-and-exception monad; a
    rejected promise is a thrown value, identified with its message. *)

From Stdlib Require Import ZArith QArith Qcanon Lia.
From stdpp Require Import gmap strings list fin_maps pretty.

Open Scope string_scope.
Open Scope nat_scope.

(** ** JavaScript values, truthiness, outcomes *)

(** Plain data carried by context items and plugin results. *)
Unset Elimination Schemes.
Inductive JsValue : Type :=
| JNull
| JBool (b : bool)
| JNum (n : Z)
| JStr (s : string)
| JArr (xs : list JsValue)
| JObj (kvs : list (string * JsValue)).
Set Elimination Schemes.

Definition JsValue_eq_dec : forall x y : JsValue, {x = y} + {x <> y}.
Proof.
  fix IH 1. intros x y.
  destruct x, y; try (right; discriminate); try (left; reflexivity).
  - destruct (decide (b = b0)); [left; congruence | right; congruence].
  - destruct (decide (n = n0)); [left; congruence | right; congruence].
  - destruct (decide (s = s0)); [left; congruence | right; congruence].
  - assert (H : {xs = xs0} + {xs <> xs0}).
    { revert xs0. induction xs as [|a xs IHxs]; intros [|b ys];
        try (right; discriminate); try (left; reflexivity).
      destruct (IH a b); [| right; congruence].
      destruct (IHxs ys); [left; congruence | right; congruence]. }
    destruct H; [left; congruence | right; congruence].
  - assert (H : {kvs = kvs0} + {kvs <> kvs0}).
    { revert kvs0. induction kvs as [|[k a] xs IHxs]; intros [|[k' b] ys];
        try (right; discriminate); try (left; reflexivity).
      destruct (decide (k = k')); [| right; congruence].
      destruct (IH a b); [| right; congruence].
      destruct (IHxs ys); [left; congruence | right; congruence]. }
    destruct H; [left; congruence | right; congruence].
Defined.

#[global] Instance JsValue_eqdec : EqDecision JsValue := JsValue_eq_dec.

(** The double-quote character, as a string. *)
Definition dquote : string := String (Ascii.ascii_of_nat 34) EmptyString.

(** [x || d] on an optional string: [undefined] and the empty string are
    both falsy. *)
Definition str_or (x : option string) (d : string) : string :=
  match x with
  | Some s => if bool_decide (s = EmptyString) then d else s
  | None => d
  end.

(** Truthiness of [string | undefined]. *)
Definition str_truthy (x : option string) : bool :=
  match x with
  | Some s => negb (bool_decide (s = EmptyString))
  | None => false
  end.

(** How a call into a collaborator (model provider, memory provider,
    plugin executor) or into a pure helper completes: with a value, or with
    a thrown error (a rejected promise), identified with its message.
    Collaborators that never settle are outside the model. *)
Inductive result (A : Type) : Type :=
| Ok (a : A)
| Err (e : string).
Arguments Ok {A} a.
Arguments Err {A} e.

#[global] Instance result_ret : MRet result := fun A a => Ok a.
#[global] Instance result_bind : MBind result := fun A B k r =>
  match r with Ok a => k a | Err e => Err e end.

(** What running a piece of the runtime's own code yields: a value, a
    thrown error (its message), or nothing yet because the observation
    budget of a loop ran out while the code was still running. *)
Inductive outcome (A : Type) : Type :=
| Returns (a : A)
| Throws (e : string)
| Pending.
Arguments Returns {A} a.
Arguments Throws {A} e.
Arguments Pending {A}.

Definition is_throw {A} (o : outcome A) : option string :=
  match o with Throws e => Some e | _ => None end.

(** ** The state-and-exception monad *)

Definition M (S A : Type) : Type := S -> outcome A * S.

Definition ret {S A} (a : A) : M S A := fun s => (Returns a, s).
Definition throw {S A} (e : string) : M S A := fun s => (Throws e, s).
Definition pending {S A} : M S A := fun s => (Pending, s).

Definition bind {S A B} (m : M S A) (k : A -> M S B) : M S B :=
  fun s =>
    match m s with
    | (Returns a, s') => k a s'
    | (Throws e, s') => (Throws e, s')
    | (Pending, s') => (Pending, s')
    end.

(** The outcome of a call on a component that leaves the state alone. *)
Definition lift_outcome {S A} (o : outcome A) : M S A := fun s => (o, s).

(** [await p], or the call of a helper that may throw. *)
Definition await {S A} (p : result A) : M S A :=
  match p with Ok a => ret a | Err e => throw e end.

Definition get {S} : M S S := fun s => (Returns s, s).
Definition gets {S A} (f : S -> A) : M S A := fun s => (Returns (f s), s).
Definition modify {S} (f : S -> S) : M S unit := fun s => (Returns tt, f s).

(** [try { m } catch (err) { h err }] *)
Definition try_catch {S A} (m : M S A) (h : string -> M S A) : M S A :=
  fun s =>
    match m s with
    | (Throws e, s') => h e s'
    | r => r
    end.

(** [try { m } finally { f }]: the finaliser runs on both exits; code that
    is still running has not reached it. *)
Definition try_finally {S A} (m : M S A) (f : M S unit) : M S A :=
  fun s =>
    match m s with
    | (Returns a, s') =>
        match f s' with
        | (Returns _, s'') => (Returns a, s'')
        | (Throws e, s'') => (Throws e, s'')
        | (Pending, s'') => (Pending, s'')
        end
    | (Throws e, s') =>
        match f s' with
        | (Returns _, s'') => (Throws e, s'')
        | (Throws e', s'') => (Throws e', s'')
        | (Pending, s'') => (Pending, s'')
        end
    | (Pending, s') => (Pending, s')
    end.

#[global] Instance M_ret {S} : MRet (M S) := fun A => @ret S A.
#[global] Instance M_bind {S} : MBind (M S) := fun A B k m => @bind S A B m k.

(** ** JavaScript [Map<string, V>]: insertion-ordered, [set] on a present
    key overwrites in place *)

Section JsMap.
Context {V : Type}.

Fixpoint map_get (m : list (string * V)) (k : string) : option V :=
  match m with
  | [] => None
  | (k', v) :: m' => if bool_decide (k' = k) then Some v else map_get m' k
  end.

Fixpoint map_set (m : list (string * V)) (k : string) (v : V)
  : list (string * V) :=
  match m with
  | [] => [(k, v)]
  | (k', v') :: m' =>
      if bool_decide (k' = k) then (k, v) :: m'
      else (k', v') :: map_set m' k v
  end.

Definition map_has (m : list (string * V)) (k : string) : bool :=
  match map_get m k with Some _ => true | None => false end.

Definition map_keys (m : list (string * V)) : list string := m.*1.
Definition map_values (m : list (string * V)) : list V := m.*2.
End JsMap.


(** ** Promises awaited together ([Promise.all]) *)

(** A collaborator promise as [Promise.all] sees it: the instant at which
    it settles and how. *)
Record Promise (A : Type) : Type := mkPromise {
  settles_at : nat;
  settles_as : result A
}.
Arguments mkPromise {A} _ _.
Arguments settles_at {A} _.
Arguments settles_as {A} _.

Definition rejection {A} (p : Promise A) : option string :=
  match settles_as p with Err e => Some e | Ok _ => None end.

(** The rejection that settles first; among rejections of one instant, the
    one at the earlier array position. *)
Fixpoint first_rejection {A} (ps : list (Promise A)) : option (nat * string) :=
  match ps with
  | [] => None
  | p :: ps' =>
      match settles_as p, first_rejection ps' with
      | Err e, Some (t', e') =>
          if bool_decide (settles_at p ≤ t') then Some (settles_at p, e)
          else Some (t', e')
      | Err e, None => Some (settles_at p, e)
      | Ok _, r => r
      end
  end.

Fixpoint fulfilled_values {A} (ps : list (Promise A)) : list A :=
  match ps with
  | [] => []
  | p :: ps' =>
      match settles_as p with
      | Ok a => a :: fulfilled_values ps'
      | Err _ => fulfilled_values ps'
      end
  end.

(** [await Promise.all(ps)]: throws the first rejection, otherwise returns
    all the values. *)
Definition promise_all {A} (ps : list (Promise A)) : outcome (list A) :=
  match first_rejection ps with
  | Some (_, e) => Throws e
  | None => Returns (fulfilled_values ps)
  end.


(** [for (const x of xs) body(x)] *)
Fixpoint for_of {S A} (xs : list A) (body : A -> M S unit) : M S unit :=
  match xs with
  | [] => mret tt
  | x :: xs' => body x;; for_of xs' body
  end.

(** A line written to the logger, with its level. *)
Record LogEntry : Type := mkLog {
  log_level : string;
  log_message : string
}.

(** ** Model providers *)

(** [OperationConfig & { maxRetries?: number }]; the retry bound is an
    integer here. *)
Record OperationConfig : Type := mkConfig {
  temperature : option Qc;
  maxRetries : option Z
}.

(** One capability of a provider: its id, the input and output schema
    checks, and the execution itself (the argument [nat] is the instant
    of the request, so that a provider may answer differently each
    time). *)
Record ModelCapability : Type := {
  capability_id : string;
  capability_input : string -> result string;
  capability_execute : nat -> string -> option OperationConfig -> result string;
  capability_output : string -> result string
}.

(** A model provider, as the manager uses it (the provider class of
    [providers/model] is given by this interface): its id, the capabilities
    it lists, and the promises of its [init()] and [checkHealth()]. *)
Record ModelProvider : Type := {
  provider_id : string;
  getCapabilities : list ModelCapability;
  provider_init : Promise unit;
  provider_checkHealth : Promise unit
}.

Definition getCapability (p : ModelProvider) (capabilityId : string)
  : option ModelCapability :=
  List.find (fun c => bool_decide (capability_id c = capabilityId))
            (getCapabilities p).

(** ** The capability registry *)

Module CapabilityRegistry.

(** Modelled from the spec: the class [CapabilityRegistry] of
    [managers/model/capability], of which only the calls are in the
    sources.  It maps capability identifiers to the providers
    implementing them and tracks a default provider per capability. *)
Record t : Type := mk {
  capabilities : gmap string (list string);
  defaultModels : gmap string string
}.

(** Modelled from the spec: the empty registry of [new CapabilityRegistry()]. *)
Definition new : t := mk ∅ ∅.

(** Modelled from the spec: [registerCapability(modelId, capabilityId)]
    records the provider among those implementing the capability. *)
Definition registerCapability (modelId capabilityId : string) (r : t) : t :=
  mk (<[capabilityId :=
          (default [] (capabilities r !! capabilityId) ++ [modelId])%list]>
        (capabilities r))
     (defaultModels r).

(** Modelled from the spec: the default provider tracked for a
    capability, if any. *)
Definition getDefaultModelForCapability (capabilityId : string) (r : t)
  : option string :=
  defaultModels r !! capabilityId.

(** Modelled from the spec: the default provider of a capability is set. *)
Definition setDefaultModelForCapability (capabilityId modelId : string)
  (r : t) : t :=
  mk (capabilities r) (<[capabilityId := modelId]> (defaultModels r)).

(** Modelled from the spec: a capability is known when some provider has
    been registered for it. *)
Definition hasCapability (capabilityId : string) (r : t) : bool :=
  bool_decide (is_Some (capabilities r !! capabilityId)).

(** Modelled from the spec: the providers implementing a capability, in
    the order of their registration. *)
Definition getModelsWithCapability (capabilityId : string) (r : t)
  : list string :=
  default [] (capabilities r !! capabilityId).

End CapabilityRegistry.

(** ** The model manager ([managers/model/index.ts]) *)

Module ModelManager.

Record t : Type := mk {
  models : list (string * ModelProvider);
  capabilityRegistry : CapabilityRegistry.t;
  capabilityAliases : gmap string string
}.

(** [constructor()] *)
Definition new : t := mk [] CapabilityRegistry.new ∅.

(** The body of the loop over a provider's capabilities in
    [registerModelProvider]. *)
Definition registerProviderCapability (modelId : string)
  (r : CapabilityRegistry.t) (capability : ModelCapability)
  : CapabilityRegistry.t :=
  let r1 :=
    CapabilityRegistry.registerCapability modelId (capability_id capability) r in
  if negb (str_truthy (CapabilityRegistry.getDefaultModelForCapability
                         (capability_id capability) r1))
  then CapabilityRegistry.setDefaultModelForCapability
         (capability_id capability) modelId r1
  else r1.

Definition registerModelProvider (mm : t) (modelProvider : ModelProvider) : t :=
  mk (map_set (models mm) (provider_id modelProvider) modelProvider)
     (foldl (registerProviderCapability (provider_id modelProvider))
            (capabilityRegistry mm) (getCapabilities modelProvider))
     (capabilityAliases mm).

Definition registerModelProviders (modelProviders : list ModelProvider)
  (mm : t) : t :=
  foldl registerModelProvider mm modelProviders.

(** [this.capabilityAliases.get(capabilityId) || capabilityId], the
    expression every lookup starts with. *)
Definition resolvedId (mm : t) (capabilityId : string) : string :=
  str_or (capabilityAliases mm !! capabilityId) capabilityId.

Definition hasCapability (mm : t) (capabilityId : string) : bool :=
  CapabilityRegistry.hasCapability (resolvedId mm capabilityId)
                                   (capabilityRegistry mm).

Definition getModelsWithCapability (mm : t) (capabilityId : string)
  : list string :=
  CapabilityRegistry.getModelsWithCapability (resolvedId mm capabilityId)
                                             (capabilityRegistry mm).

Definition setDefaultModelForCapability (capabilityId modelId : string)
  (mm : t) : t :=
  mk (models mm)
     (CapabilityRegistry.setDefaultModelForCapability
        (resolvedId mm capabilityId) modelId (capabilityRegistry mm))
     (capabilityAliases mm).

(** [aliasGroup.find((id) => this.hasCapability(id)) ?? aliasGroup[0]];
    [None] only for an empty group. *)
Definition canonicalIdOf (mm : t) (aliasGroup : list string) : option string :=
  match List.find (hasCapability mm) aliasGroup with
  | Some id => Some id
  | None => head aliasGroup
  end.

(** The body of the inner loop of [registerCapabilityAliases]. *)
Definition registerAlias (canonicalId alias : string) : M t unit :=
  if bool_decide (alias ≠ canonicalId) then
    mm ← get;
    if negb (CapabilityRegistry.hasCapability canonicalId (capabilityRegistry mm))
    then throw ("Capability " +:+ canonicalId +:+ " not found")
    else modify (fun mm =>
           mk (models mm) (capabilityRegistry mm)
              (<[alias := canonicalId]> (capabilityAliases mm)))
  else mret tt.

Definition registerAliasGroup (aliasGroup : list string) : M t unit :=
  mm ← get;
  match canonicalIdOf mm aliasGroup with
  | Some canonicalId => for_of aliasGroup (registerAlias canonicalId)
  | None => mret tt
  end.

Definition registerCapabilityAliases (capabilityAliases : list (list string))
  : M t unit :=
  for_of capabilityAliases registerAliasGroup.

(** The task [init] maps each provider to: the provider's own failure is
    caught and logged, so the task fulfils either way. *)
Definition initTask (modelProvider : ModelProvider)
  : Promise unit * LogEntry :=
  match settles_as (provider_init modelProvider) with
  | Ok _ =>
      (mkPromise (settles_at (provider_init modelProvider)) (Ok tt),
       mkLog "debug" ("model provider " +:+ dquote +:+ provider_id modelProvider
                      +:+ dquote +:+ " initialized successfully"))
  | Err e =>
      (mkPromise (settles_at (provider_init modelProvider)) (Ok tt),
       mkLog "error" ("model provider initialization failed for " +:+ dquote
                      +:+ provider_id modelProvider +:+ dquote))
  end.

(** [init()]: its outcome and the lines it logs. *)
Definition init (mm : t) : outcome unit * list LogEntry :=
  let tasks := initTask <$> map_values (models mm) in
  (match promise_all (tasks.*1) with
   | Returns _ => Returns tt
   | Throws e => Throws e
   | Pending => Pending
   end, tasks.*2).

(** The task [checkHealth] maps each provider to: a failure is logged and
    thrown again. *)
Definition healthTask (model : ModelProvider) : Promise unit * LogEntry :=
  match settles_as (provider_checkHealth model) with
  | Ok _ =>
      (mkPromise (settles_at (provider_checkHealth model)) (Ok tt),
       mkLog "debug" ("health check for model provider " +:+ dquote
                      +:+ provider_id model +:+ dquote +:+ " passed"))
  | Err e =>
      (mkPromise (settles_at (provider_checkHealth model)) (Err e),
       mkLog "error" ("health check for model provider " +:+ dquote
                      +:+ provider_id model +:+ dquote +:+ " failed"))
  end.

(** [a || b] on two optional strings. *)
Definition opt_or (a b : option string) : option string :=
  if str_truthy a then a else b.

(** [executeCapability(capabilityId, input, config, modelId)], issued at
    instant [now]. *)
Definition executeCapability (mm : t) (now : nat) (capabilityId input : string)
  (config : option OperationConfig) (modelId : option string) : result string :=
  let resolvedCapabilityId := resolvedId mm capabilityId in
  let effectiveModelId :=
    opt_or modelId
      (CapabilityRegistry.getDefaultModelForCapability resolvedCapabilityId
         (capabilityRegistry mm)) in
  match effectiveModelId with
  | Some effectiveModelId =>
      if bool_decide (effectiveModelId = EmptyString) then
        Err ("No model specified and no default model set for capability "
             +:+ resolvedCapabilityId)
      else
      match map_get (models mm) effectiveModelId with
      | None => Err ("Unknown model: " +:+ effectiveModelId)
      | Some modelProvider =>
          match getCapability modelProvider resolvedCapabilityId with
          | None =>
              Err ("Capability " +:+ resolvedCapabilityId
                   +:+ " not found on model " +:+ provider_id modelProvider)
          | Some capability =>
              match capability_input capability input with
              | Err e =>
                  Err ("Invalid input for capability "
                       +:+ resolvedCapabilityId +:+ ": " +:+ e)
              | Ok validatedInput =>
                  match capability_execute capability now validatedInput config with
                  | Err e => Err e
                  | Ok result => capability_output capability result
                  end
              end
          end
      end
  | None =>
      Err ("No model specified and no default model set for capability "
           +:+ resolvedCapabilityId)
  end.

Definition checkHealth (mm : t) : outcome unit * list LogEntry :=
  let tasks := healthTask <$> map_values (models mm) in
  (match promise_all (tasks.*1) with
   | Returns _ => Returns tt
   | Throws e => Throws e
   | Pending => Pending
   end, tasks.*2).

End ModelManager.

(** ** Context items, events and pipelines ([pipeline/types], [pipeline/agent]) *)

(** A context item is a plain object: the fields of [BaseContextItem]
    ([id], [pluginId], [action], [type], [content], [timestamp]) and
    whatever payload its producer adds, keyed by field name. *)
Abbreviation ContextItem := (gmap string JsValue).

(** [{ ...existing, ...item }]: every field of [item], and the fields of
    [existing] that [item] does not have. *)
Definition spread (existing item : ContextItem) : ContextItem := item ∪ existing.

Record PipelineStep : Type := mkStep {
  pluginId : string;
  action : string
}.

#[global] Instance PipelineStep_eqdec : EqDecision PipelineStep.
Proof. solve_decision. Defined.

Record PipelineModification : Type := mkModification {
  shouldModify : bool;
  explanation : string;
  modifiedSteps : option (list PipelineStep)
}.

(** An event: its context chain, the conversation it belongs to and the
    platform context of its trigger.  (The [eventQueue] field of the
    source is the queue handle of the one runtime.) *)
Record AgentContext : Type := mkContext {
  contextChain : list ContextItem;
  conversationId : option string;
  platformContext : option (gmap string JsValue)
}.

#[global] Instance AgentContext_inhabited : Inhabited AgentContext :=
  populate (mkContext [] None None).

Record PluginResult : Type := mkResult {
  success : bool;
  data : option (gmap string JsValue);
  error : option string
}.

(** What a plugin is shown of the other plugins when a plan is made. *)
Record PluginSummary : Type := mkSummary {
  summary_id : string;
  summary_name : string;
  summary_description : string;
  summary_executors : list (string * string)
}.

Record PipelineGenerationContext : Type := mkGenerationContext {
  generation_contextChain : list ContextItem;
  generation_availablePlugins : list PluginSummary;
  generation_platform : JsValue;
  generation_message : JsValue;
  generation_conversationHistory : list JsValue
}.

Record PipelineModificationContext : Type := mkModificationContext {
  modification_contextChain : list ContextItem;
  modification_currentStep : PipelineStep;
  modification_pipeline : list PipelineStep;
  modification_availablePlugins : list PluginSummary
}.

(** A zod schema: the description shown to the model and [parse], which
    returns the parsed value or throws. *)
Record ZodType (T : Type) : Type := mkSchema {
  formatZodSchema : string;
  parse : JsValue -> result T
}.
Arguments mkSchema {T} _ _.
Arguments formatZodSchema {T} _.
Arguments parse {T} _ _.

(** JavaScript truthiness of a field that may be absent. *)
Definition truthy (x : option JsValue) : bool :=
  match x with
  | None | Some JNull | Some (JBool false) => false
  | Some (JNum n) => negb (bool_decide (n = 0%Z))
  | Some (JStr s) => negb (bool_decide (s = EmptyString))
  | Some _ => true
  end.

(** [x || d] on a field that may be absent. *)
Definition js_or (x : option JsValue) (d : JsValue) : JsValue :=
  match x with
  | Some v => if truthy x then v else d
  | None => d
  end.

(** The helpers of [pipeline/templates], [pipeline/operations],
    [pipeline/agent] and [pipeline/types] that the runtime calls and whose
    sources are not part of the development: prompt templates, JSON
    extraction, the two schemas, the capability constant.  The two
    templates of [getObject] are given strings and are total; the two
    planning templates render whole contexts and may throw, as extraction
    and parsing may. *)
Class Helpers : Type := {
  TEXT_GENERATION_CAPABILITY : string;
  getUserInput : AgentContext -> option ContextItem;
  generateObjectTemplate : string -> string -> string;
  generateRetryTemplate : string -> string -> option string -> string -> string;
  generatePipelineTemplate : PipelineGenerationContext -> result string;
  generatePipelineModificationTemplate :
    PipelineModificationContext -> result string;
  extractJson : string -> result string;
  cleanJsonString : string -> string;
  trim : string -> string;
  JSON_parse : string -> result JsValue;
  JSON_stringify : gmap string JsValue -> string;
  PipelineSchema : ZodType (list PipelineStep);
  PipelineModificationSchema : ZodType PipelineModification
}.

(** ** Plugins and the plugin registry ([managers/plugin.ts]) *)

(** Calls made on the runtime from outside the loop (by triggers, by the
    embedding application, by work an executor left behind): the public
    methods of the runtime and the two methods of the queue interface.
    A call of [start()] is not among them: what a second activation of
    the loop does is looked at separately. *)
Inductive ExternalCall : Type :=
| ExternalCreateEvent (initialContext : ContextItem)
    (platformContext : option (gmap string JsValue))
| ExternalPush (context : AgentContext)
| ExternalShift
| ExternalPushContext (context : AgentContext)
| ExternalPushToContextChain (item : ContextItem)
| ExternalStop.

(** A trigger: its id and [start(context)], which is called without
    [await]: the calls on the runtime that it completes before it returns,
    and whether it returns or throws.  What it awaits, or leaves to a
    listener or a timer, calls the runtime later, through the schedule. *)
Record Trigger : Type := mkTrigger {
  trigger_id : string;
  trigger_start : AgentContext -> list ExternalCall * result unit
}.

(** What an executor does with the runtime handle while it runs: calls of
    the runtime's public methods, and the points at which it awaits
    something else. *)
Inductive PluginCall : Type :=
| PluginPushToContextChain (item : ContextItem)
| PluginCreateEvent (initialContext : ContextItem)
    (platformContext : option (gmap string JsValue))
| PluginPushContext (context : AgentContext)
| PluginAwait.

(** A plugin: its descriptive fields, its triggers, the promise of its
    [init()], and [execute(action, context)], which is given the instant of
    the call and the context as it then is, and yields the runtime calls it
    makes and how its promise settles. *)
Record Plugin : Type := mkPlugin {
  plugin_id : string;
  plugin_name : string;
  plugin_description : string;
  requiredCapabilities : list string;
  executors : list (string * string);
  triggers : list Trigger;
  plugin_init : Promise unit;
  plugin_execute :
    string -> nat -> AgentContext -> list PluginCall * result PluginResult
}.

(** The line feed, as a string. *)
Definition newline : string := String (Ascii.ascii_of_nat 10) EmptyString.

Module PluginRegistry.

Record t : Type := mk {
  plugins : list (string * Plugin)
}.

Definition new : t := mk [].

Definition registerPlugin (plugin : Plugin) : M t unit :=
  if bool_decide (plugin_id plugin = EmptyString) then
    throw "Plugin ID cannot be empty"
  else
    reg ← get;
    if map_has (plugins reg) (plugin_id plugin) then
      let existing := map_keys (plugins reg) in
      throw ("Plugin ID collision: " +:+ plugin_id plugin
             +:+ " is already registered." +:+ newline
             +:+ "Currently registered plugins: "
             +:+ String.concat ", " existing)
    else
      modify (fun reg => mk (map_set (plugins reg) (plugin_id plugin) plugin)).

Definition registerPlugins (ps : list Plugin) : M t unit :=
  for_of ps registerPlugin.

Definition init (reg : t) : outcome unit :=
  match promise_all (plugin_init <$> map_values (plugins reg)) with
  | Returns _ => Returns tt
  | Throws e => Throws e
  | Pending => Pending
  end.

(** [getPlugin(id): Plugin | undefined]: the declared result allows
    [undefined] ([None]), the body throws instead. *)
Definition getPlugin (reg : t) (id : string) : outcome (option Plugin) :=
  match map_get (plugins reg) id with
  | None =>
      Throws ("Plugin ID " +:+ id +:+ " not found. Available plugins: "
              +:+ String.concat ", " (map_keys (plugins reg)))
  | Some plugin => Returns (Some plugin)
  end.

Definition getAllPlugins (reg : t) : list Plugin := map_values (plugins reg).

End PluginRegistry.

(** ** The memory manager, as the runtime uses it *)

(** The calls are answered by the memory provider; each is given the
    instant at which it is made. *)
Record MemoryManager : Type := mkMemory {
  memory_init : result unit;
  memory_checkHealth : result unit;
  getRecentConversationHistory :
    nat -> option JsValue -> option JsValue -> result (list JsValue);
  getOrCreateConversation :
    nat -> option JsValue -> option JsValue -> result string;
  storeUserInteraction :
    nat -> option JsValue -> option JsValue -> option JsValue ->
    option JsValue -> option JsValue -> result unit;
  storeAssistantInteraction :
    nat -> option JsValue -> option JsValue -> option JsValue ->
    list ContextItem -> result unit
}.

(** ** The runtime *)

(** Events are objects: the queue, the current-context slot and the local
    variables of the loop hold references into one store. *)
Abbreviation ref := nat (only parsing).

(** What the runtime is observed to do with events: an event is put on
    the queue; the loop takes one from it; an outside call of
    [queueInterface.shift()] takes one from it; an executor is run for the
    step of an event; the loop ends the processing of an event. *)
Inductive Event : Type :=
| Enqueued (context : ref)
| Dequeued (context : ref)
| Shifted (context : ref)
| Executed (current : option ref) (context : ref) (step : PipelineStep)
| Cleared (context : ref).

(** The fields of class [Runtime], then the store of event objects, the
    logical clock (one instant per suspension of the loop), the calls that
    arrive from outside at each instant, the number of model requests made,
    and the observed events. *)
Record Runtime : Type := mkRuntime {
  modelManager : ModelManager.t;
  memoryManager : MemoryManager;
  pluginRegistry : PluginRegistry.t;
  isRunning : bool;
  eventQueue : list ref;
  currentContext : option ref;
  heap : list AgentContext;
  clock : nat;
  schedule : nat -> list ExternalCall;
  modelCalls : nat;
  trace : list Event
}.

Definition set_isRunning (b : bool) (rt : Runtime) : Runtime :=
  mkRuntime (modelManager rt) (memoryManager rt) (pluginRegistry rt) b
    (eventQueue rt) (currentContext rt) (heap rt) (clock rt) (schedule rt)
    (modelCalls rt) (trace rt).

Definition set_eventQueue (q : list ref) (rt : Runtime) : Runtime :=
  mkRuntime (modelManager rt) (memoryManager rt) (pluginRegistry rt)
    (isRunning rt) q (currentContext rt) (heap rt) (clock rt) (schedule rt)
    (modelCalls rt) (trace rt).

Definition set_currentContext (c : option ref) (rt : Runtime) : Runtime :=
  mkRuntime (modelManager rt) (memoryManager rt) (pluginRegistry rt)
    (isRunning rt) (eventQueue rt) c (heap rt) (clock rt) (schedule rt)
    (modelCalls rt) (trace rt).

Definition set_heap (h : list AgentContext) (rt : Runtime) : Runtime :=
  mkRuntime (modelManager rt) (memoryManager rt) (pluginRegistry rt)
    (isRunning rt) (eventQueue rt) (currentContext rt) h (clock rt)
    (schedule rt) (modelCalls rt) (trace rt).

Definition set_clock (n : nat) (rt : Runtime) : Runtime :=
  mkRuntime (modelManager rt) (memoryManager rt) (pluginRegistry rt)
    (isRunning rt) (eventQueue rt) (currentContext rt) (heap rt) n
    (schedule rt) (modelCalls rt) (trace rt).

Definition set_modelCalls (n : nat) (rt : Runtime) : Runtime :=
  mkRuntime (modelManager rt) (memoryManager rt) (pluginRegistry rt)
    (isRunning rt) (eventQueue rt) (currentContext rt) (heap rt) (clock rt)
    (schedule rt) n (trace rt).

Definition set_trace (t : list Event) (rt : Runtime) : Runtime :=
  mkRuntime (modelManager rt) (memoryManager rt) (pluginRegistry rt)
    (isRunning rt) (eventQueue rt) (currentContext rt) (heap rt) (clock rt)
    (schedule rt) (modelCalls rt) t.

(** [new Runtime(modelManager, memoryManager, pluginRegistry)], placed in
    a world with the given arrivals. *)
Definition Runtime_new (mm : ModelManager.t) (mem : MemoryManager)
  (reg : PluginRegistry.t) (arrivals : nat -> list ExternalCall) : Runtime :=
  mkRuntime mm mem reg false [] None [] 0 arrivals 0 [].

(** Reading and writing event objects. *)
Definition deref (r : ref) : M Runtime AgentContext :=
  gets (fun rt => heap rt !!! r).

Definition alloc (c : AgentContext) : M Runtime ref :=
  rt ← get;
  modify (set_heap (heap rt ++ [c])%list);;
  mret (length (heap rt)).

Definition setChain (r : ref) (chain : list ContextItem) : M Runtime unit :=
  modify (fun rt =>
    set_heap (alter (fun c => mkContext chain (conversationId c)
                                        (platformContext c)) r (heap rt)) rt).

(** [context.contextChain.push(item)] *)
Definition chainPush (r : ref) (item : ContextItem) : M Runtime unit :=
  c ← deref r;
  setChain r (contextChain c ++ [item])%list.

Definition emit (e : Event) : M Runtime unit :=
  modify (fun rt => set_trace (trace rt ++ [e])%list rt).

(** [this.eventQueue.push(context)] *)
Definition enqueue (r : ref) : M Runtime unit :=
  modify (fun rt => set_eventQueue (eventQueue rt ++ [r])%list rt);;
  emit (Enqueued r).

(** [Array.prototype.findIndex]; [None] stands for [-1]. *)
Fixpoint findIndex {A} (p : A -> bool) (l : list A) : option nat :=
  match l with
  | [] => None
  | x :: l' => if p x then Some 0 else S <$> findIndex p l'
  end.

(** [existing.pluginId === item.pluginId && existing.action === item.action];
    both fields are strings by the type of context items, for which [===]
    is equality of values. *)
Definition samePluginAction (item existing : ContextItem) : bool :=
  bool_decide (existing !! "pluginId" = item !! "pluginId")
  && bool_decide (existing !! "action" = item !! "action").

(** The update [pushToContextChain] makes to the chain of the current
    context. *)
Definition mergeIntoChain (chain : list ContextItem) (item : ContextItem)
  : list ContextItem :=
  match findIndex (samePluginAction item) chain with
  | Some existingIndex =>
      <[existingIndex := spread (default ∅ (chain !! existingIndex)) item]> chain
  | None => (chain ++ [item])%list
  end.

Definition pushToContextChain (item : ContextItem) : M Runtime unit :=
  rt ← get;
  match currentContext rt with
  | Some context =>
      c ← deref context;
      setChain context (mergeIntoChain (contextChain c) item)
  | None => mret tt
  end.

(** [pushContext(context)] *)
Definition pushContext (context : AgentContext) : M Runtime unit :=
  r ← alloc context;
  enqueue r.

(** [stop()] *)
Definition stop : M Runtime unit :=
  rt ← get;
  if negb (isRunning rt) then throw "Runtime is not running"
  else modify (set_isRunning false).

(** Running code with its exception reified, for [try] blocks whose
    handler needs the local variables as the body left them. *)
Definition attempt {S A} (m : M S A) : M S (result A) :=
  fun s =>
    match m s with
    | (Returns a, s') => (Returns (Ok a), s')
    | (Throws e, s') => (Returns (Err e), s')
    | (Pending, s') => (Pending, s')
    end.

(** [Date.now()]: the wall clock is read off the logical clock. *)
Definition Date_now : M Runtime Z := gets (fun rt => Z.of_nat (clock rt)).

Section WithHelpers.
Context `{Helpers}.

(** *** The queue interface *)

(** [queueInterface.push(context)].  It is run at one instant: the loop is
    suspended meanwhile.  (The wrapper it puts around the platform's
    response handler only logs.) *)
Definition queueInterface_push (context : AgentContext) : M Runtime unit :=
  let userInput := getUserInput context in
  rt ← get;
  conversationHistory ←
    match userInput with
    | Some userInput =>
        await (getRecentConversationHistory (memoryManager rt) (clock rt)
                 (userInput !! "user") (userInput !! "pluginId"))
    | None => mret []
    end;
  let chain :=
    match contextChain context with
    | first :: rest =>
        <["messageHistory" := JArr conversationHistory]> first :: rest
    | [] => []
    end in
  let fullContext :=
    mkContext chain (conversationId context) (platformContext context) in
  try_catch
    (match userInput with
     | Some userInput =>
         await (storeUserInteraction (memoryManager rt) (clock rt)
                  (userInput !! "user") (userInput !! "pluginId")
                  (userInput !! "rawMessage") (userInput !! "timestamp")
                  (userInput !! "id"))
     | None => mret tt
     end;;
     r ← alloc fullContext;
     enqueue r)
    (fun error => throw error).

(** [createEvent(initialContext, platformContext)] *)
Definition createEvent (initialContext : ContextItem)
  (platformContext : option (gmap string JsValue)) : M Runtime unit :=
  rt ← get;
  conversationId ←
    await (getOrCreateConversation (memoryManager rt) (clock rt)
             (initialContext !! "user") (initialContext !! "pluginId"));
  let context := mkContext [initialContext] (Some conversationId) platformContext in
  try_catch (queueInterface_push context) (fun error => throw error).

(** [queueInterface.shift()]: the first event of the queue, if any, is
    taken from it and handed to the caller. *)
Definition queueInterface_shift : M Runtime (option ref) :=
  rt ← get;
  match eventQueue rt with
  | [] => mret None
  | context :: rest =>
      modify (set_eventQueue rest);;
      emit (Shifted context);;
      mret (Some context)
  end.

(** A call from outside; its result and its failure go to its caller, not
    to the loop. *)
Definition runExternal (c : ExternalCall) : M Runtime unit :=
  try_catch
    match c with
    | ExternalCreateEvent initialContext platformContext =>
        createEvent initialContext platformContext
    | ExternalPush context => queueInterface_push context
    | ExternalShift => queueInterface_shift;; mret tt
    | ExternalPushContext context => pushContext context
    | ExternalPushToContextChain item => pushToContextChain item
    | ExternalStop => stop
    end
    (fun _ => mret tt).

(** A suspension of the loop ([await]): the calls that arrive at this
    instant run, and the clock moves on.  Returns the instant. *)
Definition suspend : M Runtime nat :=
  rt ← get;
  for_of (schedule rt (clock rt)) runExternal;;
  modify (fun rt => set_clock (S (clock rt)) rt);;
  mret (clock rt).

(** [await this.modelManager.executeCapability(capabilityId, input, config)] *)
Definition requestCapability (mm : ModelManager.t) (capabilityId input : string)
  (config : option OperationConfig) : M Runtime string :=
  now ← suspend;
  modify (fun rt => set_modelCalls (S (modelCalls rt)) rt);;
  await (ModelManager.executeCapability mm now capabilityId input config None).

(** [executeCapability(capabilityId, input, config)] of the runtime *)
Definition executeCapability (capabilityId input : string)
  (config : option OperationConfig) : M Runtime string :=
  rt ← get;
  requestCapability (modelManager rt) capabilityId input config.

(** *** Structured object retrieval *)

(** [config?.maxRetries || 3] *)
Definition MAX_RETRIES (config : option OperationConfig) : Z :=
  match config ≫= maxRetries with
  | Some n => if bool_decide (n = 0%Z) then 3%Z else n
  | None => 3%Z
  end.

(** The body of the second [try] block of [Runtime.getObject]: the JSON
    text is cut out of the response, trimmed, parsed and checked against
    the schema; each step may throw. *)
Definition parseResponse {T} (schema : ZodType T) (lastResponse : string)
  : result T :=
  extracted ← extractJson lastResponse;
  let lastJsonString := trim extracted in
  json ← JSON_parse lastJsonString;
  parse schema json.

(** The [for] loop of [Runtime.getObject], from [attempt] on.  [None] is
    the [undefined] a caller gets when the loop ends without [return].
    [budget] bounds the iterations observed. *)
Fixpoint Runtime_getObject_loop {T} (budget : nat) (schema : ZodType T)
  (prompt : string) (config : option OperationConfig)
  (attempt_no : Z) (lastResponse lastError : string) : M Runtime (option T) :=
  match budget with
  | O => pending
  | S budget' =>
      if bool_decide (attempt_no < MAX_RETRIES config)%Z then
        let last := bool_decide (attempt_no = MAX_RETRIES config - 1)%Z in
        (* the second [try] block and what follows it *)
        let secondTry (lastResponse lastError : string) : M Runtime (option T) :=
          match parseResponse schema lastResponse with
          | Ok result => mret (Some result)
          | Err err =>
              if last then throw err
              else Runtime_getObject_loop budget' schema prompt config
                     (attempt_no + 1)%Z lastResponse err
          end in
        (* the first [try] block *)
        generated ← attempt
          (let input :=
             if bool_decide (0 < attempt_no)%Z
             then generateRetryTemplate (formatZodSchema schema) prompt
                    (Some lastResponse) lastError
             else generateObjectTemplate (formatZodSchema schema) prompt in
           rt ← get;
           requestCapability (modelManager rt) TEXT_GENERATION_CAPABILITY
             input config);
        match generated with
        | Ok response => secondTry response lastError
        | Err err =>
            if last then throw err
            else secondTry lastResponse err
        end
      else mret None
  end.

(** [Runtime.getObject(schema, prompt, config)] *)
Definition Runtime_getObject {T} (schema : ZodType T) (prompt : string)
  (config : option OperationConfig) : M Runtime (option T) :=
  Runtime_getObject_loop (S (Z.to_nat (MAX_RETRIES config))) schema prompt
    config 0%Z EmptyString EmptyString.

(** [config?.maxRetries ?? 3] *)
Definition maxRetriesOf (config : option OperationConfig) : Z :=
  match config ≫= maxRetries with
  | Some n => n
  | None => 3%Z
  end.

(** The [for] loop of the earlier, free-standing [getObject(modelManager,
    schema, prompt, config)], from [attempt] on, and the [throw] that
    follows the loop. *)
Fixpoint getObject_loop {T} (budget : nat) (mm : ModelManager.t)
  (schema : ZodType T) (prompt : string) (config : option OperationConfig)
  (attempt_no : Z) (lastError lastResponse : option string) : M Runtime T :=
  match budget with
  | O => pending
  | S budget' =>
      if bool_decide (attempt_no < maxRetriesOf config)%Z then
        let last := bool_decide (attempt_no = maxRetriesOf config - 1)%Z in
        let fullPrompt :=
          if bool_decide (attempt_no = 0)%Z
          then generateObjectTemplate (formatZodSchema schema) prompt
          else generateRetryTemplate (formatZodSchema schema) prompt
                 lastResponse (default EmptyString lastError) in
        generated ← attempt
          (requestCapability mm "text-generation" fullPrompt config);
        match generated with
        | Err error =>
            (* outer catch, [lastResponse] untouched *)
            if last then throw error
            else getObject_loop budget' mm schema prompt config
                   (attempt_no + 1)%Z (Some error) lastResponse
        | Ok response =>
            match extractJson response with
            | Err error =>
                (* outer catch, after [lastResponse = response] *)
                if last then throw error
                else getObject_loop budget' mm schema prompt config
                       (attempt_no + 1)%Z (Some error) (Some response)
            | Ok extracted =>
                let jsonString := cleanJsonString extracted in
                match JSON_parse jsonString ≫= parse schema with
                | Ok result => mret result
                | Err parseError =>
                    (* inner catch; its [throw] passes through the outer
                       catch, which throws it again *)
                    if last then throw parseError
                    else getObject_loop budget' mm schema prompt config
                           (attempt_no + 1)%Z (Some parseError) (Some response)
                end
            end
        end
      else throw "Failed to get valid response after retries"
  end.

Definition getObject {T} (mm : ModelManager.t) (schema : ZodType T)
  (prompt : string) (config : option OperationConfig) : M Runtime T :=
  getObject_loop (S (Z.to_nat (maxRetriesOf config))) mm schema prompt config
    0%Z None None.

(** *** Pipeline generation and modification *)

Definition summarise (plugin : Plugin) : PluginSummary :=
  mkSummary (plugin_id plugin) (plugin_name plugin)
            (plugin_description plugin) (executors plugin).

(** The first part of [evaluatePipeline(context)], up to the [try]: the
    generation context is put together. *)
Definition buildGenerationContext (context : ref)
  : M Runtime PipelineGenerationContext :=
  c ← deref context;
  let userInput := getUserInput c in
  rt ← get;
  let availablePlugins :=
    summarise <$> PluginRegistry.getAllPlugins (pluginRegistry rt) in
  let platform := js_or (userInput ≫= (.!! "pluginId")) (JStr "unknown") in
  let message := js_or (userInput ≫= (.!! "rawMessage")) (JStr EmptyString) in
  conversationHistory ←
    match userInput with
    | Some userInput =>
        now ← suspend;
        await (getRecentConversationHistory (memoryManager rt) now
                 (userInput !! "user") (Some platform))
    | None => mret []
    end;
  c ← deref context;
  mret (mkGenerationContext (contextChain c) availablePlugins platform message
                            conversationHistory).

(** The configuration both planning calls pass to [getObject]:
    [{ temperature: 0.2 }]. *)
Definition planningConfig : option OperationConfig :=
  Some (mkConfig (Some (Q2Qc (2 # 10))) None).

(** The [try] block of [evaluatePipeline]: the pipeline is generated by
    the model. *)
Definition generatePipeline (pipelineContext : PipelineGenerationContext)
  : M Runtime (list PipelineStep) :=
  template ← await (generatePipelineTemplate pipelineContext);
  pipeline ← Runtime_getObject PipelineSchema template planningConfig;
  match pipeline with
  | Some pipeline => mret pipeline
  | None =>
      throw "TypeError: Cannot read properties of undefined (reading 'map')"
  end.

(** The [catch] block of [evaluatePipeline]: the template is rendered
    again, twice, for the two lines logged, and the empty pipeline is
    returned. *)
Definition recoverPipeline (pipelineContext : PipelineGenerationContext)
  : M Runtime (list PipelineStep) :=
  await (generatePipelineTemplate pipelineContext);;
  await (generatePipelineTemplate pipelineContext);;
  mret [].

(** [evaluatePipeline(context)] *)
Definition evaluatePipeline (context : ref) : M Runtime (list PipelineStep) :=
  pipelineContext ← buildGenerationContext context;
  try_catch (generatePipeline pipelineContext)
            (fun error => recoverPipeline pipelineContext).

(** What [evaluatePipelineModification] returns when the evaluation
    fails. *)
Definition noModification : PipelineModification :=
  mkModification false "Error evaluating pipeline modification" None.

(** [evaluatePipelineModification(context)] *)
Definition evaluatePipelineModification (context : PipelineModificationContext)
  : M Runtime PipelineModification :=
  template ← await (generatePipelineModificationTemplate context);
  try_catch
    (modification ← Runtime_getObject PipelineModificationSchema template
                      planningConfig;
     match modification with
     | Some modification => mret modification
     | None =>
         throw "TypeError: Cannot read properties of undefined (reading 'shouldModify')"
     end)
    (fun error => mret noModification).

(** *** Pipeline execution *)

(** [array.slice(start, end)] for indices within [0 .. ]. *)
Definition slice {A} (l : list A) (start end_ : nat) : list A :=
  drop start (take end_ l).

(** The assignment made when a modification is applied:
    [[...currentPipeline.slice(0, currentStepIndex + 1), ...modifiedSteps]]. *)
Definition splice (currentPipeline : list PipelineStep) (currentStepIndex : nat)
  (steps : list PipelineStep) : list PipelineStep :=
  (slice currentPipeline 0 (currentStepIndex + 1) ++ steps)%list.

(** [if (modification.shouldModify && modification.modifiedSteps)] and the
    assignment it guards; an array, even an empty one, is truthy. *)
Definition applyModification (currentPipeline : list PipelineStep)
  (currentStepIndex : nat) (modification : PipelineModification)
  : list PipelineStep :=
  match shouldModify modification, modifiedSteps modification with
  | true, Some steps => splice currentPipeline currentStepIndex steps
  | _, _ => currentPipeline
  end.

Definition stepToJs (step : PipelineStep) : JsValue :=
  JObj [("pluginId", JStr (pluginId step)); ("action", JStr (action step))].

(** An [ErrorContextItem]. *)
Definition errorContextItem (now : Z) (plugin action_ message : string)
  (failedStep : option PipelineStep) : ContextItem :=
  let item : ContextItem :=
    list_to_map
      [("id", JStr ("error-" +:+ pretty now));
       ("pluginId", JStr plugin);
       ("type", JStr "error");
       ("action", JStr action_);
       ("content", JStr message);
       ("timestamp", JNum now);
       ("error", JStr message)] in
  match failedStep with
  | Some step => <["failedStep" := stepToJs step]> item
  | None => item
  end.

(** The item appended for a successful step:
    [{ id, pluginId, type, action, content, timestamp, ...result.data }]. *)
Definition resultContextItem (now : Z) (step : PipelineStep)
  (data : gmap string JsValue) : ContextItem :=
  spread
    (list_to_map
       [("id", JStr (pluginId step +:+ "-" +:+ pretty now));
        ("pluginId", JStr (pluginId step));
        ("type", JStr (action step));
        ("action", JStr (action step));
        ("content", JStr (JSON_stringify data));
        ("timestamp", JNum now)])
    data.

(** A call an executor makes on the runtime; a failing [createEvent] is
    the executor's to handle. *)
Definition runPluginCall (c : PluginCall) : M Runtime unit :=
  match c with
  | PluginPushToContextChain item => pushToContextChain item
  | PluginCreateEvent initialContext platformContext =>
      try_catch (createEvent initialContext platformContext)
                (fun _ => mret tt)
  | PluginPushContext context => pushContext context
  | PluginAwait => suspend;; mret tt
  end.

(** [await plugin.execute(currentStep.action, context)] *)
Definition executePlugin (plugin : Plugin) (currentStep : PipelineStep)
  (context : ref) : M Runtime PluginResult :=
  rt ← get;
  c ← deref context;
  emit (Executed (currentContext rt) context currentStep);;
  let '(calls, settlement) :=
    plugin_execute plugin (action currentStep) (clock rt) c in
  for_of calls runPluginCall;;
  suspend;;
  await settlement.

(** The body of the [try] block of one step: run the executor, record its
    result, ask whether the plan changes.  Returns the plan to go on
    with. *)
Definition executeStep (plugin : Plugin) (currentPipeline : list PipelineStep)
  (currentStepIndex : nat) (currentStep : PipelineStep) (context : ref)
  : M Runtime (list PipelineStep) :=
  result ← executePlugin plugin currentStep context;
  (if negb (success result) then
     now ← Date_now;
     chainPush context
       (errorContextItem now (pluginId currentStep) (action currentStep)
          (str_or (error result) "Unknown error") (Some currentStep))
   else
     match data result with
     | Some data =>
         now ← Date_now;
         chainPush context (resultContextItem now currentStep data)
     | None => mret tt
     end);;
  c ← deref context;
  rt ← get;
  modification ← evaluatePipelineModification
    (mkModificationContext (contextChain c) currentStep currentPipeline
       (summarise <$> PluginRegistry.getAllPlugins (pluginRegistry rt)));
  mret (applyModification currentPipeline currentStepIndex modification).

(** The [while] loop of [executePipeline]. *)
Fixpoint executePipeline_loop (budget : nat) (context : ref)
  (currentPipeline : list PipelineStep) (currentStepIndex : nat)
  : M Runtime unit :=
  match budget with
  | O => pending
  | S budget' =>
      if bool_decide (currentStepIndex < length currentPipeline) then
        match currentPipeline !! currentStepIndex with
        | None =>
            now ← Date_now;
            chainPush context
              (errorContextItem now "runtime" "invalid_step"
                 "Invalid step encountered in pipeline" None);;
            executePipeline_loop budget' context currentPipeline
              (S currentStepIndex)
        | Some currentStep =>
            rt ← get;
            plugin ← lift_outcome
              (PluginRegistry.getPlugin (pluginRegistry rt)
                 (pluginId currentStep));
            match plugin with
            | None =>
                now ← Date_now;
                chainPush context
                  (errorContextItem now (pluginId currentStep)
                     "plugin_not_found"
                     ("Plugin " +:+ pluginId currentStep +:+ " not found")
                     (Some currentStep));;
                executePipeline_loop budget' context currentPipeline
                  (S currentStepIndex)
            | Some plugin =>
                currentPipeline ←
                  try_catch
                    (executeStep plugin currentPipeline currentStepIndex
                       currentStep context)
                    (fun error =>
                       now ← Date_now;
                       chainPush context
                         (errorContextItem now (pluginId currentStep)
                            (action currentStep) error (Some currentStep));;
                       mret currentPipeline);
                executePipeline_loop budget' context currentPipeline
                  (S currentStepIndex)
            end
        end
      else mret tt
  end.

(** [executePipeline(pipeline, context)] *)
Definition executePipeline (budget : nat) (pipeline : list PipelineStep)
  (context : ref) : M Runtime unit :=
  modify (set_currentContext (Some context));;
  try_finally
    (executePipeline_loop budget context pipeline 0)
    (modify (set_currentContext None)).

(** *** The evaluation loop *)

(** The [try] block of one iteration of the loop. *)
Definition processEvent (budget : nat) (context : ref) (userInput : ContextItem)
  : M Runtime unit :=
  modify (set_currentContext (Some context));;
  pipeline ← evaluatePipeline context;
  executePipeline budget pipeline context;;
  c ← deref context;
  match last (contextChain c) with
  | None =>
      throw "TypeError: Cannot read properties of undefined (reading 'message')"
  | Some lastContext =>
      rt ← get;
      now ← suspend;
      await (storeAssistantInteraction (memoryManager rt) now
               (userInput !! "user") (userInput !! "pluginId")
               (lastContext !! "message") (contextChain c))
  end.

(** [runEvaluationLoop()] *)
Fixpoint runEvaluationLoop (budget : nat) : M Runtime unit :=
  match budget with
  | O => pending
  | S budget' =>
      rt ← get;
      if isRunning rt then
        match eventQueue rt with
        | [] =>
            suspend;;
            runEvaluationLoop budget'
        | context :: rest =>
            modify (set_eventQueue rest);;
            emit (Dequeued context);;
            c ← deref context;
            match getUserInput c with
            | None =>
                throw "TypeError: Cannot read properties of undefined (reading 'pluginId')"
            | Some userInput =>
                try_finally
                  (try_catch (processEvent budget' context userInput)
                             (fun error => throw error))
                  (modify (set_currentContext None);; emit (Cleared context));;
                runEvaluationLoop budget'
            end
        end
      else mret tt
  end.

(** The context a trigger of [plugin] is started with:
    [{ eventQueue, contextChain: [initContext] }]. *)
Definition triggerContext (now : Z) (plugin : Plugin) : AgentContext :=
  mkContext
    [list_to_map
       [("id", JStr (plugin_id plugin +:+ "-trigger-" +:+ pretty now));
        ("pluginId", JStr (plugin_id plugin));
        ("action", JStr "trigger_init");
        ("type", JStr "user_input");
        ("content", JStr EmptyString);
        ("timestamp", JNum now);
        ("rawMessage", JStr EmptyString);
        ("user", JStr "system")]]
    None None.

(** [trigger.start({ ... })], not awaited: the calls the trigger makes
    before it returns are run, and a trigger that throws makes the caller
    throw. *)
Definition startTrigger (plugin : Plugin) (trigger : Trigger)
  : M Runtime unit :=
  now ← Date_now;
  let '(calls, outcome) := trigger_start trigger (triggerContext now plugin) in
  for_of calls runExternal;;
  await outcome.

(** The loop over the plugins in [start()].  ([plugin._setRuntime(this)]
    hands the plugin the runtime, on which its executors and triggers make
    their calls.) *)
Definition startTriggers : M Runtime unit :=
  rt ← get;
  for_of (PluginRegistry.getAllPlugins (pluginRegistry rt))
    (fun plugin => for_of (triggers plugin) (startTrigger plugin)).

(** [start()] *)
Definition start (budget : nat) : M Runtime unit :=
  rt ← get;
  if isRunning rt then mret tt
  else
    modify (set_isRunning true);;
    startTriggers;;
    try_catch (runEvaluationLoop budget)
              (fun error => modify (set_isRunning false);; throw error).

(** *** Initialisation *)

(** The argument of [Runtime.init]. *)
Record RuntimeConfig : Type := mkRuntimeConfig {
  modelProviders : list ModelProvider;
  memoryProvider : MemoryManager;
  config_plugins : list Plugin;
  capabilityAliases : list (list string)
}.

Definition REQUIRED_CAPABILITIES : list string := [TEXT_GENERATION_CAPABILITY].

(** Lifting a computation on a component to one that only reports. *)
Definition run_on {S A} (m : M S A) (s : S) : outcome (A * S) :=
  match m s with
  | (Returns a, s') => Returns (a, s')
  | (Throws e, _) => Throws e
  | (Pending, _) => Pending
  end.

(** The two capability checks of [init]: the first unavailable capability
    found, in the order looked at. *)
Definition missingRequired (mm : ModelManager.t) : option string :=
  List.find (fun capability => negb (ModelManager.hasCapability mm capability))
            REQUIRED_CAPABILITIES.

Definition missingForPlugin (mm : ModelManager.t) (plugin : Plugin)
  : option string :=
  List.find (fun capability => negb (ModelManager.hasCapability mm capability))
            (requiredCapabilities plugin).

Fixpoint missingForPlugins (mm : ModelManager.t) (ps : list Plugin)
  : option (Plugin * string) :=
  match ps with
  | [] => None
  | plugin :: ps' =>
      match missingForPlugin mm plugin with
      | Some capability => Some (plugin, capability)
      | None => missingForPlugins mm ps'
      end
  end.

(** [Runtime.init({ modelProviders, memoryProvider, plugins,
    capabilityAliases })]; the world the new runtime lives in supplies the
    arrivals.  (The logger options and the start-up delay of [options] do
    not bear on the result.) *)
Definition Runtime_init (arrivals : nat -> list ExternalCall)
  (config : RuntimeConfig) : outcome Runtime :=
  match run_on (ModelManager.registerCapabilityAliases (capabilityAliases config))
               (ModelManager.registerModelProviders (modelProviders config)
                  ModelManager.new) with
  | Throws e => Throws e
  | Pending => Pending
  | Returns (_, modelManager) =>
  match (ModelManager.init modelManager).1 with
  | Throws e => Throws e
  | Pending => Pending
  | Returns _ =>
  match (ModelManager.checkHealth modelManager).1 with
  | Throws e => Throws e
  | Pending => Pending
  | Returns _ =>
  match missingRequired modelManager with
  | Some capability =>
      Throws (capability +:+ " capability by a model provider is required for core runtime operations")
  | None =>
  match memory_init (memoryProvider config) with
  | Err e => Throws e
  | Ok _ =>
  match memory_checkHealth (memoryProvider config) with
  | Err e => Throws e
  | Ok _ =>
  match run_on (PluginRegistry.registerPlugins (config_plugins config))
               PluginRegistry.new with
  | Throws e => Throws e
  | Pending => Pending
  | Returns (_, pluginRegistry) =>
  match PluginRegistry.init pluginRegistry with
  | Throws e => Throws e
  | Pending => Pending
  | Returns _ =>
  match missingForPlugins modelManager
          (PluginRegistry.getAllPlugins pluginRegistry) with
  | Some (plugin, capability) =>
      Throws ("plugin " +:+ plugin_id plugin
              +:+ " specified a required capability " +:+ capability
              +:+ " that is not available")
  | None =>
      Returns (Runtime_new modelManager (memoryProvider config)
                           pluginRegistry arrivals)
  end end end end end end end end end.

End WithHelpers.

(** ** Concrete collaborators, for worked examples *)

Module Demo.

Fixpoint mapM {A B} (f : A -> result B) (xs : list A) : result (list B) :=
  match xs with
  | [] => Ok []
  | x :: xs' =>
      match f x, mapM f xs' with
      | Ok y, Ok ys => Ok (y :: ys)
      | Err e, _ => Err e
      | _, Err e => Err e
      end
  end.

(** What the pipeline schema makes of one element of the array. *)
Definition parseStep (json : JsValue) : result PipelineStep :=
  match json with
  | JObj [("pluginId", JStr p); ("action", JStr a)] => Ok (mkStep p a)
  | _ => Err "Expected step"
  end.

(** Helpers for a model that is asked for JSON and whose answers are
    taken as they are: [[]], [null], and [[ghost]] and [[time]], which
    stand for the one-step plans naming the plugins [plugin-ghost] and
    [plugin-time], are the only texts that parse. *)
#[local] Instance helpers : Helpers := {|
  TEXT_GENERATION_CAPABILITY := "text-generation";
  getUserInput context := head (contextChain context);
  generateObjectTemplate schema prompt := schema +:+ prompt;
  generateRetryTemplate schema prompt lastResponse error_ :=
    schema +:+ prompt +:+ default "null" lastResponse +:+ error_;
  generatePipelineTemplate _ := Ok "plan";
  generatePipelineModificationTemplate _ := Ok "replan";
  extractJson text := Ok text;
  cleanJsonString text := text;
  trim text := text;
  JSON_parse text :=
    if bool_decide (text = "[]") then Ok (JArr [])
    else if bool_decide (text = "null") then Ok JNull
    else if bool_decide (text = "[ghost]") then
      Ok (JArr [JObj [("pluginId", JStr "plugin-ghost");
                      ("action", JStr "haunt")]])
    else if bool_decide (text = "[time]") then
      Ok (JArr [JObj [("pluginId", JStr "plugin-time");
                      ("action", JStr "get_current_time")]])
    else Err "Unexpected token";
  JSON_stringify _ := "{}";
  PipelineSchema :=
    mkSchema "steps"
      (fun json => match json with
                   | JArr items => mapM parseStep items
                   | _ => Err "Expected array"
                   end);
  PipelineModificationSchema :=
    mkSchema "modification" (fun _ => Err "Expected object")
|}.

(** A schema that accepts only [null]. *)
Definition nullSchema : ZodType unit :=
  mkSchema "null"
    (fun json => match json with JNull => Ok tt | _ => Err "Expected null" end).

Definition memory : MemoryManager :=
  mkMemory (Ok tt) (Ok tt)
    (fun _ _ _ => Ok []) (fun _ _ _ => Ok "conversation")
    (fun _ _ _ _ _ _ => Ok tt) (fun _ _ _ _ _ => Ok tt).

(** A capability that answers every request with the same text. *)
Definition constantCapability (id text : string) : ModelCapability :=
  Build_ModelCapability id (fun input => Ok input) (fun _ _ _ => Ok text)
                        (fun output => Ok output).

Definition provider (id : string) (capabilities : list ModelCapability)
  (initialised healthy : result unit) : ModelProvider :=
  Build_ModelProvider id capabilities (mkPromise 0 initialised)
                      (mkPromise 0 healthy).

(** A runtime without providers and plugins, not started, nothing queued. *)
Definition emptyRuntime : Runtime :=
  Runtime_new ModelManager.new memory PluginRegistry.new (fun _ => []).

(** A user message as a trigger hands it over. *)
Definition userMessage : ContextItem :=
  list_to_map
    [("id", JStr "m1"); ("pluginId", JStr "plugin-terminal");
     ("action", JStr "receive_message"); ("type", JStr "user_input");
     ("content", JStr "what time is it?"); ("timestamp", JNum 0);
     ("rawMessage", JStr "what time is it?"); ("user", JStr "alice")].

(** The same runtime while it processes one event, whose chain holds the
    user message. *)
Definition busyRuntime : Runtime :=
  set_currentContext (Some 0)
    (set_heap [mkContext [userMessage] (Some "conversation") None]
       (set_isRunning true emptyRuntime)).

(** What an executor adds about that message. *)
Definition annotation : ContextItem :=
  list_to_map
    [("id", JStr "a1"); ("pluginId", JStr "plugin-terminal");
     ("action", JStr "receive_message"); ("type", JStr "note");
     ("content", JStr "seen"); ("timestamp", JNum 1)].

(** A provider of two text capabilities. *)
Definition textProvider : ModelProvider :=
  provider "openai"
    [constantCapability "text-creation" "[]"; constantCapability "txt-gen" "[]"]
    (Ok tt) (Ok tt).

(** A provider whose [init()] rejects and whose health check passes. *)
Definition coldProvider : ModelProvider :=
  provider "local" [constantCapability "text-generation" "[]"]
    (Err "model file missing") (Ok tt).

(** A provider whose one capability has the empty identifier. *)
Definition namelessProvider : ModelProvider :=
  provider "anon" [constantCapability EmptyString "[]"] (Ok tt) (Ok tt).

Definition timeStep : PipelineStep := mkStep "plugin-time" "get_current_time".
Definition replyStep : PipelineStep := mkStep "plugin-terminal" "send_response".
Definition searchStep : PipelineStep := mkStep "plugin-search" "search".

(** A provider whose model plans one step for a plugin nobody
    registered. *)
Definition hauntedProvider : ModelProvider :=
  provider "oracle" [constantCapability "text-generation" "[ghost]"]
    (Ok tt) (Ok tt).

(** A runtime with that provider and without plugins; at the first
    instant a trigger creates an event from the user message. *)
Definition hauntedRuntime : Runtime :=
  Runtime_new
    (ModelManager.registerModelProviders [hauntedProvider] ModelManager.new)
    memory PluginRegistry.new
    (fun now => if bool_decide (now = 0)
                then [ExternalCreateEvent userMessage None] else []).

Definition ghostStep : PipelineStep := mkStep "plugin-ghost" "haunt".

(** The time plugin: its executor answers with the time, as data. *)
Definition clockPlugin : Plugin :=
  mkPlugin "plugin-time" "Time" "Provides current time information" []
    [("get_current_time", "Gets the current localized date and time")] []
    (mkPromise 0 (Ok tt))
    (fun _ _ _ =>
       ([PluginAwait],
        Ok (mkResult true
              (Some {["currentTime" := JStr "Monday, noon";
                      "message" := JStr "Monday, noon"]})
              None))).

Definition timeProvider : ModelProvider :=
  provider "oracle" [constantCapability "text-generation" "[time]"]
    (Ok tt) (Ok tt).

(** A runtime with the time plugin, whose model always plans the time
    step.  A trigger creates an event at the first instant and another
    one while the first is being processed. *)
Definition timeRuntime : Runtime :=
  Runtime_new
    (ModelManager.registerModelProviders [timeProvider] ModelManager.new)
    memory (PluginRegistry.mk [("plugin-time", clockPlugin)])
    (fun now => if bool_decide (now = 0) || bool_decide (now = 2)
                then [ExternalCreateEvent userMessage None] else []).

(** A plugin that needs image generation and does nothing. *)
Definition painter : Plugin :=
  mkPlugin "plugin-image" "Image" "Draws" ["image-generation"] [] []
    (mkPromise 0 (Ok tt))
    (fun _ _ _ => ([], Ok (mkResult true None None))).

End Demo.

(** ** Observations on a runtime, for stating properties *)

(** The context chain of the event object at [r]. *)
Definition chainOf (rt : Runtime) (r : ref) : list ContextItem :=
  contextChain (heap rt !!! r).

(** The events put on the queue, and those taken from it, in order. *)
Definition enqueuedOf (t : list Event) : list ref :=
  omap (fun e => match e with Enqueued r => Some r | _ => None end) t.

Definition dequeuedOf (t : list Event) : list ref :=
  omap (fun e => match e with Dequeued r => Some r | _ => None end) t.

(** The events taken from the queue by an outside call of [shift()], and
    those taken by anyone, in order. *)
Definition shiftedOf (t : list Event) : list ref :=
  omap (fun e => match e with Shifted r => Some r | _ => None end) t.

Definition takenOf (t : list Event) : list ref :=
  omap (fun e => match e with
                 | Dequeued r | Shifted r => Some r
                 | _ => None
                 end) t.

(** Reading a trace as the work of one consumer: [owner] is the event
    being processed, if any.  The loop takes an event from the queue only
    when none is being processed; an executor runs only for the event being
    processed, and while that event is the current context; processing
    ends with the slot cleared.  Events put on the queue, or taken from it
    by an outside [shift()], may come at any time.  [None] when the trace
    cannot be read so. *)
Fixpoint serial (owner : option ref) (t : list Event) : option (option ref) :=
  match t with
  | [] => Some owner
  | Enqueued _ :: t' | Shifted _ :: t' => serial owner t'
  | Dequeued r :: t' =>
      match owner with
      | None => serial (Some r) t'
      | Some _ => None
      end
  | Executed current r _ :: t' =>
      if bool_decide (owner = Some r) && bool_decide (current = Some r)
      then serial owner t'
      else None
  | Cleared r :: t' =>
      if bool_decide (owner = Some r) then serial None t' else None
  end.

(** Some provider of [ps] lists capability [c]. *)
Definition supplies (ps : list ModelProvider) (c : string) : Prop :=
  exists p cap, p ∈ ps /\ cap ∈ getCapabilities p /\ capability_id cap = c.

(** Every alias points at a registered capability. *)
Definition aliases_sound (mm : ModelManager.t) : Prop :=
  forall k c, ModelManager.capabilityAliases mm !! k = Some c ->
    CapabilityRegistry.hasCapability c (ModelManager.capabilityRegistry mm) = true.

(** The same provider with another [init()] promise, and a configuration
    whose providers are so changed. *)
Definition withInit (f : ModelProvider -> Promise unit) (p : ModelProvider)
  : ModelProvider :=
  Build_ModelProvider (provider_id p) (getCapabilities p) (f p)
                      (provider_checkHealth p).

Definition set_models (ms : list (string * ModelProvider)) (mm : ModelManager.t)
  : ModelManager.t :=
  ModelManager.mk ms (ModelManager.capabilityRegistry mm)
                  (ModelManager.capabilityAliases mm).

Definition withInits (f : ModelProvider -> Promise unit)
  (ms : list (string * ModelProvider)) : list (string * ModelProvider) :=
  prod_map id (withInit f) <$> ms.

Definition configWithInits (f : ModelProvider -> Promise unit)
  (config : RuntimeConfig) : RuntimeConfig :=
  mkRuntimeConfig (withInit f <$> modelProviders config)
    (memoryProvider config) (config_plugins config) (capabilityAliases config).

(** Two outcomes of [Runtime.init] that differ at most in the [init()]
    promises carried by the providers of the model manager. *)
Definition sameStartup (f : ModelProvider -> Promise unit)
  (o o' : outcome Runtime) : Prop :=
  match o, o' with
  | Returns rt, Returns rt' =>
      rt' = mkRuntime
              (set_models (withInits f (ModelManager.models (modelManager rt)))
                          (modelManager rt))
              (memoryManager rt) (pluginRegistry rt) (isRunning rt)
              (eventQueue rt) (currentContext rt) (heap rt) (clock rt)
              (schedule rt) (modelCalls rt) (trace rt)
  | Throws e, Throws e' => e = e'
  | Pending, Pending => True
  | _, _ => False
  end.

(** ** Properties of monadic code *)

(** [m] relates every state it starts from to the state it leaves,
    however it ends. *)
Definition respects {A} (R : Runtime -> Runtime -> Prop) (m : M Runtime A) : Prop :=
  forall s o s', m s = (o, s') -> R s s'.

(** [m] has finished, by returning or throwing, whenever it is observed. *)
Definition settles {A} (m : M Runtime A) : Prop :=
  forall s, (m s).1 ≠ Pending.

(** What calls from outside the loop do to the queue: they put events on
    it, or shift events from it. *)
Definition fromOutside (e : Event) : Prop :=
  match e with Enqueued _ | Shifted _ => True | _ => False end.

(** The trace has grown by events that satisfy [ok]; the queue has grown
    by the events enqueued among them and lost, at its front, the events
    shifted among them. *)
Definition grows (ok : Event -> Prop) (s s' : Runtime) : Prop :=
  exists es,
    trace s' = (trace s ++ es)%list /\
    Forall ok es /\
    (shiftedOf es ++ eventQueue s')%list
    = (eventQueue s ++ enqueuedOf es)%list.

(** What calls from outside the loop may change: the store, the clock, the
    running flag, and the queue and trace by events enqueued or
    shifted. *)
Record undisturbed (s s' : Runtime) : Prop := mkUndisturbed {
  undisturbed_modelManager : modelManager s' = modelManager s;
  undisturbed_memoryManager : memoryManager s' = memoryManager s;
  undisturbed_pluginRegistry : pluginRegistry s' = pluginRegistry s;
  undisturbed_schedule : schedule s' = schedule s;
  undisturbed_modelCalls : modelCalls s' = modelCalls s;
  undisturbed_currentContext : currentContext s' = currentContext s;
  undisturbed_heap : length (heap s) ≤ length (heap s');
  undisturbed_grows : grows fromOutside s s'
}.

(** The same, except that model requests may have been made. *)
Record quiet (s s' : Runtime) : Prop := mkQuiet {
  quiet_modelManager : modelManager s' = modelManager s;
  quiet_memoryManager : memoryManager s' = memoryManager s;
  quiet_pluginRegistry : pluginRegistry s' = pluginRegistry s;
  quiet_schedule : schedule s' = schedule s;
  quiet_modelCalls : modelCalls s ≤ modelCalls s';
  quiet_currentContext : currentContext s' = currentContext s;
  quiet_heap : length (heap s) ≤ length (heap s');
  quiet_grows : grows fromOutside s s'
}.

(** An event the processing of [r] may add to the trace: an enqueueing or
    a shift from outside, or the run of an executor for [r] while [r] is
    the current context. *)
Definition stepOf (r : ref) (e : Event) : Prop :=
  match e with
  | Enqueued _ | Shifted _ => True
  | Executed current context _ => current = Some r /\ context = r
  | _ => False
  end.

(** What the steps of the pipeline of event [r] may change, when [r] is
    the current context. *)
Definition stepping (r : ref) (s s' : Runtime) : Prop :=
  currentContext s = Some r ->
  pluginRegistry s' = pluginRegistry s /\
  currentContext s' = Some r /\
  grows (stepOf r) s s'.

(** What the processing of event [r] may change: from a state in which the
    slot is empty or holds [r], it adds steps of [r] to the trace and
    leaves the slot empty or holding [r]. *)
Definition within (r : ref) (s s' : Runtime) : Prop :=
  currentContext s = None \/ currentContext s = Some r ->
  pluginRegistry s' = pluginRegistry s /\
  (currentContext s' = None \/ currentContext s' = Some r) /\
  grows (stepOf r) s s'.

(** The queue discipline: the events taken from the queue, followed by
    those still in it, are the events put on it, in the order in which they
    were put. *)
Definition fifo (s : Runtime) : Prop :=
  (takenOf (trace s) ++ eventQueue s)%list = enqueuedOf (trace s).

(** The state between two iterations of the evaluation loop. *)
Definition betweenEvents (s : Runtime) : Prop :=
  fifo s /\ serial None (trace s) = Some None /\ currentContext s = None.

(** What holds whenever the runtime is observed: the queue discipline; the
    trace is that of one consumer; the slot is empty or holds the event
    being processed. *)
Definition oneAtATime (s : Runtime) : Prop :=
  fifo s /\
  exists owner,
    serial None (trace s) = Some owner /\
    (currentContext s = None \/ currentContext s = owner).

(** The state while the event [r] is being processed. *)
Definition inEvent (r : ref) (s : Runtime) : Prop :=
  fifo s /\ serial None (trace s) = Some (Some r) /\
  (currentContext s = None \/ currentContext s = Some r).

(** ** Further observations *)

(** The entry a plugin has in the registry's map. *)
Definition pluginEntry (p : Plugin) : string * Plugin := (plugin_id p, p).

(** The message of the registry's collision error. *)
Definition collisionMessage (id : string) (existing : list string) : string :=
  "Plugin ID collision: " +:+ id +:+ " is already registered." +:+ newline
  +:+ "Currently registered plugins: " +:+ String.concat ", " existing.

(** The message of the registry's lookup error. *)
Definition notFoundMessage (id : string) (available : list string) : string :=
  "Plugin ID " +:+ id +:+ " not found. Available plugins: "
  +:+ String.concat ", " available.

(** The pair by which [pushToContextChain] recognises an entry of the
    chain: its [pluginId] and its [action]. *)
Definition chainKey (item : ContextItem) : option JsValue * option JsValue :=
  (item !! "pluginId", item !! "action").

(** The first of the providers [ps] that lists capability [c]. *)
Definition firstSupplier (ps : list ModelProvider) (c : string)
  : option ModelProvider :=
  List.find (fun p => bool_decide (c ∈ capability_id <$> getCapabilities p)) ps.

(** What a request becomes once a capability has been chosen for it: the
    input is checked, the capability runs, its result is parsed. *)
Definition runCapability (capability : ModelCapability) (capabilityId : string)
  (now : nat) (input : string) (config : option OperationConfig)
  : result string :=
  match capability_input capability input with
  | Err e => Err ("Invalid input for capability " +:+ capabilityId +:+ ": " +:+ e)
  | Ok validatedInput =>
      match capability_execute capability now validatedInput config with
      | Err e => Err e
      | Ok result => capability_output capability result
      end
  end.

(** The model manager [mm] is the one [Runtime.init] builds from the
    providers [ps] and the alias groups [groups]. *)
Definition builtFrom (ps : list ModelProvider) (groups : list (list string))
  (mm : ModelManager.t) : Prop :=
  ModelManager.registerCapabilityAliases groups
    (ModelManager.registerModelProviders ps ModelManager.new)
  = (Returns tt, mm).

(** No default provider of the registry is the empty string. *)
Definition defaults_named (r : CapabilityRegistry.t) : Prop :=
  forall c d, CapabilityRegistry.getDefaultModelForCapability c r = Some d ->
              d ≠ EmptyString.

(** The runtime after the event object [event] has been put on the queue:
    the object is new in the store, its reference is last in the queue,
    and the enqueueing is the last event observed. *)
Definition withEnqueued (event : AgentContext) (rt : Runtime) : Runtime :=
  set_trace (trace rt ++ [Enqueued (length (heap rt))])%list
    (set_eventQueue (eventQueue rt ++ [length (heap rt)])%list
       (set_heap (heap rt ++ [event])%list rt)).

(** The steps whose executors were run, in the order of the runs. *)
Definition executedOf (t : list Event) : list PipelineStep :=
  omap (fun e => match e with Executed _ _ step => Some step | _ => None end) t.

(** What one step of a pipeline changes when the plan stays as it is: the
    run of its executor is observed; the model manager, the plugin
    registry and the current context stay. *)
Definition ran (step : PipelineStep) (s s' : Runtime) : Prop :=
  modelManager s' = modelManager s /\
  pluginRegistry s' = pluginRegistry s /\
  currentContext s' = currentContext s /\
  executedOf (trace s') = (executedOf (trace s) ++ [step])%list.

Section FurtherObservations.
Context `{Helpers}.

(** The model manager refuses every text-generation request made with
    [config], with the error [e]. *)
Definition refuses (mm : ModelManager.t) (config : option OperationConfig)
  (e : string) : Prop :=
  forall now input,
    ModelManager.executeCapability mm now TEXT_GENERATION_CAPABILITY input
      config None = Err e.

End FurtherObservations.

(** A runtime for worked examples: the time plugin is registered, no model
    provider is, and one event, holding the user message, is in the
    store. *)
Definition offlineRuntime : Runtime :=
  set_heap [mkContext [Demo.userMessage] (Some "conversation") None]
    (Runtime_new ModelManager.new Demo.memory
       (PluginRegistry.mk [("plugin-time", Demo.clockPlugin)]) (fun _ => [])).

(** A memory provider that cannot give the conversation history, and a
    runtime that uses it, with one event, holding the user message, in the
    queue. *)
Definition forgetfulMemory : MemoryManager :=
  mkMemory (Ok tt) (Ok tt)
    (fun _ _ _ => Err "memory unavailable") (fun _ _ _ => Ok "conversation")
    (fun _ _ _ _ _ _ => Ok tt) (fun _ _ _ _ _ => Ok tt).

Definition forgetfulRuntime : Runtime :=
  set_eventQueue [0]
    (set_heap [mkContext [Demo.userMessage] (Some "conversation") None]
       (Runtime_new ModelManager.new forgetfulMemory PluginRegistry.new
          (fun _ => []))).

(** A plugin whose one trigger throws on being started, and a runtime in
    which it is registered. *)
Definition jammedPlugin : Plugin :=
  mkPlugin "plugin-jammed" "Jammed" "Has a trigger that cannot start" [] []
    [mkTrigger "jammed_listener" (fun _ => ([], Err "port in use"))]
    (mkPromise 0 (Ok tt))
    (fun _ _ _ => ([], Ok (mkResult true None None))).

Definition jammedRuntime : Runtime :=
  Runtime_new ModelManager.new Demo.memory
    (PluginRegistry.mk [("plugin-jammed", jammedPlugin)]) (fun _ => []).

(** A modification that leaves the plan as it is. *)
Definition declinesToModify (modification : PipelineModification) : Prop :=
  shouldModify modification = false \/ modifiedSteps modification = None.

Section Collaborators.
Context `{Helpers}.

(** The model gives the plan [plan] and declines to modify it: every
    text-generation request made with the planning configuration is
    answered, with a text that reads as [plan] against the pipeline schema
    and that, against the modification schema, does not read or reads as a
    modification that changes nothing. *)
Definition plans (mm : ModelManager.t) (plan : list PipelineStep) : Prop :=
  forall now input,
    exists response,
      ModelManager.executeCapability mm now TEXT_GENERATION_CAPABILITY input
        planningConfig None = Ok response /\
      parseResponse PipelineSchema response = Ok plan /\
      match parseResponse PipelineModificationSchema response with
      | Ok modification => declinesToModify modification
      | Err _ => True
      end.

(** The memory provider gives the conversation history whenever it is
    asked. *)
Definition remembers (mem : MemoryManager) : Prop :=
  forall now user platform,
    exists history,
      getRecentConversationHistory mem now user platform = Ok history.

(** The generation template renders every context. *)
Definition renders : Prop :=
  forall pipelineContext,
    exists template, generatePipelineTemplate pipelineContext = Ok template.

(** With a model manager of which [keeps] holds, the evaluation of a
    modification never changes the plan: it throws, or it returns a
    modification that leaves the plan as it is. *)
Definition unmodifying (keeps : ModelManager.t -> Prop) : Prop :=
  forall context s o s',
    keeps (modelManager s) ->
    evaluatePipelineModification context s = (o, s') ->
    match o with
    | Returns modification => declinesToModify modification
    | Throws _ => True
    | Pending => False
    end.

End Collaborators.

(** A running runtime whose model always plans the time step, with the
    time plugin registered and one event, holding the user message, in the
    queue. *)
Definition readyRuntime : Runtime :=
  set_isRunning true
    (set_eventQueue [0]
       (set_heap [mkContext [Demo.userMessage] (Some "conversation") None]
          (Runtime_new
             (ModelManager.registerModelProviders [Demo.timeProvider]
                ModelManager.new)
             Demo.memory
             (PluginRegistry.mk [("plugin-time", Demo.clockPlugin)])
             (fun _ => [])))).

(** * Properties *)

(** ** Lists, maps and promises *)

Section JsMapFacts.
Context {V : Type}.
Implicit Types m : list (string * V).

Lemma map_get_set_eq m k v : map_get (map_set m k v) k = Some v.
Proof.
  induction m as [|[k' v'] m IH]; simpl.
  - by rewrite bool_decide_eq_true_2.
  - case_bool_decide; simpl.
    + by rewrite bool_decide_eq_true_2.
    + by rewrite bool_decide_eq_false_2.
Qed.

Lemma map_get_set_ne m k k' v :
  k ≠ k' -> map_get (map_set m k v) k' = map_get m k'.
Proof.
  intros Hne. induction m as [|[k0 v0] m IH]; simpl.
  - by rewrite bool_decide_eq_false_2.
  - case_bool_decide; simpl.
    + subst k0. by rewrite !bool_decide_eq_false_2.
    + case_bool_decide; [done | apply IH].
Qed.

Lemma map_set_fresh m k v :
  map_get m k = None -> map_set m k v = (m ++ [(k, v)])%list.
Proof.
  induction m as [|[k0 v0] m IH]; simpl; [done |].
  case_bool_decide; [done |]. intros Hm. by rewrite IH.
Qed.

End JsMapFacts.

Lemma first_rejection_None {A} (ps : list (Promise A)) :
  first_rejection ps = None <-> Forall (fun p => rejection p = None) ps.
Proof.
  unfold rejection. induction ps as [|p ps IH]; simpl.
  - split; [constructor | done].
  - destruct (settles_as p) eqn:Hp; simpl.
    + rewrite IH. split; [intros; constructor; [by rewrite Hp | done] |].
      by inversion 1.
    + split.
      * destruct (first_rejection ps) as [[t' e']|]; [case_bool_decide |]; done.
      * inversion 1 as [|? ? Hhd]. by rewrite Hp in Hhd.
Qed.

Lemma first_rejection_Some {A} (ps : list (Promise A)) t e :
  first_rejection ps = Some (t, e) ->
  (exists p, p ∈ ps /\ settles_as p = Err e /\ settles_at p = t) /\
  (forall q, q ∈ ps -> is_Some (rejection q) -> t ≤ settles_at q).
Proof.
  unfold rejection.
  revert t e. induction ps as [|p ps IH]; simpl; intros t e H; [done |].
  destruct (settles_as p) eqn:Hp.
  - destruct (IH _ _ H) as [(q & Hq & Hqe & Hqt) Hmin]. split.
    + exists q. by rewrite elem_of_cons; auto.
    + intros q' [->|Hin]%elem_of_cons Hq'; [| eauto].
      rewrite Hp in Hq'. by destruct Hq'.
  - destruct (first_rejection ps) as [[t' e']|] eqn:Hr.
    + destruct (IH _ _ eq_refl) as [(q & Hq & Hqe & Hqt) Hmin].
      case_bool_decide as Hle; inversion H; subst.
      * split; [exists p; by rewrite elem_of_cons; auto |].
        intros q' [->|Hin]%elem_of_cons Hq'; [lia |].
        specialize (Hmin _ Hin Hq'). lia.
      * split; [exists q; by rewrite elem_of_cons; auto |].
        intros q' [->|Hin]%elem_of_cons Hq'; [lia | eauto].
    + inversion H; subst. split; [exists p; by rewrite elem_of_cons; auto |].
      intros q' [->|Hin]%elem_of_cons Hq'; [lia |].
      apply first_rejection_None in Hr.
      rewrite Forall_forall in Hr. specialize (Hr _ Hin).
      unfold rejection in Hr. destruct (settles_as q'); [by destruct Hq' | done].
Qed.

Lemma findIndex_Some {A} (p : A -> bool) (l : list A) i :
  findIndex p l = Some i ->
  exists x, l !! i = Some x /\ p x = true /\
            forall j y, j < i -> l !! j = Some y -> p y = false.
Proof.
  revert i. induction l as [|a l IH]; simpl; intros i Hi; [done |].
  destruct (p a) eqn:Hpa.
  - inversion Hi; subst. exists a. repeat split; [done |]. lia.
  - destruct (findIndex p l) as [i'|] eqn:Hf; [| done].
    inversion Hi; subst. destruct (IH _ eq_refl) as (x & Hx & Hpx & Hmin).
    exists x. repeat split; [done.. |].
    intros [|j] y Hj Hy; simpl in Hy; [congruence |].
    apply (Hmin j); [lia | done].
Qed.

Lemma findIndex_None {A} (p : A -> bool) (l : list A) :
  findIndex p l = None <-> forall x, x ∈ l -> p x = false.
Proof.
  induction l as [|a l IH]; simpl.
  - split; [by intros _ x ?%elem_of_nil | done].
  - destruct (p a) eqn:Hpa.
    + split; [done |]. intros Hall.
      specialize (Hall a (list_elem_of_here _ _)). congruence.
    + destruct (findIndex p l) eqn:Hf; simpl.
      * split; [done |]. intros Hall.
        assert (Some n = None) as Hbad; [| done].
        apply IH. intros x Hx. apply Hall. by right.
      * split; [| done]. intros _ x [->|Hx]%elem_of_cons; [done |].
        by apply IH.
Qed.

(** ** The context chain *)

(** Field by field, [spread existing item] holds the value of [item] where
    [item] has the field and that of [existing] elsewhere. *)
Lemma spread_lookup (existing item : ContextItem) (k : string) :
  spread existing item !! k
  = match item !! k with Some v => Some v | None => existing !! k end.
Proof.
  unfold spread. rewrite lookup_union.
  destruct (item !! k), (existing !! k); done.
Qed.

(** Unfolding the monad. *)
Ltac unfold_monad :=
  unfold mbind, mret, M_bind, M_ret, result_bind, result_ret, bind, ret,
    throw, pending, get, gets, modify, await, lift_outcome, try_catch,
    try_finally, attempt in *.

Lemma chainOf_setChain rt r chain :
  r < length (heap rt) ->
  chainOf (setChain r chain rt).2 r = chain.
Proof.
  intros Hr. unfold chainOf, setChain. unfold_monad. simpl.
  rewrite list_lookup_total_alter. by rewrite decide_True.
Qed.

(** C10. Outside the processing of an event the runtime has no current
    context, and [pushToContextChain(item)] then returns normally and
    leaves every part of the runtime as it was: the item is dropped. *)
Theorem pushToContextChain_without_context (rt : Runtime) (item : ContextItem) :
  currentContext rt = None ->
  pushToContextChain item rt = (Returns tt, rt).
Proof.
  intros Hnone. unfold pushToContextChain. unfold_monad. by rewrite Hnone.
Qed.

Lemma pushToContextChain_without_context_witness :
  currentContext Demo.emptyRuntime = None /\
  pushToContextChain Demo.userMessage Demo.emptyRuntime
  = (Returns tt, Demo.emptyRuntime).
Proof.
  split; [reflexivity |].
  apply (pushToContextChain_without_context Demo.emptyRuntime Demo.userMessage).
  reflexivity.
Defined.

Lemma samePluginAction_true (item existing : ContextItem) :
  samePluginAction item existing = true <->
  existing !! "pluginId" = item !! "pluginId" /\
  existing !! "action" = item !! "action".
Proof.
  unfold samePluginAction.
  rewrite andb_true_iff, !bool_decide_eq_true. done.
Qed.

Lemma pushToContextChain_chain (rt : Runtime) (context : ref) (item : ContextItem) :
  currentContext rt = Some context -> context < length (heap rt) ->
  exists rt', pushToContextChain item rt = (Returns tt, rt') /\
    chainOf rt' context = mergeIntoChain (chainOf rt context) item.
Proof.
  intros Hcur Hlt. eexists. split.
  - unfold pushToContextChain, deref. unfold_monad. rewrite Hcur. simpl.
    reflexivity.
  - unfold chainOf. simpl. rewrite list_lookup_total_alter.
    by rewrite decide_True.
Qed.

(** C6. While an event is being processed, [pushToContextChain(item)]
    either merges or appends.  If some entry of the chain has the
    [pluginId] and [action] of the item, the first such entry is replaced,
    in place, by the merge in which every field of the item overwrites the
    entry's field of that name and the entry's other fields stay; the other
    entries and the length of the chain are unchanged.  If no entry has
    that pair, the item is appended and the chain is longer by one. *)
Theorem pushToContextChain_merges_or_appends
  (rt : Runtime) (context : ref) (item : ContextItem) :
  currentContext rt = Some context -> context < length (heap rt) ->
  exists rt', pushToContextChain item rt = (Returns tt, rt') /\
    let chain := chainOf rt context in
    let chain' := chainOf rt' context in
    ((exists existing, existing ∈ chain /\
        existing !! "pluginId" = item !! "pluginId" /\
        existing !! "action" = item !! "action") ->
     exists i existing merged,
       chain !! i = Some existing /\
       existing !! "pluginId" = item !! "pluginId" /\
       existing !! "action" = item !! "action" /\
       (forall j e, j < i -> chain !! j = Some e ->
          ~ (e !! "pluginId" = item !! "pluginId" /\
             e !! "action" = item !! "action")) /\
       chain' !! i = Some merged /\
       (forall k, merged !! k
                  = match item !! k with
                    | Some v => Some v
                    | None => existing !! k
                    end) /\
       (forall j, j ≠ i -> chain' !! j = chain !! j) /\
       length chain' = length chain) /\
    ((forall existing, existing ∈ chain ->
        ~ (existing !! "pluginId" = item !! "pluginId" /\
           existing !! "action" = item !! "action")) ->
     chain' = (chain ++ [item])%list /\ length chain' = S (length chain)).
Proof.
  intros Hcur Hlt.
  destruct (pushToContextChain_chain rt context item Hcur Hlt)
    as (rt' & Hrun & Hchain).
  exists rt'. split; [done |]. simpl. rewrite Hchain.
  unfold mergeIntoChain. split.
  - intros (existing & Hin & Hp & Ha).
    destruct (findIndex (samePluginAction item) (chainOf rt context))
      as [i|] eqn:Hfind.
    + destruct (findIndex_Some _ _ _ Hfind) as (x & Hx & Hsame & Hfirst).
      apply samePluginAction_true in Hsame as [Hxp Hxa].
      assert (i < length (chainOf rt context)) as Hi
        by (by eapply lookup_lt_Some).
      exists i, x, (spread x item). rewrite Hx. simpl.
      repeat split; try done.
      * intros j e Hj He Hboth. apply samePluginAction_true in Hboth.
        rewrite (Hfirst j e Hj He) in Hboth. done.
      * by apply list_lookup_insert_eq.
      * apply spread_lookup.
      * intros j Hj. by apply list_lookup_insert_ne.
      * apply length_insert.
    + exfalso. rewrite findIndex_None in Hfind.
      specialize (Hfind existing Hin).
      assert (samePluginAction item existing = true) as Htrue
        by (by apply samePluginAction_true).
      congruence.
  - intros Hnone.
    destruct (findIndex (samePluginAction item) (chainOf rt context))
      as [i|] eqn:Hfind.
    + exfalso. destruct (findIndex_Some _ _ _ Hfind) as (x & Hx & Hsame & _).
      apply samePluginAction_true in Hsame.
      apply (Hnone x); [| done]. by eapply list_elem_of_lookup_2.
    + split; [done |]. rewrite length_app. simpl. lia.
Qed.

Lemma pushToContextChain_merges_or_appends_witness :
  currentContext Demo.busyRuntime = Some 0 /\
  0 < length (heap Demo.busyRuntime) /\
  exists rt',
    pushToContextChain Demo.annotation Demo.busyRuntime = (Returns tt, rt') /\
    length (chainOf rt' 0) = 1.
Proof.
  assert (currentContext Demo.busyRuntime = Some 0) as Hcur by reflexivity.
  assert (0 < length (heap Demo.busyRuntime)) as Hlt by (simpl; lia).
  split; [exact Hcur |]. split; [exact Hlt |].
  destruct (pushToContextChain_merges_or_appends
              Demo.busyRuntime 0 Demo.annotation Hcur Hlt)
    as (rt' & Hrun & Hmerge & _).
  exists rt'. split; [exact Hrun |].
  destruct Hmerge as (i & existing & merged & _ & _ & _ & _ & _ & _ & _ & Hlen).
  - exists Demo.userMessage. split; [apply list_elem_of_here |].
    split; reflexivity.
  - exact Hlen.
Defined.

(** ** Splicing a modified continuation *)

Lemma slice_from_start {A} (l : list A) (n : nat) : slice l 0 n = take n l.
Proof. done. Qed.

(** C5. When a modification asks for a change ([shouldModify] true,
    [modifiedSteps] not null) after the step at index [i] of the pipeline,
    the pipeline that results has, at the indices [0..i], exactly the
    entries the pipeline had there, then the modified steps, and nothing
    else: the steps that were planned after index [i] are gone. *)
Theorem applyModification_splices
  (pipeline : list PipelineStep) (i : nat) (modification : PipelineModification)
  (steps : list PipelineStep) :
  shouldModify modification = true ->
  modifiedSteps modification = Some steps ->
  i < length pipeline ->
  let pipeline' := applyModification pipeline i modification in
  (forall j, j ≤ i -> pipeline' !! j = pipeline !! j) /\
  (forall k, pipeline' !! (i + 1 + k) = steps !! k) /\
  length pipeline' = i + 1 + length steps /\
  pipeline' = (take (i + 1) pipeline ++ steps)%list.
Proof.
  intros Hshould Hsteps Hi. unfold applyModification, splice.
  rewrite Hshould, Hsteps, slice_from_start. simpl.
  assert (length (take (i + 1) pipeline) = i + 1) as Hlen
    by (rewrite length_take; lia).
  repeat split.
  - intros j Hj. rewrite lookup_app_l by lia.
    apply lookup_take_lt. lia.
  - intros k. rewrite lookup_app_r by lia.
    f_equal. lia.
  - rewrite length_app. lia.
Qed.

Lemma applyModification_splices_witness :
  let pipeline := [Demo.timeStep; Demo.searchStep; Demo.replyStep] in
  let modification := mkModification true "answer directly" (Some [Demo.replyStep]) in
  shouldModify modification = true /\
  modifiedSteps modification = Some [Demo.replyStep] /\
  0 < length pipeline /\
  applyModification pipeline 0 modification = [Demo.timeStep; Demo.replyStep].
Proof.
  simpl. split; [reflexivity |]. split; [reflexivity |].
  assert (0 < 3) as Hlt by lia. split; [exact Hlt |].
  destruct (applyModification_splices
              [Demo.timeStep; Demo.searchStep; Demo.replyStep] 0
              (mkModification true "answer directly" (Some [Demo.replyStep]))
              [Demo.replyStep] eq_refl eq_refl Hlt)
    as (_ & _ & _ & Heq).
  exact Heq.
Defined.

(** ** Capabilities and their aliases *)

Lemma registry_has_registerCapability m c c' r :
  CapabilityRegistry.hasCapability c' (CapabilityRegistry.registerCapability m c r)
  = bool_decide (c = c') || CapabilityRegistry.hasCapability c' r.
Proof.
  unfold CapabilityRegistry.hasCapability, CapabilityRegistry.registerCapability.
  simpl. destruct (decide (c = c')) as [->|Hne].
  - rewrite lookup_insert_eq, (bool_decide_eq_true_2 (c' = c')) by done.
    by rewrite bool_decide_eq_true_2 by eauto.
  - rewrite lookup_insert_ne by done.
    by rewrite (bool_decide_eq_false_2 (c = c')).
Qed.

Lemma registry_has_registerProviderCapability m r cap c :
  CapabilityRegistry.hasCapability c (ModelManager.registerProviderCapability m r cap)
  = bool_decide (capability_id cap = c) || CapabilityRegistry.hasCapability c r.
Proof.
  unfold ModelManager.registerProviderCapability.
  destruct (negb _); [| apply registry_has_registerCapability].
  unfold CapabilityRegistry.setDefaultModelForCapability,
    CapabilityRegistry.hasCapability at 1. simpl.
  apply registry_has_registerCapability.
Qed.

Lemma registry_has_capabilities m caps r c :
  CapabilityRegistry.hasCapability c
    (foldl (ModelManager.registerProviderCapability m) r caps) = true <->
  CapabilityRegistry.hasCapability c r = true \/
  exists cap, cap ∈ caps /\ capability_id cap = c.
Proof.
  revert r. induction caps as [|cap caps IH]; intros r; simpl.
  - split; [auto |]. intros [?|(? & []%elem_of_nil & _)]. done.
  - rewrite IH, registry_has_registerProviderCapability, orb_true_iff,
      bool_decide_eq_true.
    split.
    + intros [[Hc|Hr]|(cap' & Hin & Hc)]; [| by left |].
      * right. exists cap. split; [apply list_elem_of_here | done].
      * right. exists cap'. split; [by apply list_elem_of_further | done].
    + intros [Hr|(cap' & [->|Hin]%elem_of_cons & Hc)]; [by left; right | |].
      * by left; left.
      * right. by exists cap'.
Qed.

Lemma registry_has_providers ps mm c :
  CapabilityRegistry.hasCapability c
    (ModelManager.capabilityRegistry (ModelManager.registerModelProviders ps mm))
  = true <->
  CapabilityRegistry.hasCapability c (ModelManager.capabilityRegistry mm) = true
  \/ supplies ps c.
Proof.
  unfold ModelManager.registerModelProviders, supplies.
  revert mm. induction ps as [|p ps IH]; intros mm; simpl.
  - split; [auto |]. intros [?|(? & ? & []%elem_of_nil & _)]. done.
  - rewrite IH. simpl. rewrite registry_has_capabilities. split.
    + intros [[Hr|(cap & Hin & Hc)]|(p' & cap & Hp & Hin & Hc)]; [by left | |].
      * right. exists p, cap. split; [apply list_elem_of_here | done].
      * right. exists p', cap. split; [by apply list_elem_of_further | done].
    + intros [Hr|(p' & cap & [->|Hp]%elem_of_cons & Hin & Hc)];
        [by left; left | |].
      * left. right. by exists cap.
      * right. by exists p', cap.
Qed.

Lemma aliases_of_registerModelProviders ps mm :
  ModelManager.capabilityAliases (ModelManager.registerModelProviders ps mm)
  = ModelManager.capabilityAliases mm.
Proof.
  unfold ModelManager.registerModelProviders.
  revert mm. induction ps as [|p ps IH]; intros mm; simpl; [done |].
  by rewrite IH.
Qed.

Lemma registerAlias_spec canonicalId alias mm o mm' :
  ModelManager.registerAlias canonicalId alias mm = (o, mm') ->
  ModelManager.capabilityRegistry mm' = ModelManager.capabilityRegistry mm /\
  ModelManager.models mm' = ModelManager.models mm /\
  (aliases_sound mm -> aliases_sound mm').
Proof.
  unfold ModelManager.registerAlias. unfold_monad.
  case_bool_decide; [| by intros [= <- <-]].
  destruct (CapabilityRegistry.hasCapability canonicalId _) eqn:Hhas; simpl;
    intros [= <- <-]; [| done].
  repeat split. intros Hsound k c. simpl.
  destruct (decide (alias = k)) as [->|Hne].
  - rewrite lookup_insert_eq. by intros [= <-].
  - rewrite lookup_insert_ne by done. apply Hsound.
Qed.

Lemma for_of_registerAlias_spec canonicalId aliases mm o mm' :
  for_of aliases (ModelManager.registerAlias canonicalId) mm = (o, mm') ->
  ModelManager.capabilityRegistry mm' = ModelManager.capabilityRegistry mm /\
  ModelManager.models mm' = ModelManager.models mm /\
  (aliases_sound mm -> aliases_sound mm').
Proof.
  revert mm. induction aliases as [|alias aliases IH]; intros mm; simpl.
  - unfold_monad. by intros [= <- <-].
  - unfold mbind, M_bind, bind.
    destruct (ModelManager.registerAlias canonicalId alias mm) as [o1 mm1] eqn:H1.
    apply registerAlias_spec in H1 as (Hr1 & Hm1 & Hs1).
    destruct o1; [| intros [= <- <-]; auto..].
    intros H2. apply IH in H2 as (Hr2 & Hm2 & Hs2).
    rewrite Hr2, Hm2. auto.
Qed.

Lemma registerCapabilityAliases_spec groups mm o mm' :
  ModelManager.registerCapabilityAliases groups mm = (o, mm') ->
  ModelManager.capabilityRegistry mm' = ModelManager.capabilityRegistry mm /\
  ModelManager.models mm' = ModelManager.models mm /\
  (aliases_sound mm -> aliases_sound mm').
Proof.
  unfold ModelManager.registerCapabilityAliases.
  revert mm. induction groups as [|group groups IH]; intros mm; simpl.
  - unfold_monad. by intros [= <- <-].
  - unfold mbind, M_bind, bind.
    destruct (ModelManager.registerAliasGroup group mm) as [o1 mm1] eqn:H1.
    assert (ModelManager.capabilityRegistry mm1 = ModelManager.capabilityRegistry mm /\
            ModelManager.models mm1 = ModelManager.models mm /\
            (aliases_sound mm -> aliases_sound mm1)) as (Hr1 & Hm1 & Hs1).
    { revert H1. unfold ModelManager.registerAliasGroup.
      unfold mbind at 1, M_bind at 1, bind at 1, get.
      destruct (ModelManager.canonicalIdOf mm group).
      - apply for_of_registerAlias_spec.
      - unfold_monad. by intros [= <- <-]. }
    destruct o1; [| intros [= <- <-]; auto..].
    intros H2. apply IH in H2 as (Hr2 & Hm2 & Hs2).
    rewrite Hr2, Hm2. auto.
Qed.

Lemma aliases_sound_new ps :
  aliases_sound (ModelManager.registerModelProviders ps ModelManager.new).
Proof.
  intros k c. rewrite aliases_of_registerModelProviders. simpl.
  by rewrite lookup_empty.
Qed.

(** A capability that a provider supplies is available under its own name
    in every manager built through the registration calls, whatever
    aliases have been recorded. *)
Lemma hasCapability_of_supplied mm c :
  aliases_sound mm ->
  CapabilityRegistry.hasCapability c (ModelManager.capabilityRegistry mm) = true ->
  ModelManager.hasCapability mm c = true.
Proof.
  intros Hsound Hc. unfold ModelManager.hasCapability, ModelManager.resolvedId.
  destruct (ModelManager.capabilityAliases mm !! c) as [c'|] eqn:Halias;
    simpl; [| done].
  case_bool_decide; [done |]. by eapply Hsound.
Qed.

(** C7, as the code has it. Take a manager built by registering providers
    and then alias groups.  If some provider supplies ["b"], none supplies
    ["a"], ["a"] is not yet the alias of anything, and ["b"] is not the
    empty string, then registering the group [["a","b"]] succeeds, ["a"]
    resolves to ["b"], and [hasCapability] is true of both. *)
Theorem registerCapabilityAliases_resolves
  (ps : list ModelProvider) (groups : list (list string))
  (mm : ModelManager.t) (a b : string) :
  ModelManager.registerCapabilityAliases groups
    (ModelManager.registerModelProviders ps ModelManager.new)
  = (Returns tt, mm) ->
  supplies ps b -> ~ supplies ps a ->
  ModelManager.capabilityAliases mm !! a = None ->
  b ≠ EmptyString ->
  exists mm',
    ModelManager.registerCapabilityAliases [[a; b]] mm = (Returns tt, mm') /\
    ModelManager.resolvedId mm' a = b /\
    ModelManager.hasCapability mm' a = true /\
    ModelManager.hasCapability mm' b = true /\
    ModelManager.hasCapability mm' a = ModelManager.hasCapability mm' b.
Proof.
  intros Hbuilt Hb Ha Hfresh Hne.
  apply registerCapabilityAliases_spec in Hbuilt as (Hreg & _ & Hsound).
  specialize (Hsound (aliases_sound_new ps)).
  assert (CapabilityRegistry.hasCapability b (ModelManager.capabilityRegistry mm)
          = true) as Hregb.
  { rewrite Hreg. apply registry_has_providers. by right. }
  assert (CapabilityRegistry.hasCapability a (ModelManager.capabilityRegistry mm)
          = false) as Hrega.
  { rewrite Hreg. apply not_true_is_false. intros Hhas.
    apply registry_has_providers in Hhas as [Hnew|Hsup]; [| done].
    unfold CapabilityRegistry.hasCapability in Hnew. simpl in Hnew.
    rewrite lookup_empty in Hnew.
    apply bool_decide_eq_true in Hnew. by destruct Hnew. }
  assert (ModelManager.hasCapability mm a = false) as Hmma.
  { unfold ModelManager.hasCapability, ModelManager.resolvedId.
    by rewrite Hfresh. }
  assert (ModelManager.hasCapability mm b = true) as Hmmb
    by (by apply hasCapability_of_supplied).
  assert (a ≠ b) as Hab by (intros ->; congruence).
  set (mm' := ModelManager.mk (ModelManager.models mm)
                (ModelManager.capabilityRegistry mm)
                (<[a := b]> (ModelManager.capabilityAliases mm))).
  assert (ModelManager.resolvedId mm' a = b) as Hres.
  { unfold ModelManager.resolvedId, mm'. simpl. rewrite lookup_insert_eq.
    simpl. by rewrite bool_decide_eq_false_2. }
  assert (ModelManager.hasCapability mm' a = true) as Ha'.
  { unfold ModelManager.hasCapability. by rewrite Hres. }
  assert (ModelManager.hasCapability mm' b = true) as Hb'.
  { revert Hmmb. unfold ModelManager.hasCapability, ModelManager.resolvedId, mm'.
    simpl. by rewrite lookup_insert_ne. }
  exists mm'. split; [| by rewrite Ha', Hb'].
  unfold ModelManager.registerCapabilityAliases,
    ModelManager.registerAliasGroup, ModelManager.canonicalIdOf. simpl.
  unfold mbind at 1, M_bind at 1, bind at 1.
  unfold mbind at 1, M_bind at 1, bind at 1, get.
  rewrite Hmma, Hmmb. simpl.
  unfold ModelManager.registerAlias.
  rewrite (bool_decide_eq_true_2 (a ≠ b)) by done.
  rewrite (bool_decide_eq_false_2 (b ≠ b)) by (intros Hbb; by apply Hbb).
  unfold_monad. by rewrite Hregb.
Qed.

Lemma registerCapabilityAliases_resolves_witness :
  let mm := ModelManager.registerModelProviders [Demo.textProvider]
              ModelManager.new in
  exists mm',
    ModelManager.registerCapabilityAliases
      [["text-generation"; "text-creation"]] mm = (Returns tt, mm') /\
    ModelManager.resolvedId mm' "text-generation" = "text-creation" /\
    ModelManager.hasCapability mm' "text-generation" = true.
Proof.
  destruct (registerCapabilityAliases_resolves
              [Demo.textProvider] []
              (ModelManager.registerModelProviders [Demo.textProvider]
                 ModelManager.new)
              "text-generation" "text-creation")
    as (mm' & Hrun & Hres & Ha & _).
  - reflexivity.
  - exists Demo.textProvider, (Demo.constantCapability "text-creation" "[]").
    split; [apply list_elem_of_here |]. split; [apply list_elem_of_here |].
    reflexivity.
  - intros (p & cap & Hp & Hcap & Hid).
    apply list_elem_of_singleton in Hp. subst p. simpl in Hcap.
    apply elem_of_cons in Hcap as [->|Hcap]; [discriminate Hid |].
    apply list_elem_of_singleton in Hcap. subst cap. discriminate Hid.
  - reflexivity.
  - discriminate.
  - exists mm'. auto.
Defined.

(** C7, as stated, fails when ["a"] is already an alias: with the groups
    [["text-generation","text-creation"]] and then
    [["text-generation","txt-gen"]], where the provider supplies
    ["text-creation"] and ["txt-gen"] and nobody supplies
    ["text-generation"], the second registration throws. *)
Lemma registerCapabilityAliases_second_group_counterexample :
  let mm0 := ModelManager.registerModelProviders [Demo.textProvider]
               ModelManager.new in
  let mm := (ModelManager.registerCapabilityAliases
               [["text-generation"; "text-creation"]] mm0).2 in
  CapabilityRegistry.hasCapability "txt-gen" (ModelManager.capabilityRegistry mm)
  = true /\
  CapabilityRegistry.hasCapability "text-generation"
    (ModelManager.capabilityRegistry mm) = false /\
  (ModelManager.registerCapabilityAliases
     [["text-generation"; "txt-gen"]] mm).1
  = Throws "Capability text-generation not found".
Proof. vm_compute. auto. Qed.

(** The empty string as the supplied capability: the alias is recorded and
    then ignored by every lookup, because [||] takes the empty string for
    absent. *)
Lemma registerCapabilityAliases_empty_target :
  let mm0 := ModelManager.registerModelProviders [Demo.namelessProvider]
               ModelManager.new in
  let mm := (ModelManager.registerCapabilityAliases
               [["text-generation"; EmptyString]] mm0).2 in
  ModelManager.capabilityAliases mm !! "text-generation" = Some EmptyString /\
  ModelManager.resolvedId mm "text-generation" = "text-generation" /\
  ModelManager.hasCapability mm "text-generation" = false /\
  ModelManager.hasCapability mm EmptyString = true.
Proof. vm_compute. auto. Qed.

(** ** Provider initialisation and health checks *)

Lemma initTask_fulfils p :
  settles_as (ModelManager.initTask p).1 = Ok tt.
Proof. unfold ModelManager.initTask. by destruct (settles_as (provider_init p)). Qed.

Lemma ModelManager_init_returns mm : (ModelManager.init mm).1 = Returns tt.
Proof.
  unfold ModelManager.init. simpl. unfold promise_all.
  assert (first_rejection ((ModelManager.initTask <$>
            map_values (ModelManager.models mm)).*1) = None) as ->; [| done].
  apply first_rejection_None. rewrite Forall_fmap, Forall_fmap.
  apply Forall_forall. intros p _. simpl. unfold rejection.
  by rewrite initTask_fulfils.
Qed.

Lemma ModelManager_init_logs mm p e :
  p ∈ map_values (ModelManager.models mm) ->
  settles_as (provider_init p) = Err e ->
  mkLog "error" ("model provider initialization failed for " +:+ dquote
                 +:+ provider_id p +:+ dquote)
  ∈ (ModelManager.init mm).2.
Proof.
  intros Hp He. unfold ModelManager.init. simpl.
  apply list_elem_of_fmap. exists (ModelManager.initTask p). split.
  - unfold ModelManager.initTask. by rewrite He.
  - by apply list_elem_of_fmap_2.
Qed.

Lemma healthTask_promise p :
  (ModelManager.healthTask p).1
  = mkPromise (settles_at (provider_checkHealth p))
              (settles_as (provider_checkHealth p)).
Proof.
  unfold ModelManager.healthTask.
  by destruct (settles_as (provider_checkHealth p)) as [[]|e].
Qed.

Lemma ModelManager_checkHealth_spec mm :
  match (ModelManager.checkHealth mm).1 with
  | Returns _ =>
      forall p, p ∈ map_values (ModelManager.models mm) ->
                rejection (provider_checkHealth p) = None
  | Throws e =>
      exists p, p ∈ map_values (ModelManager.models mm) /\
        settles_as (provider_checkHealth p) = Err e /\
        forall q, q ∈ map_values (ModelManager.models mm) ->
          is_Some (rejection (provider_checkHealth q)) ->
          settles_at (provider_checkHealth p) ≤ settles_at (provider_checkHealth q)
  | Pending => False
  end.
Proof.
  unfold ModelManager.checkHealth. simpl. unfold promise_all.
  set (ps := map_values (ModelManager.models mm)).
  destruct (first_rejection ((ModelManager.healthTask <$> ps).*1))
    as [[t e]|] eqn:Hfirst.
  - apply first_rejection_Some in Hfirst as [(pr & Hin & Has & Hat) Hmin].
    apply list_elem_of_fmap in Hin as ([pr' l] & -> & Hin).
    apply list_elem_of_fmap in Hin as (p & Hp & Hin).
    assert (pr' = (ModelManager.healthTask p).1) as -> by (by rewrite <- Hp).
    rewrite healthTask_promise in Has, Hat. simpl in Has, Hat.
    exists p. repeat split; [done.. |].
    intros q Hq Hrej. rewrite Hat.
    replace (settles_at (provider_checkHealth q))
      with (settles_at (ModelManager.healthTask q).1)
      by (by rewrite healthTask_promise).
    apply (Hmin ((ModelManager.healthTask q).1)).
    + apply list_elem_of_fmap. exists (ModelManager.healthTask q).
      split; [done |]. by apply list_elem_of_fmap_2.
    + by rewrite healthTask_promise.
  - apply first_rejection_None in Hfirst.
    rewrite Forall_fmap, Forall_fmap, Forall_forall in Hfirst.
    intros p Hp. specialize (Hfirst p Hp). simpl in Hfirst.
    by rewrite healthTask_promise in Hfirst.
Qed.

Lemma map_set_withInits f ms p :
  map_set (withInits f ms) (provider_id p) (withInit f p)
  = withInits f (map_set ms (provider_id p) p).
Proof.
  unfold withInits. induction ms as [|[k v] ms IH]; [done |].
  rewrite fmap_cons. cbn [prod_map fst snd id map_set].
  case_bool_decide; [done |].
  rewrite fmap_cons. cbn [prod_map fst snd id]. by rewrite IH.
Qed.

Lemma registerModelProviders_withInits f ps mm :
  ModelManager.registerModelProviders (withInit f <$> ps)
    (set_models (withInits f (ModelManager.models mm)) mm)
  = set_models
      (withInits f (ModelManager.models (ModelManager.registerModelProviders ps mm)))
      (ModelManager.registerModelProviders ps mm).
Proof.
  unfold ModelManager.registerModelProviders.
  revert mm. induction ps as [|p ps IH]; intros mm; simpl; [done |].
  rewrite <- IH. f_equal.
  unfold ModelManager.registerModelProvider, set_models.
  cbn [ModelManager.models ModelManager.capabilityRegistry
       ModelManager.capabilityAliases].
  change (provider_id (withInit f p)) with (provider_id p).
  change (getCapabilities (withInit f p)) with (getCapabilities p).
  by rewrite map_set_withInits.
Qed.

Lemma registerAlias_set_models ms canonicalId alias mm :
  ModelManager.registerAlias canonicalId alias (set_models ms mm)
  = let '(o, mm') := ModelManager.registerAlias canonicalId alias mm in
    (o, set_models ms mm').
Proof.
  unfold ModelManager.registerAlias. unfold_monad.
  case_bool_decide; [| done]. simpl.
  by destruct (CapabilityRegistry.hasCapability canonicalId _).
Qed.

Lemma for_of_registerAlias_set_models ms canonicalId aliases mm :
  for_of aliases (ModelManager.registerAlias canonicalId) (set_models ms mm)
  = let '(o, mm') := for_of aliases (ModelManager.registerAlias canonicalId) mm in
    (o, set_models ms mm').
Proof.
  revert mm. induction aliases as [|alias aliases IH]; intros mm; simpl; [done |].
  unfold mbind, M_bind, bind. rewrite registerAlias_set_models.
  destruct (ModelManager.registerAlias canonicalId alias mm) as [[[]|e|] mm1];
    [| done..].
  apply IH.
Qed.

Lemma hasCapability_set_models ms mm c :
  ModelManager.hasCapability (set_models ms mm) c = ModelManager.hasCapability mm c.
Proof. done. Qed.

Lemma registerCapabilityAliases_set_models ms groups mm :
  ModelManager.registerCapabilityAliases groups (set_models ms mm)
  = let '(o, mm') := ModelManager.registerCapabilityAliases groups mm in
    (o, set_models ms mm').
Proof.
  unfold ModelManager.registerCapabilityAliases.
  revert mm. induction groups as [|group groups IH]; intros mm; simpl; [done |].
  unfold mbind, M_bind, bind.
  assert (ModelManager.registerAliasGroup group (set_models ms mm)
          = let '(o, mm') := ModelManager.registerAliasGroup group mm in
            (o, set_models ms mm')) as ->.
  { unfold ModelManager.registerAliasGroup.
    change (get ≫= ?k) with (fun s : ModelManager.t => k s s).
    cbv beta.
    change (ModelManager.canonicalIdOf (set_models ms mm) group)
      with (ModelManager.canonicalIdOf mm group).
    destruct (ModelManager.canonicalIdOf mm group); [| done].
    apply for_of_registerAlias_set_models. }
  destruct (ModelManager.registerAliasGroup group mm) as [[[]|e|] mm1];
    [| done..].
  apply IH.
Qed.

Lemma checkHealth_withInits f mm :
  (ModelManager.checkHealth
     (set_models (withInits f (ModelManager.models mm)) mm)).1
  = (ModelManager.checkHealth mm).1.
Proof.
  unfold ModelManager.checkHealth. simpl.
  unfold map_values, withInits. rewrite <- !list_fmap_compose.
  assert (fst ∘ ModelManager.healthTask ∘ snd ∘ prod_map id (withInit f)
            <$> ModelManager.models mm
          = fst ∘ ModelManager.healthTask ∘ snd <$> ModelManager.models mm)
    as ->; [| done].
  apply list_fmap_ext. by intros i [k p] _.
Qed.

Section Startup.
Context `{Helpers}.


Lemma missingRequired_set_models ms mm :
  missingRequired (set_models ms mm) = missingRequired mm.
Proof. done. Qed.

Lemma missingForPlugins_set_models ms mm ps :
  missingForPlugins (set_models ms mm) ps = missingForPlugins mm ps.
Proof. induction ps as [|p ps IH]; simpl; [done |]. by rewrite IH. Qed.

(** Whatever the providers' [init()] calls do, [Runtime.init] ends the
    same way. *)
Lemma Runtime_init_ignores_provider_init f arrivals config :
  sameStartup f (Runtime_init arrivals config)
                (Runtime_init arrivals (configWithInits f config)).
Proof.
  unfold Runtime_init, configWithInits, run_on.
  cbn [modelProviders memoryProvider config_plugins capabilityAliases].
  change ModelManager.new
    with (set_models (withInits f (ModelManager.models ModelManager.new))
                     ModelManager.new) at 2.
  rewrite registerModelProviders_withInits, registerCapabilityAliases_set_models.
  destruct (ModelManager.registerCapabilityAliases _ _) as [[[]|e|] mm] eqn:Hmm;
    cbv beta iota; [| done..].
  apply registerCapabilityAliases_spec in Hmm as (_ & Hmodels & _).
  rewrite <- Hmodels.
  rewrite !ModelManager_init_returns, checkHealth_withInits.
  destruct (ModelManager.checkHealth mm).1; cbv beta iota; [| done..].
  rewrite missingRequired_set_models.
  destruct (missingRequired mm); cbv beta iota; [done |].
  destruct (memory_init _); cbv beta iota; [| done].
  destruct (memory_checkHealth _); cbv beta iota; [| done].
  destruct (PluginRegistry.registerPlugins _ _) as [[[]|e|] reg];
    cbv beta iota; [| done..].
  destruct (PluginRegistry.init reg); cbv beta iota; [| done..].
  rewrite missingForPlugins_set_models.
  destruct (missingForPlugins mm _) as [[p c]|]; cbv beta iota; done.
Qed.

End Startup.

Section StartupClaims.
Context `{Helpers}.

(** C9. [ModelManager.init()] returns normally whatever the providers'
    [init()] calls do: a rejection is caught and logged as an error, not
    thrown again.  [ModelManager.checkHealth()] returns normally only if
    every provider's health check passes; otherwise it throws the failure
    of the health check that fails first.  So the outcome of
    [Runtime.init] does not depend on how the providers' [init()] calls
    settle. *)
Theorem ModelManager_init_never_aborts_startup (mm : ModelManager.t) :
  (ModelManager.init mm).1 = Returns tt /\
  (forall p e, p ∈ map_values (ModelManager.models mm) ->
     settles_as (provider_init p) = Err e ->
     mkLog "error" ("model provider initialization failed for " +:+ dquote
                    +:+ provider_id p +:+ dquote)
     ∈ (ModelManager.init mm).2) /\
  match (ModelManager.checkHealth mm).1 with
  | Returns _ =>
      forall p, p ∈ map_values (ModelManager.models mm) ->
                rejection (provider_checkHealth p) = None
  | Throws e =>
      exists p, p ∈ map_values (ModelManager.models mm) /\
        settles_as (provider_checkHealth p) = Err e /\
        forall q, q ∈ map_values (ModelManager.models mm) ->
          is_Some (rejection (provider_checkHealth q)) ->
          settles_at (provider_checkHealth p) ≤ settles_at (provider_checkHealth q)
  | Pending => False
  end /\
  (forall f arrivals config,
     sameStartup f (Runtime_init arrivals config)
                   (Runtime_init arrivals (configWithInits f config))).
Proof.
  split; [apply ModelManager_init_returns |].
  split; [apply ModelManager_init_logs |].
  split; [apply ModelManager_checkHealth_spec |].
  apply Runtime_init_ignores_provider_init.
Qed.

Lemma for_of_registerPlugin_plugins ps reg reg' :
  PluginRegistry.registerPlugins ps reg = (Returns tt, reg') ->
  PluginRegistry.getAllPlugins reg' = (PluginRegistry.getAllPlugins reg ++ ps)%list.
Proof.
  unfold PluginRegistry.registerPlugins, PluginRegistry.getAllPlugins.
  revert reg. induction ps as [|p ps IH]; intros reg; simpl.
  - unfold_monad. intros [= <-]. by rewrite app_nil_r.
  - unfold mbind at 1, M_bind at 1, bind at 1.
    destruct (PluginRegistry.registerPlugin p reg) as [o reg1] eqn:Hp.
    destruct o as [[]|e|]; [| done..].
    intros Hrest. rewrite (IH _ Hrest).
    revert Hp. unfold PluginRegistry.registerPlugin. unfold_monad.
    case_bool_decide; [done |].
    unfold map_has.
    destruct (map_get (PluginRegistry.plugins reg) (plugin_id p)) eqn:Hget;
      [done |].
    intros [= <-]. simpl. rewrite map_set_fresh by done.
    unfold map_values. rewrite fmap_app. simpl. by rewrite <- app_assoc.
Qed.

Lemma for_of_never_pending {S A} (body : A -> M S unit) (xs : list A) (s : S) :
  (forall x s, (body x s).1 ≠ Pending) -> (for_of xs body s).1 ≠ Pending.
Proof.
  intros Hbody. revert s. induction xs as [|x xs IH]; intros s; simpl; [done |].
  unfold mbind, M_bind, bind.
  specialize (Hbody x s). destruct (body x s) as [[[]|e|] s1]; simpl in *;
    [apply IH | done | done].
Qed.

Lemma registerCapabilityAliases_never_pending groups mm :
  (ModelManager.registerCapabilityAliases groups mm).1 ≠ Pending.
Proof.
  apply for_of_never_pending. intros group s.
  unfold ModelManager.registerAliasGroup.
  change (get ≫= ?k) with (fun s : ModelManager.t => k s s). cbv beta.
  destruct (ModelManager.canonicalIdOf s group); [| done].
  apply for_of_never_pending. intros alias s'.
  unfold ModelManager.registerAlias. unfold_monad.
  case_bool_decide; [| done].
  by destruct (negb _).
Qed.

Lemma registerPlugins_never_pending ps reg :
  (PluginRegistry.registerPlugins ps reg).1 ≠ Pending.
Proof.
  apply for_of_never_pending. intros p s.
  unfold PluginRegistry.registerPlugin. unfold_monad.
  case_bool_decide; [done |]. by destruct (map_has _ _).
Qed.

Lemma missingForPlugins_found mm ps plugin capability :
  plugin ∈ ps -> capability ∈ requiredCapabilities plugin ->
  ModelManager.hasCapability mm capability = false ->
  is_Some (missingForPlugins mm ps).
Proof.
  intros Hp Hc Hhas. induction ps as [|p ps IH]; [by apply elem_of_nil in Hp |].
  simpl. destruct (missingForPlugin mm p) eqn:Hmiss; [eauto |].
  apply elem_of_cons in Hp as [->|Hp]; [| by apply IH].
  unfold missingForPlugin in Hmiss.
  assert (In capability (requiredCapabilities p)) as Hin
    by (by apply list_elem_of_In).
  pose proof (find_none _ _ Hmiss capability Hin) as Hneg.
  simpl in Hneg. rewrite Hhas in Hneg. done.
Qed.

(** C8. [Runtime.init] throws, and so returns no runtime, whenever the
    model manager it builds has no provider for the text-generation
    capability (looked up through the aliases), and whenever one of the
    plugins to register lists a required capability that the model manager
    does not have. *)
Theorem Runtime_init_requires_capabilities
  (arrivals : nat -> list ExternalCall) (config : RuntimeConfig) :
  (forall mm,
     ModelManager.registerCapabilityAliases (capabilityAliases config)
       (ModelManager.registerModelProviders (modelProviders config)
          ModelManager.new) = (Returns tt, mm) ->
     ModelManager.hasCapability mm TEXT_GENERATION_CAPABILITY = false \/
     exists plugin capability,
       plugin ∈ config_plugins config /\
       capability ∈ requiredCapabilities plugin /\
       ModelManager.hasCapability mm capability = false) ->
  exists e, Runtime_init arrivals config = Throws e.
Proof.
  intros Hmissing. unfold Runtime_init, run_on.
  pose proof (registerCapabilityAliases_never_pending (capabilityAliases config)
    (ModelManager.registerModelProviders (modelProviders config)
       ModelManager.new)) as Hnp.
  destruct (ModelManager.registerCapabilityAliases _ _) as [[[]|e|] mm];
    cbv beta iota; [| eauto | done].
  specialize (Hmissing mm eq_refl).
  rewrite ModelManager_init_returns.
  pose proof (ModelManager_checkHealth_spec mm) as Hhealth.
  destruct (ModelManager.checkHealth mm).1; cbv beta iota; [| eauto | done].
  unfold missingRequired, REQUIRED_CAPABILITIES. simpl.
  destruct (ModelManager.hasCapability mm TEXT_GENERATION_CAPABILITY) eqn:Htext;
    simpl; [| eauto].
  destruct Hmissing as [? | (plugin & capability & Hp & Hc & Hhas)]; [done |].
  destruct (memory_init _); cbv beta iota; [| eauto].
  destruct (memory_checkHealth _); cbv beta iota; [| eauto].
  pose proof (registerPlugins_never_pending (config_plugins config)
                PluginRegistry.new) as Hnp'.
  destruct (PluginRegistry.registerPlugins _ _) as [[[]|e|] reg] eqn:Hreg;
    cbv beta iota; [| eauto | done].
  apply for_of_registerPlugin_plugins in Hreg. simpl in Hreg.
  unfold PluginRegistry.init, promise_all.
  destruct (first_rejection _) as [[t e]|]; [eauto |].
  rewrite Hreg.
  destruct (missingForPlugins_found mm _ _ _ Hp Hc Hhas) as [[p c] ->].
  eauto.
Qed.

End StartupClaims.

Lemma ModelManager_init_never_aborts_startup_witness :
  let mm := ModelManager.registerModelProviders [Demo.coldProvider]
              ModelManager.new in
  (ModelManager.init mm).1 = Returns tt /\
  mkLog "error" ("model provider initialization failed for " +:+ dquote
                 +:+ "local" +:+ dquote)
  ∈ (ModelManager.init mm).2.
Proof.
  destruct (@ModelManager_init_never_aborts_startup Demo.helpers
              (ModelManager.registerModelProviders [Demo.coldProvider]
                 ModelManager.new)) as (Hret & Hlog & _).
  split; [exact Hret |].
  apply (Hlog Demo.coldProvider "model file missing").
  - apply list_elem_of_here.
  - reflexivity.
Defined.

Lemma Runtime_init_requires_capabilities_witness :
  exists e,
    @Runtime_init Demo.helpers (fun _ => [])
      (mkRuntimeConfig [Demo.textProvider] Demo.memory [Demo.painter]
         [["text-generation"; "text-creation"]]) = Throws e.
Proof.
  apply (@Runtime_init_requires_capabilities Demo.helpers).
  intros mm Hmm. vm_compute in Hmm. injection Hmm as <-.
  right. exists Demo.painter, "image-generation".
  split; [apply list_elem_of_here |]. split; [apply list_elem_of_here |].
  reflexivity.
Defined.

(** ** Reasoning about monadic code *)

Section Respects.
Context (R : Runtime -> Runtime -> Prop) `{!PreOrder R}.

Lemma respects_ret {A} (a : A) : respects R (mret a).
Proof. intros s o s' [= <- <-]. reflexivity. Qed.

Lemma respects_throw {A} e : respects R (@throw Runtime A e).
Proof. intros s o s' [= <- <-]. reflexivity. Qed.

Lemma respects_pending {A} : respects R (@pending Runtime A).
Proof. intros s o s' [= <- <-]. reflexivity. Qed.

Lemma respects_get : respects R get.
Proof. intros s o s' [= <- <-]. reflexivity. Qed.

Lemma respects_gets {A} (f : Runtime -> A) : respects R (gets f).
Proof. intros s o s' [= <- <-]. reflexivity. Qed.

Lemma respects_await {A} (p : result A) : respects R (await p).
Proof. destruct p; intros s o s' [= <- <-]; reflexivity. Qed.

Lemma respects_lift_outcome {A} (x : outcome A) : respects R (lift_outcome x).
Proof. intros s o s' [= <- <-]. reflexivity. Qed.

Lemma respects_modify f : (forall s, R s (f s)) -> respects R (modify f).
Proof. intros Hf s o s' [= <- <-]. apply Hf. Qed.

Lemma respects_bind {A B} (m : M Runtime A) (k : A -> M Runtime B) :
  respects R m -> (forall a, respects R (k a)) -> respects R (m ≫= k).
Proof.
  intros Hm Hk s o s'. unfold mbind, M_bind, bind.
  destruct (m s) as [[a|e|] s1] eqn:Hms; specialize (Hm _ _ _ Hms).
  - intros Hks. etrans; [exact Hm |]. by eapply Hk.
  - by intros [= <- <-].
  - by intros [= <- <-].
Qed.

Lemma respects_try_catch {A} (m : M Runtime A) (h : string -> M Runtime A) :
  respects R m -> (forall e, respects R (h e)) -> respects R (try_catch m h).
Proof.
  intros Hm Hh s o s'. unfold try_catch.
  destruct (m s) as [[a|e|] s1] eqn:Hms; specialize (Hm _ _ _ Hms).
  - by intros [= <- <-].
  - intros Hhs. etrans; [exact Hm |]. by eapply Hh.
  - by intros [= <- <-].
Qed.

Lemma respects_try_finally {A} (m : M Runtime A) (f : M Runtime unit) :
  respects R m -> respects R f -> respects R (try_finally m f).
Proof.
  intros Hm Hf s o s'. unfold try_finally.
  destruct (m s) as [[a|e|] s1] eqn:Hms; specialize (Hm _ _ _ Hms).
  - destruct (f s1) as [[[]|e'|] s2] eqn:Hfs; specialize (Hf _ _ _ Hfs);
      intros [= <- <-]; by etrans.
  - destruct (f s1) as [[[]|e'|] s2] eqn:Hfs; specialize (Hf _ _ _ Hfs);
      intros [= <- <-]; by etrans.
  - by intros [= <- <-].
Qed.

Lemma respects_attempt {A} (m : M Runtime A) :
  respects R m -> respects R (attempt m).
Proof.
  intros Hm s o s'. unfold attempt.
  destruct (m s) as [[a|e|] s1] eqn:Hms; specialize (Hm _ _ _ Hms);
    by intros [= <- <-].
Qed.

Lemma respects_for_of {A} (xs : list A) (body : A -> M Runtime unit) :
  (forall x, respects R (body x)) -> respects R (for_of xs body).
Proof.
  intros Hbody. induction xs as [|x xs IH]; simpl.
  - apply respects_ret.
  - apply respects_bind; [apply Hbody | intros _; apply IH].
Qed.

End Respects.

Lemma respects_weaken {A} (R R' : Runtime -> Runtime -> Prop) (m : M Runtime A) :
  (forall s s', R s s' -> R' s s') -> respects R m -> respects R' m.
Proof. intros Hsub Hm s o s' Hrun. apply Hsub. by eapply Hm. Qed.

Lemma settles_ret {A} (a : A) : settles (mret a).
Proof. by intros s. Qed.

Lemma settles_throw {A} e : settles (@throw Runtime A e).
Proof. by intros s. Qed.

Lemma settles_get : settles get.
Proof. by intros s. Qed.

Lemma settles_gets {A} (f : Runtime -> A) : settles (gets f).
Proof. by intros s. Qed.

Lemma settles_modify f : settles (modify f).
Proof. by intros s. Qed.

Lemma settles_await {A} (p : result A) : settles (await p).
Proof. by destruct p; intros s. Qed.

Lemma settles_bind {A B} (m : M Runtime A) (k : A -> M Runtime B) :
  settles m -> (forall a, settles (k a)) -> settles (m ≫= k).
Proof.
  intros Hm Hk s. unfold mbind, M_bind, bind. specialize (Hm s).
  destruct (m s) as [[a|e|] s1]; simpl in *; [apply Hk | done | done].
Qed.

Lemma settles_try_catch {A} (m : M Runtime A) (h : string -> M Runtime A) :
  settles m -> (forall e, settles (h e)) -> settles (try_catch m h).
Proof.
  intros Hm Hh s. unfold try_catch. specialize (Hm s).
  destruct (m s) as [[a|e|] s1]; simpl in *; [done | apply Hh | done].
Qed.

Lemma settles_attempt {A} (m : M Runtime A) : settles m -> settles (attempt m).
Proof.
  intros Hm s. unfold attempt. specialize (Hm s).
  destruct (m s) as [[a|e|] s1]; simpl in *; done.
Qed.

Lemma settles_for_of {A} (xs : list A) (body : A -> M Runtime unit) :
  (forall x, settles (body x)) -> settles (for_of xs body).
Proof.
  intros Hbody. induction xs as [|x xs IH]; simpl.
  - apply settles_ret.
  - apply settles_bind; [apply Hbody | intros _; apply IH].
Qed.

Create HintDb runtime discriminated.

(** Taking a monadic term apart. *)
Ltac respects_step :=
  lazymatch goal with
  | |- PreOrder _ => apply _
  | |- respects _ (mret _) => apply respects_ret
  | |- respects _ (throw _) => apply respects_throw
  | |- respects _ pending => apply respects_pending
  | |- respects _ get => apply respects_get
  | |- respects _ (gets _) => apply respects_gets
  | |- respects _ (await _) => apply respects_await
  | |- respects _ (lift_outcome _) => apply respects_lift_outcome
  | |- respects _ (_ ≫= _) => apply respects_bind; [.. | intros ?]
  | |- respects _ (try_catch _ _) => apply respects_try_catch; [.. | intros ?]
  | |- respects _ (try_finally _ _) => apply respects_try_finally
  | |- respects _ (attempt _) => apply respects_attempt
  | |- respects _ (for_of _ _) => apply respects_for_of; [.. | intros ?]
  | |- respects _ (match ?x with _ => _ end) => destruct x
  | |- respects _ (let '(_, _) := ?x in _) => destruct x
  | |- respects _ _ => solve [eauto with runtime typeclass_instances]
  end.

Ltac settles_step :=
  lazymatch goal with
  | |- settles (mret _) => apply settles_ret
  | |- settles (throw _) => apply settles_throw
  | |- settles get => apply settles_get
  | |- settles (gets _) => apply settles_gets
  | |- settles (modify _) => apply settles_modify
  | |- settles (await _) => apply settles_await
  | |- settles (_ ≫= _) => apply settles_bind; [| intros ?]
  | |- settles (try_catch _ _) => apply settles_try_catch; [| intros ?]
  | |- settles (attempt _) => apply settles_attempt
  | |- settles (for_of _ _) => apply settles_for_of; intros ?
  | |- settles (match ?x with _ => _ end) => destruct x
  | |- settles (let '(_, _) := ?x in _) => destruct x
  | |- settles _ => solve [eauto with runtime]
  end.

(** ** What the runtime's operations leave alone *)

Lemma enqueuedOf_app t1 t2 :
  enqueuedOf (t1 ++ t2) = (enqueuedOf t1 ++ enqueuedOf t2)%list.
Proof. unfold enqueuedOf. apply omap_app. Qed.

Lemma dequeuedOf_app t1 t2 :
  dequeuedOf (t1 ++ t2) = (dequeuedOf t1 ++ dequeuedOf t2)%list.
Proof. unfold dequeuedOf. apply omap_app. Qed.

Lemma shiftedOf_app t1 t2 :
  shiftedOf (t1 ++ t2) = (shiftedOf t1 ++ shiftedOf t2)%list.
Proof. unfold shiftedOf. apply omap_app. Qed.

Lemma takenOf_app t1 t2 :
  takenOf (t1 ++ t2) = (takenOf t1 ++ takenOf t2)%list.
Proof. unfold takenOf. apply omap_app. Qed.

Lemma grows_refl ok s : grows ok s s.
Proof. exists []. by rewrite !app_nil_r. Qed.

Lemma grows_trans ok s1 s2 s3 : grows ok s1 s2 -> grows ok s2 s3 -> grows ok s1 s3.
Proof.
  intros (es1 & Ht1 & Hok1 & Hq1) (es2 & Ht2 & Hok2 & Hq2).
  exists (es1 ++ es2)%list. split; [| split].
  - by rewrite Ht2, Ht1, app_assoc.
  - by apply Forall_app.
  - by rewrite shiftedOf_app, <- app_assoc, Hq2, app_assoc, Hq1,
      enqueuedOf_app, app_assoc.
Qed.

Lemma grows_mono (ok ok' : Event -> Prop) s s' :
  (forall e, ok e -> ok' e) -> grows ok s s' -> grows ok' s s'.
Proof.
  intros Hsub (es & Ht & Hok & Hq). exists es. split; [done |]. split; [| done].
  eapply Forall_impl; eauto.
Qed.

#[local] Instance undisturbed_preorder : PreOrder undisturbed.
Proof.
  split.
  - intros s. split; try done. apply grows_refl.
  - intros s1 s2 s3 [] []. split; try congruence; [lia |].
    by eapply grows_trans.
Qed.

#[local] Instance quiet_preorder : PreOrder quiet.
Proof.
  split.
  - intros s. split; try done. apply grows_refl.
  - intros s1 s2 s3 [] []. split; try congruence; [lia | lia |].
    by eapply grows_trans.
Qed.

#[local] Instance stepping_preorder r : PreOrder (stepping r).
Proof.
  split.
  - intros s Hcur. repeat split; [done |]. apply grows_refl.
  - intros s1 s2 s3 H12 H23 Hcur.
    destruct (H12 Hcur) as (Hp1 & Hc1 & Hg1).
    destruct (H23 Hc1) as (Hp2 & Hc2 & Hg2).
    repeat split; [congruence | done |]. by eapply grows_trans.
Qed.

Lemma undisturbed_quiet s s' : undisturbed s s' -> quiet s s'.
Proof. intros []. split; try done. lia. Qed.

Lemma quiet_stepping r s s' : quiet s s' -> stepping r s s'.
Proof.
  intros [] Hcur. repeat split; [done | congruence |].
  eapply grows_mono; [| done]. by intros [].
Qed.

(** A change of the store, the clock or the running flag alone. *)
Lemma undisturbed_fields s s' :
  modelManager s' = modelManager s -> memoryManager s' = memoryManager s ->
  pluginRegistry s' = pluginRegistry s -> schedule s' = schedule s ->
  modelCalls s' = modelCalls s -> currentContext s' = currentContext s ->
  length (heap s) ≤ length (heap s') ->
  trace s' = trace s -> eventQueue s' = eventQueue s ->
  undisturbed s s'.
Proof.
  intros. split; try done. exists []. by rewrite !app_nil_r.
Qed.

Lemma respects_deref R `{!PreOrder R} r : respects R (deref r).
Proof. by apply respects_gets. Qed.

Lemma respects_Date_now R `{!PreOrder R} : respects R Date_now.
Proof. by apply respects_gets. Qed.

Lemma undisturbed_alloc c : respects undisturbed (alloc c).
Proof.
  intros s o s'. unfold alloc. unfold_monad. intros [= <- <-].
  apply undisturbed_fields; try done. simpl. rewrite length_app. lia.
Qed.

Lemma undisturbed_setChain r chain : respects undisturbed (setChain r chain).
Proof.
  intros s o s'. unfold setChain. unfold_monad. intros [= <- <-].
  apply undisturbed_fields; try done. simpl. by rewrite length_alter.
Qed.

Lemma undisturbed_enqueue r : respects undisturbed (enqueue r).
Proof.
  intros s o s'. unfold enqueue, emit. unfold_monad. intros [= <- <-].
  split; try done. exists [Enqueued r]. repeat split. by constructor.
Qed.

#[local] Hint Resolve respects_deref respects_Date_now undisturbed_alloc
  undisturbed_setChain undisturbed_enqueue : runtime.

Lemma undisturbed_chainPush r item : respects undisturbed (chainPush r item).
Proof. unfold chainPush. repeat respects_step. Qed.

Lemma undisturbed_pushToContextChain item :
  respects undisturbed (pushToContextChain item).
Proof. unfold pushToContextChain. repeat respects_step. Qed.

Lemma undisturbed_pushContext context : respects undisturbed (pushContext context).
Proof. unfold pushContext. repeat respects_step. Qed.

Lemma undisturbed_stop : respects undisturbed stop.
Proof.
  unfold stop. repeat respects_step.
  apply respects_modify. intros s. by apply undisturbed_fields.
Qed.

#[local] Hint Resolve undisturbed_chainPush undisturbed_pushToContextChain
  undisturbed_pushContext undisturbed_stop : runtime.

Lemma settles_deref r : settles (deref r).
Proof. apply settles_gets. Qed.

Lemma settles_Date_now : settles Date_now.
Proof. apply settles_gets. Qed.

Lemma settles_setChain r chain : settles (setChain r chain).
Proof. apply settles_modify. Qed.

Lemma settles_emit e : settles (emit e).
Proof. apply settles_modify. Qed.

#[local] Hint Resolve settles_deref settles_Date_now settles_setChain
  settles_emit : runtime.

Lemma settles_alloc c : settles (alloc c).
Proof. unfold alloc. repeat settles_step. Qed.

Lemma settles_chainPush r item : settles (chainPush r item).
Proof. unfold chainPush. repeat settles_step. Qed.

Lemma settles_enqueue r : settles (enqueue r).
Proof. unfold enqueue. repeat settles_step. Qed.

#[local] Hint Resolve settles_alloc settles_chainPush settles_enqueue : runtime.

Lemma settles_pushToContextChain item : settles (pushToContextChain item).
Proof. unfold pushToContextChain. repeat settles_step. Qed.

Lemma settles_pushContext context : settles (pushContext context).
Proof. unfold pushContext. repeat settles_step. Qed.

Lemma settles_stop : settles stop.
Proof. unfold stop. repeat settles_step. Qed.

Lemma undisturbed_queueInterface_shift :
  respects undisturbed queueInterface_shift.
Proof.
  intros s o s'. unfold queueInterface_shift, emit. unfold_monad.
  destruct (eventQueue s) as [|context rest] eqn:Hqueue; intros [= <- <-];
    [reflexivity |].
  split; try done. exists [Shifted context]. simpl. rewrite Hqueue.
  repeat split; [by constructor | by rewrite app_nil_r].
Qed.

Lemma settles_queueInterface_shift : settles queueInterface_shift.
Proof.
  intros s. unfold queueInterface_shift, emit. unfold_monad.
  by destruct (eventQueue s).
Qed.

#[local] Hint Resolve undisturbed_queueInterface_shift
  settles_queueInterface_shift : runtime.

#[local] Hint Resolve settles_pushToContextChain settles_pushContext
  settles_stop : runtime.

Section RuntimeFacts.
Context `{Helpers}.

Lemma undisturbed_queueInterface_push context :
  respects undisturbed (queueInterface_push context).
Proof. unfold queueInterface_push. repeat respects_step. Qed.

Lemma settles_queueInterface_push context :
  settles (queueInterface_push context).
Proof. unfold queueInterface_push. repeat settles_step. Qed.

#[local] Hint Resolve undisturbed_queueInterface_push
  settles_queueInterface_push : runtime.

Lemma undisturbed_createEvent initialContext platformContext :
  respects undisturbed (createEvent initialContext platformContext).
Proof. unfold createEvent. repeat respects_step. Qed.

Lemma settles_createEvent initialContext platformContext :
  settles (createEvent initialContext platformContext).
Proof. unfold createEvent. repeat settles_step. Qed.

#[local] Hint Resolve undisturbed_createEvent settles_createEvent : runtime.

Lemma undisturbed_runExternal c : respects undisturbed (runExternal c).
Proof. unfold runExternal. repeat respects_step. Qed.

Lemma settles_runExternal c : settles (runExternal c).
Proof. unfold runExternal. repeat settles_step. Qed.

#[local] Hint Resolve undisturbed_runExternal settles_runExternal : runtime.

Lemma undisturbed_suspend : respects undisturbed suspend.
Proof.
  unfold suspend. repeat respects_step.
  apply respects_modify. intros s. by apply undisturbed_fields.
Qed.

Lemma settles_suspend : settles suspend.
Proof. unfold suspend. repeat settles_step. Qed.

#[local] Hint Resolve undisturbed_suspend settles_suspend : runtime.

Lemma runExternal_returns c s : exists s', runExternal c s = (Returns tt, s').
Proof.
  pose proof (settles_runExternal c s) as Hset. revert Hset.
  unfold runExternal, try_catch.
  destruct (match c with
            | ExternalCreateEvent i p => createEvent i p
            | ExternalPush c0 => queueInterface_push c0
            | ExternalShift => queueInterface_shift;; mret tt
            | ExternalPushContext c0 => pushContext c0
            | ExternalPushToContextChain item => pushToContextChain item
            | ExternalStop => stop
            end s) as [[[]|e|] s1]; simpl; [eauto | | done].
  unfold_monad. eauto.
Qed.

Lemma for_of_runExternal_returns cs s :
  exists s', for_of cs runExternal s = (Returns tt, s').
Proof.
  revert s. induction cs as [|c cs IH]; intros s; simpl.
  - unfold_monad. eauto.
  - unfold mbind, M_bind, bind.
    destruct (runExternal_returns c s) as [s1 ->]. apply IH.
Qed.

(** A model request is one request: the count goes up by one, nothing
    else of the runtime proper changes, and the request settles. *)
Lemma requestCapability_spec mm capabilityId input config s o s' :
  requestCapability mm capabilityId input config s = (o, s') ->
  quiet s s' /\ modelCalls s' = S (modelCalls s) /\ o ≠ Pending.
Proof.
  unfold requestCapability. unfold mbind at 1, M_bind at 1, bind at 1.
  destruct (suspend s) as [o1 s1] eqn:Hsus.
  pose proof (undisturbed_suspend _ _ _ Hsus) as Hu.
  assert (exists now, o1 = Returns now) as [now ->].
  { revert Hsus. unfold suspend. unfold mbind at 1, M_bind at 1, bind at 1, get.
    unfold mbind at 1, M_bind at 1, bind at 1.
    destruct (for_of_runExternal_returns (schedule s (clock s)) s) as [s2 ->].
    unfold_monad. intros [= <- <-]. eauto. }
  unfold_monad. simpl.
  destruct (ModelManager.executeCapability mm now capabilityId input config None);
    intros [= <- <-]; (split; [| split; [| done]]); simpl;
    try (by rewrite (undisturbed_modelCalls _ _ Hu)).
  all: destruct Hu; split; simpl; try done; try lia.
Qed.

Lemma quiet_requestCapability mm capabilityId input config :
  respects quiet (requestCapability mm capabilityId input config).
Proof. intros s o s' Hrun. by apply requestCapability_spec in Hrun as (? & _). Qed.

Lemma settles_requestCapability mm capabilityId input config :
  settles (requestCapability mm capabilityId input config).
Proof.
  intros s. destruct (requestCapability _ _ _ _ s) as [o s'] eqn:Hrun.
  by apply requestCapability_spec in Hrun as (_ & _ & ?).
Qed.

#[local] Hint Resolve quiet_requestCapability settles_requestCapability : runtime.

(** *** Structured object retrieval *)

Lemma Runtime_getObject_loop_spec {T} (schema : ZodType T) prompt config :
  forall budget attempt_no lastResponse lastError s o s',
  (0 ≤ attempt_no < MAX_RETRIES config)%Z ->
  Z.to_nat (MAX_RETRIES config - attempt_no) ≤ budget ->
  Runtime_getObject_loop budget schema prompt config attempt_no
    lastResponse lastError s = (o, s') ->
  quiet s s' /\
  match o with
  | Returns (Some v) =>
      (exists json, parse schema json = Ok v) /\
      modelCalls s < modelCalls s' /\
      modelCalls s' ≤ modelCalls s + Z.to_nat (MAX_RETRIES config - attempt_no)
  | Returns None => False
  | Throws e =>
      modelCalls s' = modelCalls s + Z.to_nat (MAX_RETRIES config - attempt_no)
  | Pending => False
  end.
Proof.
  induction budget as [|budget IH];
    intros attempt_no lastResponse lastError s o s' Hrange Hbudget; [lia |].
  cbn [Runtime_getObject_loop].
  rewrite bool_decide_eq_true_2 by lia.
  cbv zeta. unfold mbind at 1, M_bind at 1, bind at 1, attempt.
  unfold mbind at 1, M_bind at 1, bind at 1, get.
  destruct (requestCapability _ _ _ _ s) as [o1 s1] eqn:Hreq.
  apply requestCapability_spec in Hreq as (Hq1 & Hc1 & Hnp).
  assert (Z.to_nat (MAX_RETRIES config - attempt_no)
          = S (Z.to_nat (MAX_RETRIES config - (attempt_no + 1)))) as Hcount
    by lia.
  assert (forall text o s',
            match parseResponse schema text with
            | Ok result => mret (Some result)
            | Err err =>
                if bool_decide (attempt_no = MAX_RETRIES config - 1)%Z
                then throw err
                else Runtime_getObject_loop budget schema prompt config
                       (attempt_no + 1)%Z text err
            end s1 = (o, s') ->
            quiet s s' /\
            match o with
            | Returns (Some v) =>
                (exists json, parse schema json = Ok v) /\
                modelCalls s < modelCalls s' /\
                modelCalls s' ≤ modelCalls s
                                + Z.to_nat (MAX_RETRIES config - attempt_no)
            | Returns None => False
            | Throws e =>
                modelCalls s' = modelCalls s
                                + Z.to_nat (MAX_RETRIES config - attempt_no)
            | Pending => False
            end) as Hsecond.
  { intros text o' s''.
    destruct (parseResponse schema text) as [result|err] eqn:Hparse.
    - intros [= <- <-]. split; [done |]. split; [| lia].
      revert Hparse. unfold parseResponse. unfold_monad.
      destruct (extractJson text); [| done].
      destruct (JSON_parse _) as [json|]; [| done]. eauto.
    - case_bool_decide as Hlast.
      + intros [= <- <-]. split; [done |]. lia.
      + intros Hrec. apply IH in Hrec as [Hq2 Ho]; [| lia | lia].
        split; [by etrans |].
        destruct o' as [[v|]|e|]; [| done | | done].
        * destruct Ho as (Hjson & Hlt & Hle). split; [done |]. lia.
        * lia. }
  destruct o1 as [response|err|]; [| | done].
  - apply Hsecond.
  - case_bool_decide as Hlast.
    + intros [= <- <-]. split; [done |]. lia.
    + apply Hsecond.
Qed.

(** [Runtime.getObject] with a retry bound of at least one either returns
    a value that the schema's [parse] produced, having made between one
    and [MAX_RETRIES] model requests, or throws after exactly
    [MAX_RETRIES] model requests. *)
Lemma Runtime_getObject_spec {T} (schema : ZodType T) prompt config s o s' :
  (1 ≤ MAX_RETRIES config)%Z ->
  Runtime_getObject schema prompt config s = (o, s') ->
  quiet s s' /\
  match o with
  | Returns (Some v) =>
      (exists json, parse schema json = Ok v) /\
      modelCalls s < modelCalls s' /\
      modelCalls s' ≤ modelCalls s + Z.to_nat (MAX_RETRIES config)
  | Returns None => False
  | Throws e => modelCalls s' = modelCalls s + Z.to_nat (MAX_RETRIES config)
  | Pending => False
  end.
Proof.
  intros Hmax Hrun. unfold Runtime_getObject in Hrun.
  apply Runtime_getObject_loop_spec in Hrun; [| lia | lia].
  by rewrite Z.sub_0_r in Hrun.
Qed.

Lemma getObject_loop_spec {T} mm (schema : ZodType T) prompt config :
  forall budget attempt_no lastError lastResponse s o s',
  (0 ≤ attempt_no)%Z ->
  Z.to_nat (maxRetriesOf config - attempt_no) < budget ->
  getObject_loop budget mm schema prompt config attempt_no
    lastError lastResponse s = (o, s') ->
  quiet s s' /\
  match o with
  | Returns v =>
      (exists json, parse schema json = Ok v) /\
      modelCalls s < modelCalls s' /\
      modelCalls s' ≤ modelCalls s + Z.to_nat (maxRetriesOf config - attempt_no)
  | Throws e =>
      modelCalls s' = modelCalls s + Z.to_nat (maxRetriesOf config - attempt_no)
  | Pending => False
  end.
Proof.
  induction budget as [|budget IH];
    intros attempt_no lastError lastResponse s o s' Hrange Hbudget; [lia |].
  cbn [getObject_loop].
  case_bool_decide as Hlt; cycle 1.
  { unfold_monad. intros [= <- <-]. split; [reflexivity |]. lia. }
  cbv zeta. unfold mbind at 1, M_bind at 1, bind at 1, attempt.
  destruct (requestCapability _ _ _ _ s) as [o1 s1] eqn:Hreq.
  apply requestCapability_spec in Hreq as (Hq1 & Hc1 & Hnp).
  assert (Z.to_nat (maxRetriesOf config - attempt_no)
          = S (Z.to_nat (maxRetriesOf config - (attempt_no + 1)))) as Hcount
    by lia.
  assert (forall e r o s',
            (if bool_decide (attempt_no = maxRetriesOf config - 1)%Z
             then throw e
             else getObject_loop budget mm schema prompt config
                    (attempt_no + 1)%Z (Some e) r) s1 = (o, s') ->
            quiet s s' /\
            match o with
            | Returns v =>
                (exists json, parse schema json = Ok v) /\
                modelCalls s < modelCalls s' /\
                modelCalls s' ≤ modelCalls s
                                + Z.to_nat (maxRetriesOf config - attempt_no)
            | Throws e =>
                modelCalls s' = modelCalls s
                                + Z.to_nat (maxRetriesOf config - attempt_no)
            | Pending => False
            end) as Hretry.
  { intros e r o' s''. case_bool_decide as Hlast.
    - intros [= <- <-]. split; [done |]. lia.
    - intros Hrec. apply IH in Hrec as [Hq2 Ho]; [| lia | lia].
      split; [by etrans |].
      destruct o' as [v|e'|]; [| lia | done].
      destruct Ho as (Hjson & Hless & Hle). split; [done |]. lia. }
  destruct o1 as [response|err|]; [| by apply Hretry | done].
  destruct (extractJson response) as [extracted|err]; [| by apply Hretry].
  destruct (JSON_parse (cleanJsonString extracted) ≫= parse schema)
    as [result|err] eqn:Hparse; [| by apply Hretry].
  unfold_monad. intros [= <- <-]. split; [done |]. split; [| lia].
  destruct (JSON_parse _) as [json|]; [| done]. eauto.
Qed.

Lemma getObject_spec {T} mm (schema : ZodType T) prompt config s o s' :
  getObject mm schema prompt config s = (o, s') ->
  quiet s s' /\
  match o with
  | Returns v =>
      (exists json, parse schema json = Ok v) /\
      modelCalls s < modelCalls s' /\
      modelCalls s' ≤ modelCalls s + Z.to_nat (maxRetriesOf config)
  | Throws e => modelCalls s' = modelCalls s + Z.to_nat (maxRetriesOf config)
  | Pending => False
  end.
Proof.
  intros Hrun. unfold getObject in Hrun.
  apply getObject_loop_spec in Hrun; [| lia | lia].
  by rewrite Z.sub_0_r in Hrun.
Qed.

(** C1, as the code has it.  Let the retry bound [maxRetries] be absent
    or a non-negative integer.  [Runtime.getObject] takes
    [M = maxRetries], and [M = 3] when [maxRetries] is absent or [0]; it
    either returns a value that [schema.parse] produced, after at least
    one and at most [M] model requests, or throws after exactly [M] model
    requests.  It never returns anything else and never returns without
    having finished.  The earlier free-standing [getObject] does the same
    with [M = maxRetries] and [M = 3] only when [maxRetries] is absent. *)
Theorem getObject_conforms_or_throws {T} (schema : ZodType T)
  (prompt : string) (config : option OperationConfig)
  (mm : ModelManager.t) (s : Runtime) :
  (forall n, config ≫= maxRetries = Some n -> (0 ≤ n)%Z) ->
  match Runtime_getObject schema prompt config s with
  | (Returns (Some v), s') =>
      (exists json, parse schema json = Ok v) /\
      modelCalls s < modelCalls s' /\
      modelCalls s' ≤ modelCalls s + Z.to_nat (MAX_RETRIES config)
  | (Throws e, s') =>
      modelCalls s' = modelCalls s + Z.to_nat (MAX_RETRIES config)
  | (Returns None, _) | (Pending, _) => False
  end /\
  match getObject mm schema prompt config s with
  | (Returns v, s') =>
      (exists json, parse schema json = Ok v) /\
      modelCalls s < modelCalls s' /\
      modelCalls s' ≤ modelCalls s + Z.to_nat (maxRetriesOf config)
  | (Throws e, s') =>
      modelCalls s' = modelCalls s + Z.to_nat (maxRetriesOf config)
  | (Pending, _) => False
  end /\
  MAX_RETRIES None = 3%Z /\ maxRetriesOf None = 3%Z.
Proof.
  intros Hsign. split; [| split; [| done]].
  - destruct (Runtime_getObject schema prompt config s) as [o s'] eqn:Hrun.
    apply Runtime_getObject_spec in Hrun as [_ Ho]; [exact Ho |].
    unfold MAX_RETRIES.
    destruct (config ≫= maxRetries) as [n|] eqn:Hn; [| lia].
    specialize (Hsign n eq_refl). case_bool_decide; lia.
  - destruct (getObject mm schema prompt config s) as [o s'] eqn:Hrun.
    by apply getObject_spec in Hrun as [_ Ho].
Qed.

(** *** Planning *)

Lemma MAX_RETRIES_planning : MAX_RETRIES planningConfig = 3%Z.
Proof. reflexivity. Qed.

Lemma planning_getObject_spec {T} (schema : ZodType T) template s o s' :
  Runtime_getObject schema template planningConfig s = (o, s') ->
  quiet s s' /\
  ((exists v, o = Returns (Some v)) \/ (exists e, o = Throws e)).
Proof.
  intros Hrun. apply Runtime_getObject_spec in Hrun as [Hq Ho];
    [| rewrite MAX_RETRIES_planning; lia].
  split; [done |]. destruct o as [[v|]|e|]; try done; eauto.
Qed.

Lemma quiet_planning_getObject {T} (schema : ZodType T) template :
  respects quiet (Runtime_getObject schema template planningConfig).
Proof. intros s o s' Hrun. by apply planning_getObject_spec in Hrun as [? _]. Qed.

Lemma settles_planning_getObject {T} (schema : ZodType T) template :
  settles (Runtime_getObject schema template planningConfig).
Proof.
  intros s. destruct (Runtime_getObject _ _ _ s) as [o s'] eqn:Hrun.
  apply planning_getObject_spec in Hrun as [_ [[v ->]|[e ->]]]; done.
Qed.

#[local] Hint Resolve quiet_planning_getObject settles_planning_getObject
  : runtime.

Lemma quiet_suspend : respects quiet suspend.
Proof. eapply respects_weaken; [apply undisturbed_quiet | apply undisturbed_suspend]. Qed.

#[local] Hint Resolve quiet_suspend : runtime.

Lemma quiet_generatePipeline pipelineContext :
  respects quiet (generatePipeline pipelineContext).
Proof. unfold generatePipeline. repeat respects_step. Qed.

Lemma settles_generatePipeline pipelineContext :
  settles (generatePipeline pipelineContext).
Proof. unfold generatePipeline. repeat settles_step. Qed.

Lemma quiet_buildGenerationContext context :
  respects quiet (buildGenerationContext context).
Proof. unfold buildGenerationContext. repeat respects_step. Qed.

Lemma settles_buildGenerationContext context :
  settles (buildGenerationContext context).
Proof. unfold buildGenerationContext. repeat settles_step. Qed.

#[local] Hint Resolve quiet_generatePipeline settles_generatePipeline
  quiet_buildGenerationContext settles_buildGenerationContext : runtime.

Lemma quiet_recoverPipeline pipelineContext :
  respects quiet (recoverPipeline pipelineContext).
Proof. unfold recoverPipeline. repeat respects_step. Qed.

Lemma settles_recoverPipeline pipelineContext :
  settles (recoverPipeline pipelineContext).
Proof. unfold recoverPipeline. repeat settles_step. Qed.

#[local] Hint Resolve quiet_recoverPipeline settles_recoverPipeline : runtime.

Lemma quiet_evaluatePipeline context : respects quiet (evaluatePipeline context).
Proof. unfold evaluatePipeline. repeat respects_step. Qed.

Lemma settles_evaluatePipeline context : settles (evaluatePipeline context).
Proof. unfold evaluatePipeline. repeat settles_step. Qed.

Lemma quiet_evaluatePipelineModification context :
  respects quiet (evaluatePipelineModification context).
Proof. unfold evaluatePipelineModification. repeat respects_step. Qed.

Lemma settles_evaluatePipelineModification context :
  settles (evaluatePipelineModification context).
Proof. unfold evaluatePipelineModification. repeat settles_step. Qed.

#[local] Hint Resolve quiet_evaluatePipeline settles_evaluatePipeline
  quiet_evaluatePipelineModification settles_evaluatePipelineModification
  : runtime.

(** Putting the generation context together throws only when the memory
    provider fails to give the conversation history of an event that has a
    user input. *)
Lemma buildGenerationContext_throws context s e s1 :
  buildGenerationContext context s = (Throws e, s1) ->
  exists userInput now platform,
    getUserInput (heap s !!! context) = Some userInput /\
    getRecentConversationHistory (memoryManager s) now
      (userInput !! "user") platform = Err e.
Proof.
  unfold buildGenerationContext.
  unfold mbind at 1, M_bind at 1, bind at 1, deref, gets.
  unfold mbind at 1, M_bind at 1, bind at 1, get.
  destruct (getUserInput (heap s !!! context)) as [userInput|]; cycle 1.
  { unfold_monad. done. }
  unfold mbind at 1, M_bind at 1, bind at 1.
  unfold mbind at 1, M_bind at 1, bind at 1.
  destruct (suspend s) as [o1 s2] eqn:Hsus.
  assert (exists now, o1 = Returns now) as [now ->].
  { revert Hsus. unfold suspend. unfold mbind at 1, M_bind at 1, bind at 1, get.
    unfold mbind at 1, M_bind at 1, bind at 1.
    destruct (for_of_runExternal_returns (schedule s (clock s)) s) as [s3 ->].
    unfold_monad. intros [= <- <-]. eauto. }
  destruct (getRecentConversationHistory _ _ _ _) as [history|e'] eqn:Hfetch;
    unfold_monad; [done |].
  intros [= <- <-]. eauto.
Qed.


End RuntimeFacts.

Lemma getObject_conforms_or_throws_witness :
  let config := Some (mkConfig None (Some 2%Z)) in
  let run := @Runtime_getObject Demo.helpers unit Demo.nullSchema "prompt"
               config Demo.emptyRuntime in
  (forall n, config ≫= maxRetries = Some n -> (0 ≤ n)%Z) /\
  ((exists v, run.1 = Returns (Some v)) \/
   modelCalls run.2 = modelCalls Demo.emptyRuntime + 2).
Proof.
  cbv zeta.
  assert (forall n, Some (mkConfig None (Some 2%Z)) ≫= maxRetries = Some n ->
                    (0 ≤ n)%Z) as Hsign.
  { intros n Hn. vm_compute in Hn. injection Hn as <-. lia. }
  split; [exact Hsign |].
  pose proof (@getObject_conforms_or_throws Demo.helpers unit Demo.nullSchema
                "prompt" (Some (mkConfig None (Some 2%Z))) ModelManager.new
                Demo.emptyRuntime Hsign) as [Hnew _].
  destruct (@Runtime_getObject Demo.helpers unit Demo.nullSchema "prompt"
              (Some (mkConfig None (Some 2%Z))) Demo.emptyRuntime)
    as [[[v|]|e|] s'].
  - left. exists v. reflexivity.
  - destruct Hnew.
  - right. exact Hnew.
  - destruct Hnew.
Defined.

(** C1, as stated, fails for [maxRetries = 0]: the bound is then taken to
    be [3].  With no provider to answer, [Runtime.getObject] throws after
    three model requests, not after none. *)
Lemma Runtime_getObject_zero_retries_counterexample :
  let config := Some (mkConfig None (Some 0%Z)) in
  let run := @Runtime_getObject Demo.helpers unit Demo.nullSchema "prompt"
               config Demo.emptyRuntime in
  run.1 = Throws "No model specified and no default model set for capability text-generation"
  /\ modelCalls run.2 = 3 /\ modelCalls Demo.emptyRuntime = 0.
Proof. vm_compute. auto. Qed.

(** With a negative bound the loop of [Runtime.getObject] is not entered,
    and the caller gets [undefined] without any model request; the
    free-standing [getObject] throws there. *)
Lemma Runtime_getObject_negative_retries :
  let config := Some (mkConfig None (Some (-1)%Z)) in
  @Runtime_getObject Demo.helpers unit Demo.nullSchema "prompt" config
    Demo.emptyRuntime = (Returns None, Demo.emptyRuntime) /\
  (@getObject Demo.helpers unit ModelManager.new Demo.nullSchema "prompt"
     config Demo.emptyRuntime).1
  = Throws "Failed to get valid response after retries".
Proof. vm_compute. auto. Qed.


(** ** A step whose plugin is not registered *)

Section MissingPlugin.
Context `{Helpers}.

(** Looking up a plugin that is not registered throws; the branch of
    [executePipeline] that would record the missing plugin and go on is
    never reached, and the error leaves [executePipeline] past its
    [finally]. *)
Lemma executePipeline_loop_missing_plugin budget context pipeline i step s :
  pipeline !! i = Some step ->
  map_get (PluginRegistry.plugins (pluginRegistry s)) (pluginId step) = None ->
  executePipeline_loop (S budget) context pipeline i s
  = (Throws ("Plugin ID " +:+ pluginId step
             +:+ " not found. Available plugins: "
             +:+ String.concat ", "
                   (map_keys (PluginRegistry.plugins (pluginRegistry s)))), s).
Proof.
  intros Hstep Hmissing. cbn [executePipeline_loop].
  rewrite bool_decide_eq_true_2 by (by eapply lookup_lt_Some).
  rewrite Hstep. unfold_monad. unfold PluginRegistry.getPlugin.
  by rewrite Hmissing.
Qed.

Lemma executePipeline_missing_plugin budget context pipeline step s :
  pipeline !! 0 = Some step ->
  map_get (PluginRegistry.plugins (pluginRegistry s)) (pluginId step) = None ->
  executePipeline (S budget) pipeline context s
  = (Throws ("Plugin ID " +:+ pluginId step
             +:+ " not found. Available plugins: "
             +:+ String.concat ", "
                   (map_keys (PluginRegistry.plugins (pluginRegistry s)))),
     set_currentContext None s).
Proof.
  intros Hstep Hmissing. unfold executePipeline.
  unfold mbind, M_bind, bind, modify, try_finally.
  rewrite (executePipeline_loop_missing_plugin budget context pipeline 0 step)
    by done.
  by destruct s.
Qed.

End MissingPlugin.

(** C2 does not hold of the code.  A trigger creates an event from a user
    message; the model plans one step for the plugin [plugin-ghost], which
    is not registered.  [executePipeline] throws the registry's error,
    the evaluation loop throws it again, and [start] ends with the runtime
    stopped; no error item has been added to the context chain of the
    event, which still holds the user message alone. *)
Lemma missing_plugin_aborts_event :
  let run := @start Demo.helpers 4 Demo.hauntedRuntime in
  run.1 = Throws "Plugin ID plugin-ghost not found. Available plugins: " /\
  isRunning run.2 = false /\
  trace run.2 = [Enqueued 0; Dequeued 0; Cleared 0] /\
  length (chainOf run.2 0) = 1 /\
  (@executePipeline Demo.helpers 4 [Demo.ghostStep; Demo.timeStep] 0
     Demo.busyRuntime).1
  = Throws "Plugin ID plugin-ghost not found. Available plugins: ".
Proof. vm_compute. auto. Qed.

(** ** One event at a time, first in first out *)

Lemma serial_app owner t1 t2 :
  serial owner (t1 ++ t2) = serial owner t1 ≫= fun owner' => serial owner' t2.
Proof.
  revert owner. induction t1 as [|e t1 IH]; intros owner; simpl; [done |].
  destruct e as [r|r|r|c r st|r]; simpl; [apply IH | | apply IH | |].
  - destruct owner; [done | apply IH].
  - destruct (_ && _); [apply IH | done].
  - case_bool_decide; [apply IH | done].
Qed.

Lemma serial_steps r es :
  Forall (stepOf r) es -> serial (Some r) es = Some (Some r).
Proof.
  induction 1 as [|e es He _ IH]; simpl; [done |].
  destruct e as [r'|r'|r'|c r' st|r']; simpl in *; try done.
  destruct He as [-> ->].
  by rewrite !bool_decide_eq_true_2.
Qed.

Lemma serial_enqueued owner es :
  Forall fromOutside es -> serial owner es = Some owner.
Proof.
  induction 1 as [|e es He _ IH]; simpl; [done |].
  by destruct e.
Qed.

Lemma dequeuedOf_steps r es : Forall (stepOf r) es -> dequeuedOf es = [].
Proof.
  induction 1 as [|e es He _ IH]; simpl; [done |].
  by destruct e.
Qed.

Lemma takenOf_steps r es : Forall (stepOf r) es -> takenOf es = shiftedOf es.
Proof.
  induction 1 as [|e es He _ IH]; simpl; [done |].
  destruct e; simpl in *; try done. by rewrite IH.
Qed.

Lemma fromOutside_stepOf r e : fromOutside e -> stepOf r e.
Proof. by destruct e. Qed.

Lemma fifo_grows r s s' : grows (stepOf r) s s' -> fifo s -> fifo s'.
Proof.
  intros (es & Ht & Hok & Hq) Hfifo. unfold fifo in *.
  rewrite Ht, takenOf_app, enqueuedOf_app, (takenOf_steps r es Hok).
  by rewrite <- app_assoc, Hq, app_assoc, Hfifo.
Qed.

#[local] Instance within_preorder r : PreOrder (within r).
Proof.
  split.
  - intros s Hcur. repeat split; [done |]. apply grows_refl.
  - intros s1 s2 s3 H12 H23 Hcur.
    destruct (H12 Hcur) as (Hp1 & Hc1 & Hg1).
    destruct (H23 Hc1) as (Hp2 & Hc2 & Hg2).
    repeat split; [congruence | done |]. by eapply grows_trans.
Qed.

Lemma quiet_within r s s' : quiet s s' -> within r s s'.
Proof.
  intros [] Hcur. repeat split; [done | congruence |].
  eapply grows_mono; [apply fromOutside_stepOf | done].
Qed.

Lemma within_set_currentContext r :
  respects (within r) (modify (set_currentContext (Some r))).
Proof.
  apply respects_modify. intros s _.
  split; [done |]. split; [by right |].
  exists []. simpl. by rewrite !app_nil_r.
Qed.

Lemma within_clear_currentContext r :
  respects (within r) (modify (set_currentContext None)).
Proof.
  apply respects_modify. intros s _.
  split; [done |]. split; [by left |].
  exists []. simpl. by rewrite !app_nil_r.
Qed.

Section Loop.
Context `{Helpers}.

#[local] Hint Resolve undisturbed_queueInterface_push undisturbed_createEvent
  undisturbed_runExternal undisturbed_suspend quiet_suspend
  quiet_evaluatePipeline quiet_evaluatePipelineModification : runtime.

Lemma undisturbed_runPluginCall c : respects undisturbed (runPluginCall c).
Proof. unfold runPluginCall. repeat respects_step. Qed.

#[local] Hint Resolve undisturbed_runPluginCall : runtime.

(** Running an executor records the run, for the event given, under the
    slot as it is; whatever the executor then asks of the runtime only
    enqueues. *)
Lemma stepping_executePlugin plugin step context :
  respects (stepping context) (executePlugin plugin step context).
Proof.
  intros s o s'. unfold executePlugin.
  unfold mbind at 1, M_bind at 1, bind at 1, get.
  unfold mbind at 1, M_bind at 1, bind at 1, deref, gets.
  unfold mbind at 1, M_bind at 1, bind at 1, emit, modify.
  set (s1 := set_trace _ s).
  destruct (plugin_execute plugin (action step) (clock s) (heap s !!! context))
    as [calls settlement].
  intros Hrun Hcur.
  assert (respects undisturbed
            (for_of calls runPluginCall;; suspend;; await settlement)) as Hrest
    by (repeat respects_step).
  apply Hrest in Hrun as [_ _ Hreg _ _ Hslot _ (es & Ht & Hok & Hq)].
  repeat split; [done | by rewrite Hslot | ].
  exists (Executed (currentContext s) context step :: es). repeat split.
  - rewrite Ht. simpl. by rewrite <- app_assoc.
  - constructor; [by rewrite Hcur |].
    eapply Forall_impl; [done | apply fromOutside_stepOf].
  - simpl. exact Hq.
Qed.

Lemma stepping_of_undisturbed {A} r (m : M Runtime A) :
  respects undisturbed m -> respects (stepping r) m.
Proof.
  apply respects_weaken. intros s s' Hu.
  by apply quiet_stepping, undisturbed_quiet.
Qed.

Lemma stepping_of_quiet {A} r (m : M Runtime A) :
  respects quiet m -> respects (stepping r) m.
Proof. apply respects_weaken. intros s s'. apply quiet_stepping. Qed.

Lemma stepping_chainPush r r' item : respects (stepping r) (chainPush r' item).
Proof. apply stepping_of_undisturbed, undisturbed_chainPush. Qed.

Lemma stepping_evaluatePipelineModification r context :
  respects (stepping r) (evaluatePipelineModification context).
Proof. apply stepping_of_quiet, quiet_evaluatePipelineModification. Qed.

#[local] Hint Resolve stepping_executePlugin stepping_chainPush
  stepping_evaluatePipelineModification : runtime.

Lemma stepping_executeStep plugin pipeline i step context :
  respects (stepping context) (executeStep plugin pipeline i step context).
Proof. unfold executeStep. repeat respects_step. Qed.

#[local] Hint Resolve stepping_executeStep : runtime.

Lemma stepping_executePipeline_loop budget context :
  forall pipeline i,
    respects (stepping context) (executePipeline_loop budget context pipeline i).
Proof.
  induction budget as [|budget IH]; intros pipeline i;
    cbn [executePipeline_loop]; repeat respects_step.
Qed.

Lemma within_of_quiet {A} r (m : M Runtime A) :
  respects quiet m -> respects (within r) m.
Proof. apply respects_weaken. intros s s'. apply quiet_within. Qed.

Lemma within_of_undisturbed {A} r (m : M Runtime A) :
  respects undisturbed m -> respects (within r) m.
Proof.
  intros Hm. apply within_of_quiet.
  eapply respects_weaken; [apply undisturbed_quiet | done].
Qed.

Lemma within_executePipeline budget pipeline context :
  respects (within context) (executePipeline budget pipeline context).
Proof.
  intros s o s' Hrun _. revert Hrun. unfold executePipeline.
  unfold mbind, M_bind, bind, modify, try_finally.
  set (sa := set_currentContext (Some context) s).
  destruct (executePipeline_loop budget context pipeline 0 sa) as [o1 sb] eqn:Hloop.
  apply stepping_executePipeline_loop in Hloop.
  destruct (Hloop eq_refl) as (Hreg & Hslot & (es & Ht & Hok & Hq)).
  assert (grows (stepOf context) s sb) as Hgrows by (by exists es).
  destruct o1 as [[]|e|]; intros [= <- <-]; simpl.
  - split; [done |]. split; [by left |]. by exists es.
  - split; [done |]. split; [by left |]. by exists es.
  - split; [done |]. split; [by right | done].
Qed.

Lemma within_evaluatePipeline r context :
  respects (within r) (evaluatePipeline context).
Proof. apply within_of_quiet, quiet_evaluatePipeline. Qed.

Lemma within_suspend r : respects (within r) suspend.
Proof. apply within_of_undisturbed, undisturbed_suspend. Qed.

#[local] Hint Resolve within_set_currentContext within_executePipeline
  within_evaluatePipeline within_suspend : runtime.

Lemma within_processEvent budget context userInput :
  respects (within context) (processEvent budget context userInput).
Proof. unfold processEvent. repeat respects_step. Qed.

Lemma betweenEvents_oneAtATime s : betweenEvents s -> oneAtATime s.
Proof. intros (Hfifo & Hserial & Hslot). split; [done |]. exists None. auto. Qed.

Lemma inEvent_oneAtATime r s : inEvent r s -> oneAtATime s.
Proof.
  intros (Hfifo & Hserial & Hslot). split; [done |]. exists (Some r). auto.
Qed.

Lemma betweenEvents_undisturbed s s' :
  betweenEvents s -> undisturbed s s' -> betweenEvents s'.
Proof.
  intros (Hfifo & Hserial & Hslot) [_ _ _ _ _ Hcur _ Hgrows].
  split; [| split; [| congruence]].
  - eapply (fifo_grows 0); [| done].
    eapply grows_mono; [apply fromOutside_stepOf | done].
  - destruct Hgrows as (es & -> & Hok & _).
    rewrite serial_app, Hserial. simpl. by apply serial_enqueued.
Qed.

Lemma inEvent_within r s s' : inEvent r s -> within r s s' -> inEvent r s'.
Proof.
  intros (Hfifo & Hserial & Hslot) Hwithin.
  destruct (Hwithin Hslot) as (_ & Hslot' & Hgrows).
  split; [by eapply fifo_grows | split; [| done]].
  destruct Hgrows as (es & -> & Hok & _).
  rewrite serial_app, Hserial. simpl. by apply serial_steps.
Qed.

(** Taking the first event off the queue. *)
Lemma inEvent_dequeue s context rest :
  betweenEvents s -> eventQueue s = context :: rest ->
  inEvent context
    (set_trace (trace s ++ [Dequeued context]) (set_eventQueue rest s)).
Proof.
  intros (Hfifo & Hserial & Hslot) Hqueue. unfold inEvent, fifo in *. simpl.
  rewrite takenOf_app, enqueuedOf_app, serial_app, Hserial. simpl.
  rewrite app_nil_r, <- Hfifo, Hqueue, <- app_assoc. auto.
Qed.

(** Ending the processing of an event: the slot is cleared. *)
Lemma betweenEvents_clear s context :
  inEvent context s ->
  betweenEvents
    (set_trace (trace s ++ [Cleared context]) (set_currentContext None s)).
Proof.
  intros (Hfifo & Hserial & Hslot). unfold betweenEvents, fifo in *. simpl.
  rewrite takenOf_app, enqueuedOf_app, serial_app, Hserial. simpl.
  rewrite bool_decide_eq_true_2 by done.
  by rewrite !app_nil_r.
Qed.

Lemma runEvaluationLoop_oneAtATime budget :
  forall s o s',
    betweenEvents s -> runEvaluationLoop budget s = (o, s') ->
    oneAtATime s' /\ (o ≠ Pending -> currentContext s' = None).
Proof.
  induction budget as [|budget IH]; intros s o s' Hbetween;
    cbn [runEvaluationLoop].
  { intros [= <- <-]. split; [by apply betweenEvents_oneAtATime | done]. }
  unfold mbind at 1, M_bind at 1, bind at 1, get.
  destruct (isRunning s); cycle 1.
  { intros [= <- <-]. split; [by apply betweenEvents_oneAtATime |].
    intros _. apply Hbetween. }
  destruct (eventQueue s) as [|context rest] eqn:Hqueue.
  - (* nothing queued: sleep, then look again *)
    unfold mbind at 1, M_bind at 1, bind at 1.
    destruct (suspend s) as [o1 s1] eqn:Hsuspend.
    apply undisturbed_suspend in Hsuspend.
    pose proof (betweenEvents_undisturbed _ _ Hbetween Hsuspend) as Hbetween1.
    destruct o1 as [now|e|].
    + by apply IH.
    + intros [= <- <-]. split; [by apply betweenEvents_oneAtATime |].
      intros _. apply Hbetween1.
    + intros [= <- <-]. split; [by apply betweenEvents_oneAtATime | done].
  - (* an event is taken from the queue and processed *)
    unfold mbind at 1, M_bind at 1, bind at 1, modify.
    unfold mbind at 1, M_bind at 1, bind at 1, emit, modify.
    unfold mbind at 1, M_bind at 1, bind at 1, deref, gets.
    pose proof (inEvent_dequeue s context rest Hbetween Hqueue) as Hin.
    set (s1 := set_trace _ _) in *.
    destruct (getUserInput (heap s1 !!! context)) as [userInput|].
    2:{ intros [= <- <-]. split; [by eapply inEvent_oneAtATime |].
        intros _. by destruct Hbetween as (_ & _ & ?). }
    unfold mbind at 1, M_bind at 1, bind at 1, try_finally, try_catch.
    destruct (processEvent budget context userInput s1) as [o2 s2] eqn:Hprocess.
    apply within_processEvent in Hprocess.
    pose proof (inEvent_within _ _ _ Hin Hprocess) as Hin2.
    pose proof (betweenEvents_clear s2 context Hin2) as Hbetween3.
    destruct o2 as [[]|e|].
    + unfold_monad. simpl. by apply IH.
    + unfold_monad. simpl. intros [= <- <-].
      split; [by apply betweenEvents_oneAtATime |].
      intros _. apply Hbetween3.
    + intros [= <- <-]. split; [by eapply inEvent_oneAtATime | done].
Qed.

#[local] Hint Resolve settles_runExternal : runtime.

Lemma undisturbed_startTrigger plugin trigger :
  respects undisturbed (startTrigger plugin trigger).
Proof. unfold startTrigger. repeat respects_step. Qed.

Lemma settles_startTrigger plugin trigger :
  settles (startTrigger plugin trigger).
Proof. unfold startTrigger. repeat settles_step. Qed.

#[local] Hint Resolve undisturbed_startTrigger settles_startTrigger : runtime.

Lemma undisturbed_startTriggers : respects undisturbed startTriggers.
Proof. unfold startTriggers. repeat respects_step. Qed.

Lemma settles_startTriggers : settles startTriggers.
Proof. unfold startTriggers. repeat settles_step. Qed.

Lemma start_oneAtATime budget s o s' :
  betweenEvents s -> start budget s = (o, s') ->
  oneAtATime s' /\ (o ≠ Pending -> currentContext s' = None).
Proof.
  intros Hbetween. unfold start.
  unfold mbind at 1, M_bind at 1, bind at 1, get.
  destruct (isRunning s).
  { intros [= <- <-]. split; [by apply betweenEvents_oneAtATime |].
    intros _. apply Hbetween. }
  unfold mbind at 1, M_bind at 1, bind at 1, modify.
  assert (betweenEvents (set_isRunning true s)) as Hbetween' by done.
  unfold mbind at 1, M_bind at 1, bind at 1.
  destruct (startTriggers (set_isRunning true s)) as [o0 s0] eqn:Htriggers.
  apply undisturbed_startTriggers in Htriggers.
  pose proof (betweenEvents_undisturbed _ _ Hbetween' Htriggers) as Hbetween0.
  destruct o0 as [[]|e|]; cycle 1.
  { intros [= <- <-]. split; [by apply betweenEvents_oneAtATime |].
    intros _. apply Hbetween0. }
  { intros [= <- <-]. split; [by apply betweenEvents_oneAtATime | done]. }
  unfold try_catch.
  destruct (runEvaluationLoop budget s0) as [o1 s1] eqn:Hloop.
  apply runEvaluationLoop_oneAtATime in Hloop as [Hone Hend]; [| done].
  destruct o1 as [[]|e|]; unfold_monad; intros [= <- <-]; auto.
Qed.

End Loop.

(** Two events, the second created while the first is being processed:
    the first is taken, its step run and its processing ended before the
    second is taken. *)
Example two_events_in_order :
  trace (@start Demo.helpers 6 Demo.timeRuntime).2
  = [Enqueued 0; Dequeued 0; Enqueued 1;
     Executed (Some 0) 0 Demo.timeStep; Cleared 0;
     Dequeued 1; Executed (Some 1) 1 Demo.timeStep; Cleared 1].
Proof. vm_compute. reflexivity. Qed.


(** * Further properties of the code *)

(** ** The plugin registry *)

Lemma for_of_app {S A} (xs ys : list A) (body : A -> M S unit) (s : S) :
  for_of (xs ++ ys) body s = (for_of xs body;; for_of ys body) s.
Proof.
  revert s. induction xs as [|x xs IH]; intros s; simpl; [done |].
  unfold mbind, M_bind, bind in *.
  destruct (body x s) as [[[]|e|] s1]; [apply IH | done | done].
Qed.

Lemma map_get_None_keys {V} (m : list (string * V)) k :
  map_get m k = None <-> k ∉ map_keys m.
Proof.
  unfold map_keys. induction m as [|[k' v] m IH]; simpl.
  - split; [intros _ []%elem_of_nil | done].
  - case_bool_decide as Hk.
    + subst. split; [done |]. intros Hnot. exfalso. apply Hnot. by left.
    + rewrite IH, not_elem_of_cons. split; [intros Hk'; split; [congruence | done] |].
      by intros [_ ?].
Qed.

Lemma map_get_app_fresh {V} (m : list (string * V)) k v :
  map_get m k = None -> map_get (m ++ [(k, v)]) k = Some v.
Proof.
  induction m as [|[k' v'] m IH]; simpl.
  - by rewrite bool_decide_eq_true_2.
  - case_bool_decide; [done | apply IH].
Qed.

Lemma map_get_app_l {V} (m m' : list (string * V)) k v :
  map_get m k = Some v -> map_get (m ++ m') k = Some v.
Proof.
  induction m as [|[k' v'] m IH]; simpl; [done |].
  case_bool_decide; [done | apply IH].
Qed.

Lemma map_get_app_r {V} (m m' : list (string * V)) k :
  map_get m k = None -> map_get (m ++ m') k = map_get m' k.
Proof.
  induction m as [|[k' v'] m IH]; simpl; [done |].
  case_bool_decide; [done | apply IH].
Qed.

(** One registration: what decides it and what it leaves. *)
Lemma registerPlugin_cases p reg :
  PluginRegistry.registerPlugin p reg
  = if bool_decide (plugin_id p = EmptyString)
    then (Throws "Plugin ID cannot be empty", reg)
    else if bool_decide (plugin_id p ∈ map_keys (PluginRegistry.plugins reg))
    then (Throws (collisionMessage (plugin_id p)
                    (map_keys (PluginRegistry.plugins reg))), reg)
    else (Returns tt,
          PluginRegistry.mk (PluginRegistry.plugins reg ++ [pluginEntry p])).
Proof.
  unfold PluginRegistry.registerPlugin. unfold_monad.
  case_bool_decide; [done |]. unfold map_has.
  destruct (map_get (PluginRegistry.plugins reg) (plugin_id p)) eqn:Hget.
  - rewrite bool_decide_eq_true_2; [done |].
    destruct (decide (plugin_id p ∈ map_keys (PluginRegistry.plugins reg)));
      [done |].
    apply map_get_None_keys in n. congruence.
  - rewrite bool_decide_eq_false_2 by (by apply map_get_None_keys).
    by rewrite map_set_fresh.
Qed.

Lemma registerPlugins_returns_inv ps reg reg' :
  PluginRegistry.registerPlugins ps reg = (Returns tt, reg') ->
  PluginRegistry.plugins reg'
  = (PluginRegistry.plugins reg ++ (pluginEntry <$> ps))%list /\
  Forall (fun p => plugin_id p ≠ EmptyString) ps /\
  NoDup (plugin_id <$> ps) /\
  (forall p, p ∈ ps -> plugin_id p ∉ map_keys (PluginRegistry.plugins reg)).
Proof.
  unfold PluginRegistry.registerPlugins.
  revert reg. induction ps as [|p ps IH]; intros reg; simpl.
  - unfold_monad. intros [= <-]. rewrite app_nil_r.
    repeat split; [constructor | constructor |]. by intros p []%elem_of_nil.
  - unfold mbind at 1, M_bind at 1, bind at 1.
    rewrite registerPlugin_cases.
    case_bool_decide as Hempty; [done |].
    case_bool_decide as Hin; [done |].
    intros Hrest. apply IH in Hrest as (Hplugins & Hne & Hnodup & Hfresh).
    simpl in *. unfold map_keys in *.
    split; [by rewrite Hplugins, <- app_assoc |].
    split; [by constructor |].
    split.
    + constructor; [| done]. intros Hdup.
      apply list_elem_of_fmap in Hdup as (q & Hq & Hqin).
      apply (Hfresh q Hqin). rewrite fmap_app, <- Hq. simpl.
      apply elem_of_app. right. by left.
    + intros q [->|Hq]%elem_of_cons; [done |].
      intros Hbad. apply (Hfresh q Hq). rewrite fmap_app.
      apply elem_of_app. by left.
Qed.

Lemma registerPlugins_returns ps reg :
  Forall (fun p => plugin_id p ≠ EmptyString) ps ->
  NoDup (plugin_id <$> ps) ->
  (forall p, p ∈ ps -> plugin_id p ∉ map_keys (PluginRegistry.plugins reg)) ->
  exists reg', PluginRegistry.registerPlugins ps reg = (Returns tt, reg').
Proof.
  unfold PluginRegistry.registerPlugins.
  revert reg. induction ps as [|p ps IH]; intros reg Hne Hnodup Hfresh; simpl.
  - unfold_monad. eauto.
  - unfold mbind at 1, M_bind at 1, bind at 1.
    rewrite registerPlugin_cases.
    inversion Hne as [|? ? Hp Hne']; subst.
    inversion Hnodup as [|? ? Hnotin Hnodup']; subst.
    rewrite bool_decide_eq_false_2 by done.
    rewrite bool_decide_eq_false_2 by (apply Hfresh; by left).
    apply IH; [done | done |].
    intros q Hq. simpl. unfold map_keys. rewrite fmap_app. simpl.
    intros [Hold|Hnew%list_elem_of_singleton]%elem_of_app.
    + apply (Hfresh q); [by right | done].
    + apply Hnotin. rewrite <- Hnew. by apply list_elem_of_fmap_2.
Qed.

(** X1. Registering plugins in a new registry succeeds exactly when every
    id is non-empty and no id occurs twice. *)
Theorem registerPlugins_succeeds_iff (ps : list Plugin) :
  (exists reg, PluginRegistry.registerPlugins ps PluginRegistry.new
               = (Returns tt, reg)) <->
  Forall (fun p => plugin_id p ≠ EmptyString) ps /\ NoDup (plugin_id <$> ps).
Proof.
  split.
  - intros [reg Hreg]. apply registerPlugins_returns_inv in Hreg. tauto.
  - intros [Hne Hnodup]. apply registerPlugins_returns; [done | done |].
    intros p _. simpl. apply not_elem_of_nil.
Qed.

Lemma map_get_pluginEntry ps p :
  NoDup (plugin_id <$> ps) -> p ∈ ps ->
  map_get (pluginEntry <$> ps) (plugin_id p) = Some p.
Proof.
  induction ps as [|q ps IH]; intros Hnodup Hp; [by apply elem_of_nil in Hp |].
  inversion Hnodup as [|? ? Hnotin Hnodup']; subst. simpl.
  apply elem_of_cons in Hp as [->|Hp].
  - by rewrite bool_decide_eq_true_2.
  - rewrite bool_decide_eq_false_2; [by apply IH |].
    intros Heq. apply Hnotin. rewrite Heq. by apply list_elem_of_fmap_2.
Qed.

(** X2. After a successful registration in a new registry, the registry
    lists the plugins in the order given; looking up the id of a
    registered plugin returns that plugin; looking up any other id throws
    the error that names the id and lists the registered ids, separated by
    a comma and a space. *)
Theorem getPlugin_after_registerPlugins (ps : list Plugin) (reg : PluginRegistry.t) :
  PluginRegistry.registerPlugins ps PluginRegistry.new = (Returns tt, reg) ->
  PluginRegistry.getAllPlugins reg = ps /\
  (forall p, p ∈ ps ->
     PluginRegistry.getPlugin reg (plugin_id p) = Returns (Some p)) /\
  (forall id, id ∉ (plugin_id <$> ps) ->
     PluginRegistry.getPlugin reg id
     = Throws (notFoundMessage id (plugin_id <$> ps))).
Proof.
  intros Hreg. apply registerPlugins_returns_inv in Hreg
    as (Hplugins & _ & Hnodup & _). simpl in Hplugins.
  assert (map_keys (PluginRegistry.plugins reg) = plugin_id <$> ps) as Hkeys.
  { unfold map_keys. rewrite Hplugins, <- list_fmap_compose. done. }
  split; [| split].
  - unfold PluginRegistry.getAllPlugins, map_values.
    rewrite Hplugins, <- list_fmap_compose.
    rewrite <- (list_fmap_id ps) at 2. done.
  - intros p Hp. unfold PluginRegistry.getPlugin.
    by rewrite Hplugins, map_get_pluginEntry.
  - intros id Hid. unfold PluginRegistry.getPlugin.
    rewrite <- Hkeys in Hid. apply map_get_None_keys in Hid.
    by rewrite Hid, Hkeys.
Qed.

Lemma getPlugin_after_registerPlugins_witness :
  PluginRegistry.getPlugin
    (PluginRegistry.mk [pluginEntry Demo.painter; pluginEntry Demo.clockPlugin])
    "plugin-time"
  = Returns (Some Demo.clockPlugin).
Proof.
  apply (proj1 (proj2 (getPlugin_after_registerPlugins
                         [Demo.painter; Demo.clockPlugin] _ eq_refl))
               Demo.clockPlugin).
  right. left.
Defined.

(** X3. Registration stops at the first plugin whose id is already
    registered: the error names that id and lists the ids registered
    before it, the plugins before it stay registered, and none of the
    plugins after it is registered. *)
Theorem registerPlugins_stops_at_collision
  (before after : list Plugin) (p : Plugin) (reg : PluginRegistry.t) :
  PluginRegistry.registerPlugins before PluginRegistry.new = (Returns tt, reg) ->
  plugin_id p ≠ EmptyString ->
  plugin_id p ∈ (plugin_id <$> before) ->
  PluginRegistry.registerPlugins (before ++ p :: after) PluginRegistry.new
  = (Throws (collisionMessage (plugin_id p) (plugin_id <$> before)), reg) /\
  PluginRegistry.getAllPlugins reg = before.
Proof.
  intros Hbefore Hne Hin.
  pose proof (registerPlugins_returns_inv _ _ _ Hbefore) as (Hplugins & _).
  simpl in Hplugins.
  split; cycle 1.
  { unfold PluginRegistry.getAllPlugins, map_values.
    rewrite Hplugins, <- list_fmap_compose.
    rewrite <- (list_fmap_id before) at 2. done. }
  unfold PluginRegistry.registerPlugins in *. rewrite for_of_app.
  unfold mbind at 1, M_bind at 1, bind at 1. rewrite Hbefore. simpl.
  unfold mbind at 1, M_bind at 1, bind at 1.
  rewrite registerPlugin_cases.
  rewrite bool_decide_eq_false_2 by done.
  assert (map_keys (PluginRegistry.plugins reg) = plugin_id <$> before) as Hkeys.
  { unfold map_keys. rewrite Hplugins, <- list_fmap_compose. done. }
  rewrite Hkeys. by rewrite bool_decide_eq_true_2.
Qed.

Lemma registerPlugins_stops_at_collision_witness :
  (PluginRegistry.registerPlugins
     [Demo.painter; Demo.clockPlugin; Demo.painter; Demo.clockPlugin]
     PluginRegistry.new).1
  = Throws (collisionMessage "plugin-image" ["plugin-image"; "plugin-time"]).
Proof.
  destruct (registerPlugins_stops_at_collision
              [Demo.painter; Demo.clockPlugin] [Demo.clockPlugin] Demo.painter
              _ eq_refl) as [Hrun _].
  - discriminate.
  - left.
  - simpl in Hrun. rewrite Hrun. reflexivity.
Defined.

(** ** Pushing to the context chain *)

Lemma samePluginAction_chainKey (item existing : ContextItem) :
  samePluginAction item existing = true <-> chainKey existing = chainKey item.
Proof.
  rewrite samePluginAction_true. unfold chainKey.
  split; [by intros [-> ->] | by intros [= -> ->]].
Qed.

Lemma chainKey_spread (existing item : ContextItem) :
  chainKey existing = chainKey item ->
  chainKey (spread existing item) = chainKey item.
Proof.
  unfold chainKey. intros [= Hp Ha]. rewrite !spread_lookup, Hp, Ha.
  by destruct (item !! "pluginId"), (item !! "action").
Qed.

Lemma spread_spread (existing item : ContextItem) :
  spread (spread existing item) item = spread existing item.
Proof.
  unfold spread. by rewrite (assoc_L (∪)), (idemp_L (∪)).
Qed.

Lemma findIndex_app_None {A} (p : A -> bool) (l : list A) (x : A) :
  findIndex p l = None -> p x = true ->
  findIndex p (l ++ [x]) = Some (length l).
Proof.
  induction l as [|a l IH]; simpl; intros Hnone Hx; [by rewrite Hx |].
  destruct (p a); [done |].
  destruct (findIndex p l); [done |]. by rewrite IH.
Qed.

Lemma findIndex_insert {A} (p : A -> bool) (l : list A) i (x : A) :
  findIndex p l = Some i -> p x = true ->
  findIndex p (<[i := x]> l) = Some i.
Proof.
  revert i. induction l as [|a l IH]; intros i; simpl; [done |].
  destruct (p a) eqn:Hpa.
  - intros [= <-] Hx. simpl. by rewrite Hx.
  - destruct (findIndex p l) as [j|]; [| done]. simpl.
    intros [= <-] Hx. simpl. by rewrite Hpa, (IH j).
Qed.

(** Merging the same item a second time changes nothing. *)
Lemma mergeIntoChain_idemp (chain : list ContextItem) (item : ContextItem) :
  mergeIntoChain (mergeIntoChain chain item) item = mergeIntoChain chain item.
Proof.
  destruct (findIndex (samePluginAction item) chain) as [i|] eqn:Hfind.
  - destruct (findIndex_Some _ _ _ Hfind) as (x & Hx & Hsame & _).
    assert (mergeIntoChain chain item = <[i := spread x item]> chain) as ->.
    { unfold mergeIntoChain. by rewrite Hfind, Hx. }
    unfold mergeIntoChain.
    rewrite (findIndex_insert _ _ _ _ Hfind); cycle 1.
    { apply samePluginAction_chainKey, chainKey_spread.
      by apply samePluginAction_chainKey. }
    rewrite list_lookup_insert_eq by (by eapply lookup_lt_Some).
    simpl. by rewrite spread_spread, list_insert_insert_eq.
  - assert (mergeIntoChain chain item = (chain ++ [item])%list) as ->.
    { unfold mergeIntoChain. by rewrite Hfind. }
    unfold mergeIntoChain.
    rewrite (findIndex_app_None _ _ _ Hfind); cycle 1.
    { by apply samePluginAction_chainKey. }
    rewrite lookup_app_r, Nat.sub_diag by lia. simpl.
    rewrite insert_app_r_alt, Nat.sub_diag by lia. simpl.
    unfold spread. by rewrite (idemp_L (∪)).
Qed.

(** The keys of the chain after a merge. *)
Lemma mergeIntoChain_keys (chain : list ContextItem) (item : ContextItem) :
  chainKey <$> mergeIntoChain chain item
  = if bool_decide (chainKey item ∈ chainKey <$> chain)
    then chainKey <$> chain
    else ((chainKey <$> chain) ++ [chainKey item])%list.
Proof.
  unfold mergeIntoChain.
  destruct (findIndex (samePluginAction item) chain) as [i|] eqn:Hfind.
  - destruct (findIndex_Some _ _ _ Hfind) as (x & Hx & Hsame & _).
    apply samePluginAction_chainKey in Hsame.
    rewrite bool_decide_eq_true_2; cycle 1.
    { rewrite <- Hsame. apply list_elem_of_fmap_2.
      by eapply list_elem_of_lookup_2. }
    rewrite Hx. simpl. rewrite list_fmap_insert, chainKey_spread by done.
    apply list_insert_id. by rewrite list_lookup_fmap, Hx, <- Hsame.
  - rewrite bool_decide_eq_false_2; [by rewrite fmap_app |].
    intros (x & Hkey & Hin)%list_elem_of_fmap.
    rewrite findIndex_None in Hfind. specialize (Hfind x Hin).
    assert (samePluginAction item x = true) as Htrue
      by (by apply samePluginAction_chainKey).
    congruence.
Qed.

(** X4. Pushing the same item twice in a row leaves the runtime exactly as
    pushing it once: the second push merges the item into the entry the
    first one wrote or appended, which already holds all its fields. *)
Theorem pushToContextChain_twice (rt : Runtime) (item : ContextItem) :
  (pushToContextChain item;; pushToContextChain item) rt
  = pushToContextChain item rt.
Proof.
  unfold pushToContextChain, deref, setChain. unfold_monad.
  destruct (currentContext rt) as [context|] eqn:Hcur; simpl;
    [| by rewrite Hcur].
  rewrite Hcur. simpl. f_equal.
  destruct rt as [mm mem reg run q cur h clk sch calls tr]. simpl.
  unfold set_heap. simpl. f_equal.
  rewrite list_alter_alter_eq. apply list_alter_ext; [| done].
  intros c Hc. simpl.
  rewrite list_lookup_total_alter_eq by (by eapply lookup_lt_Some).
  simpl. by rewrite mergeIntoChain_idemp.
Qed.

(** X5. A push while an event is being processed never makes two entries
    of the chain share their [pluginId] and [action]: if no two entries of
    the chain share them before, none do after, and the chain then has an
    entry with the pair of the item. *)
Theorem pushToContextChain_keeps_keys_unique
  (rt : Runtime) (context : ref) (item : ContextItem) :
  currentContext rt = Some context -> context < length (heap rt) ->
  NoDup (chainKey <$> chainOf rt context) ->
  exists rt', pushToContextChain item rt = (Returns tt, rt') /\
    NoDup (chainKey <$> chainOf rt' context) /\
    chainKey item ∈ chainKey <$> chainOf rt' context.
Proof.
  intros Hcur Hlt Hnodup.
  destruct (pushToContextChain_chain rt context item Hcur Hlt)
    as (rt' & Hrun & Hchain).
  exists rt'. split; [done |]. rewrite Hchain, mergeIntoChain_keys.
  case_bool_decide as Hin; [done |]. split.
  - apply NoDup_app. split; [done |]. split; [| apply NoDup_singleton].
    intros k Hk ->%list_elem_of_singleton. done.
  - apply elem_of_app. right. by left.
Qed.

Lemma pushToContextChain_keeps_keys_unique_witness :
  exists rt',
    pushToContextChain Demo.annotation Demo.busyRuntime = (Returns tt, rt') /\
    NoDup (chainKey <$> chainOf rt' 0).
Proof.
  destruct (pushToContextChain_keeps_keys_unique
              Demo.busyRuntime 0 Demo.annotation) as (rt' & Hrun & Hnodup & _).
  - reflexivity.
  - simpl. lia.
  - simpl. apply NoDup_singleton.
  - exists rt'. split; [exact Hrun | exact Hnodup].
Defined.

(** ** Routing requests to model providers *)

Lemma default_registerProviderCapability m r cap c :
  m ≠ EmptyString -> defaults_named r ->
  CapabilityRegistry.getDefaultModelForCapability c
    (ModelManager.registerProviderCapability m r cap)
  = match CapabilityRegistry.getDefaultModelForCapability c r with
    | Some d => Some d
    | None => if bool_decide (capability_id cap = c) then Some m else None
    end.
Proof.
  intros Hm Hnamed. unfold ModelManager.registerProviderCapability.
  unfold CapabilityRegistry.getDefaultModelForCapability,
    CapabilityRegistry.setDefaultModelForCapability,
    CapabilityRegistry.registerCapability, str_truthy in *. simpl.
  destruct (CapabilityRegistry.defaultModels r !! capability_id cap)
    as [d|] eqn:Hd; simpl.
  - rewrite bool_decide_eq_false_2 by (by eapply Hnamed). simpl.
    destruct (CapabilityRegistry.defaultModels r !! c) eqn:Hc; [done |].
    case_bool_decide; [congruence | done].
  - destruct (decide (capability_id cap = c)) as [<-|Hne].
    + by rewrite lookup_insert_eq, Hd, bool_decide_eq_true_2.
    + rewrite lookup_insert_ne by done.
      rewrite (bool_decide_eq_false_2 (capability_id cap = c)) by done.
      by destruct (CapabilityRegistry.defaultModels r !! c).
Qed.

Lemma defaults_named_registerProviderCapability m r cap :
  m ≠ EmptyString -> defaults_named r ->
  defaults_named (ModelManager.registerProviderCapability m r cap).
Proof.
  intros Hm Hnamed c d. rewrite default_registerProviderCapability by done.
  destruct (CapabilityRegistry.getDefaultModelForCapability c r) eqn:Hc.
  - intros [= <-]. by eapply Hnamed.
  - case_bool_decide; [by intros [= <-] | done].
Qed.

Lemma default_of_capabilities m caps r c :
  m ≠ EmptyString -> defaults_named r ->
  defaults_named (foldl (ModelManager.registerProviderCapability m) r caps) /\
  CapabilityRegistry.getDefaultModelForCapability c
    (foldl (ModelManager.registerProviderCapability m) r caps)
  = match CapabilityRegistry.getDefaultModelForCapability c r with
    | Some d => Some d
    | None => if bool_decide (c ∈ capability_id <$> caps) then Some m else None
    end.
Proof.
  intros Hm. revert r. induction caps as [|cap caps IH]; intros r Hnamed.
  - split; [done |]. simpl.
    by destruct (CapabilityRegistry.getDefaultModelForCapability c r).
  - cbn [foldl].
    destruct (IH (ModelManager.registerProviderCapability m r cap)) as [Hn ->];
      [by apply defaults_named_registerProviderCapability |].
    split; [done |].
    rewrite default_registerProviderCapability by done.
    destruct (CapabilityRegistry.getDefaultModelForCapability c r); [done |].
    rewrite fmap_cons.
    destruct (decide (capability_id cap = c)) as [Heq|Hne].
    + rewrite (bool_decide_eq_true_2 _ Heq).
      rewrite (bool_decide_eq_true_2 (c ∈ _ :: _)); [done |].
      rewrite Heq. by left.
    + rewrite (bool_decide_eq_false_2 _ Hne).
      apply (f_equal (fun b : bool => if b then Some m else None)).
      apply bool_decide_ext. rewrite elem_of_cons. split; [by right |].
      intros [?|?]; [congruence | done].
Qed.

Lemma default_of_providers ps mm c :
  Forall (fun p => provider_id p ≠ EmptyString) ps ->
  defaults_named (ModelManager.capabilityRegistry mm) ->
  defaults_named (ModelManager.capabilityRegistry
                    (ModelManager.registerModelProviders ps mm)) /\
  CapabilityRegistry.getDefaultModelForCapability c
    (ModelManager.capabilityRegistry (ModelManager.registerModelProviders ps mm))
  = match CapabilityRegistry.getDefaultModelForCapability c
            (ModelManager.capabilityRegistry mm) with
    | Some d => Some d
    | None => provider_id <$> firstSupplier ps c
    end.
Proof.
  unfold ModelManager.registerModelProviders, firstSupplier.
  intros Hids. revert mm. induction Hids as [|p ps Hp Hids IH];
    intros mm Hnamed; simpl.
  - split; [done |].
    by destruct (CapabilityRegistry.getDefaultModelForCapability c _).
  - destruct (default_of_capabilities (provider_id p) (getCapabilities p)
                (ModelManager.capabilityRegistry mm) c Hp Hnamed) as [Hn Hd].
    destruct (IH (ModelManager.registerModelProvider mm p) Hn) as [Hn' ->].
    split; [done |]. simpl. rewrite Hd.
    destruct (CapabilityRegistry.getDefaultModelForCapability c
                (ModelManager.capabilityRegistry mm)); [done |].
    by case_bool_decide.
Qed.

Lemma default_of_unsupplied ps mm c :
  CapabilityRegistry.getDefaultModelForCapability c
    (ModelManager.capabilityRegistry mm) = None ->
  ¬ supplies ps c ->
  CapabilityRegistry.getDefaultModelForCapability c
    (ModelManager.capabilityRegistry (ModelManager.registerModelProviders ps mm))
  = None.
Proof.
  unfold ModelManager.registerModelProviders.
  revert mm. induction ps as [|p ps IH]; intros mm Hnone Hnot; simpl; [done |].
  apply IH.
  - simpl.
    assert (forall cap, cap ∈ getCapabilities p -> capability_id cap ≠ c)
      as Hcaps.
    { intros cap Hcap Hc. apply Hnot. exists p, cap.
      split; [by left | done]. }
    revert Hnone Hcaps. generalize (ModelManager.capabilityRegistry mm).
    induction (getCapabilities p) as [|cap caps IHc]; intros r Hnone Hcaps;
      simpl; [done |].
    apply IHc.
    + unfold ModelManager.registerProviderCapability.
      assert (capability_id cap ≠ c) as Hne by (apply Hcaps; by left).
      destruct (negb _); unfold
        CapabilityRegistry.getDefaultModelForCapability,
        CapabilityRegistry.setDefaultModelForCapability,
        CapabilityRegistry.registerCapability in *; simpl; [| done].
      by rewrite lookup_insert_ne.
    + intros cap' Hcap'. apply Hcaps. by right.
  - intros (p' & cap & Hp' & Hcap & Hc). apply Hnot.
    exists p', cap. split; [by right | done].
Qed.

Lemma models_of_providers ps mm p :
  NoDup (provider_id <$> ps) -> p ∈ ps ->
  map_get (ModelManager.models (ModelManager.registerModelProviders ps mm))
          (provider_id p) = Some p.
Proof.
  unfold ModelManager.registerModelProviders.
  induction ps as [|q ps IH] using rev_ind; intros Hnodup Hp;
    [by apply elem_of_nil in Hp |].
  rewrite foldl_snoc. simpl.
  rewrite fmap_app in Hnodup. apply NoDup_app in Hnodup as (Hnd & Hfresh & _).
  apply elem_of_app in Hp as [Hp|Hp%list_elem_of_singleton]; [| subst p].
  - rewrite map_get_set_ne; [by apply IH |].
    intros Heq. apply (Hfresh (provider_id p)).
    + by apply list_elem_of_fmap_2.
    + rewrite <- Heq. simpl. by left.
  - apply map_get_set_eq.
Qed.

Lemma firstSupplier_Some ps c p :
  firstSupplier ps c = Some p ->
  p ∈ ps /\ exists cap, getCapability p c = Some cap /\ capability_id cap = c.
Proof.
  unfold firstSupplier. intros Hfind.
  destruct (find_some _ _ Hfind) as [Hin Hc].
  apply bool_decide_eq_true in Hc. split; [by apply list_elem_of_In |].
  unfold getCapability.
  destruct (List.find _ (getCapabilities p)) as [cap|] eqn:Hcap.
  - exists cap. split; [done |].
    destruct (find_some _ _ Hcap) as [_ Hid]. by apply bool_decide_eq_true in Hid.
  - apply list_elem_of_fmap in Hc as (cap & -> & Hcapin).
    apply list_elem_of_In in Hcapin.
    pose proof (find_none _ _ Hcap cap Hcapin) as Hno. simpl in Hno.
    by rewrite bool_decide_eq_true_2 in Hno.
Qed.

Lemma firstSupplier_None ps c : firstSupplier ps c = None <-> ¬ supplies ps c.
Proof.
  unfold firstSupplier, supplies. split.
  - intros Hnone (p & cap & Hp & Hcap & Hc).
    apply list_elem_of_In in Hp.
    pose proof (find_none _ _ Hnone p Hp) as Hno. simpl in Hno.
    apply bool_decide_eq_false in Hno. apply Hno.
    rewrite <- Hc. by apply list_elem_of_fmap_2.
  - intros Hnot.
    destruct (List.find _ ps) as [p|] eqn:Hfind; [| done]. exfalso.
    destruct (find_some _ _ Hfind) as [Hin Hc].
    apply bool_decide_eq_true in Hc.
    apply list_elem_of_fmap in Hc as (cap & -> & Hcapin).
    apply Hnot. exists p, cap. split; [by apply list_elem_of_In | done].
Qed.

Lemma builtFrom_spec ps groups mm :
  builtFrom ps groups mm ->
  ModelManager.capabilityRegistry mm
  = ModelManager.capabilityRegistry
      (ModelManager.registerModelProviders ps ModelManager.new) /\
  ModelManager.models mm
  = ModelManager.models
      (ModelManager.registerModelProviders ps ModelManager.new) /\
  aliases_sound mm.
Proof.
  intros Hbuilt. apply registerCapabilityAliases_spec in Hbuilt
    as (Hr & Hm & Hs).
  split; [done |]. split; [done |]. apply Hs, aliases_sound_new.
Qed.

Lemma defaults_named_new : defaults_named CapabilityRegistry.new.
Proof.
  intros c d. unfold CapabilityRegistry.getDefaultModelForCapability. simpl.
  by rewrite lookup_empty.
Qed.

Lemma registry_has_new c :
  CapabilityRegistry.hasCapability c CapabilityRegistry.new = false.
Proof.
  unfold CapabilityRegistry.hasCapability. simpl. rewrite lookup_empty.
  apply bool_decide_eq_false_2. by intros [? ?].
Qed.

Lemma registry_has_built ps groups mm c :
  builtFrom ps groups mm ->
  CapabilityRegistry.hasCapability c (ModelManager.capabilityRegistry mm) = true
  <-> supplies ps c.
Proof.
  intros (-> & _ & _)%builtFrom_spec. rewrite registry_has_providers.
  simpl. rewrite registry_has_new. split; [by intros [?|?] | by right].
Qed.

(** With sound aliases, a name that is not available is not a registered
    capability either. *)
Lemma registry_lacks_unavailable mm c :
  aliases_sound mm -> ModelManager.hasCapability mm c = false ->
  CapabilityRegistry.hasCapability c (ModelManager.capabilityRegistry mm) = false.
Proof.
  intros Hsound Hhas. apply not_true_is_false. intros Hreg.
  rewrite (hasCapability_of_supplied mm c Hsound Hreg) in Hhas. done.
Qed.

(** X6. In the model manager that start-up builds from providers and alias
    groups, a capability is available exactly when some provider lists the
    capability that its name resolves to. *)
Theorem hasCapability_iff_supplied
  (ps : list ModelProvider) (groups : list (list string))
  (mm : ModelManager.t) (capabilityId : string) :
  builtFrom ps groups mm ->
  ModelManager.hasCapability mm capabilityId = true
  <-> supplies ps (ModelManager.resolvedId mm capabilityId).
Proof.
  intros Hbuilt. unfold ModelManager.hasCapability.
  by apply registry_has_built with groups.
Qed.

Lemma hasCapability_iff_supplied_witness :
  ModelManager.hasCapability
    (ModelManager.registerCapabilityAliases
       [["text-generation"; "text-creation"]]
       (ModelManager.registerModelProviders [Demo.textProvider]
          ModelManager.new)).2
    "text-generation" = true.
Proof.
  apply (hasCapability_iff_supplied [Demo.textProvider]
           [["text-generation"; "text-creation"]]).
  - reflexivity.
  - exists Demo.textProvider, (Demo.constantCapability "text-creation" "[]").
    split; [apply list_elem_of_here |]. split; [apply list_elem_of_here |].
    reflexivity.
Defined.

(** X7. A request without a model id goes to the first provider, in the
    order of registration, that lists the capability the requested name
    resolves to, provided the providers have distinct, non-empty ids: the
    result is that of this provider's capability, run on the checked input
    at the instant of the request, with its output parsed; an input the
    capability rejects gives the invalid-input error instead. *)
Theorem executeCapability_routes_to_first_supplier
  (ps : list ModelProvider) (groups : list (list string))
  (mm : ModelManager.t) (p : ModelProvider)
  (now : nat) (capabilityId input : string) (config : option OperationConfig) :
  builtFrom ps groups mm ->
  NoDup (provider_id <$> ps) ->
  Forall (fun p => provider_id p ≠ EmptyString) ps ->
  firstSupplier ps (ModelManager.resolvedId mm capabilityId) = Some p ->
  exists capability,
    getCapability p (ModelManager.resolvedId mm capabilityId) = Some capability /\
    capability_id capability = ModelManager.resolvedId mm capabilityId /\
    ModelManager.executeCapability mm now capabilityId input config None
    = runCapability capability (ModelManager.resolvedId mm capabilityId)
        now input config.
Proof.
  intros Hbuilt Hnodup Hids Hfirst.
  destruct (builtFrom_spec _ _ _ Hbuilt) as (Hreg & Hmodels & _).
  destruct (firstSupplier_Some _ _ _ Hfirst) as (Hp & cap & Hcap & Hid).
  exists cap. split; [done |]. split; [done |].
  unfold ModelManager.executeCapability, runCapability, ModelManager.opt_or.
  simpl. rewrite Hreg.
  destruct (default_of_providers ps ModelManager.new
              (ModelManager.resolvedId mm capabilityId) Hids defaults_named_new)
    as [_ ->].
  simpl. rewrite Hfirst. simpl.
  unfold CapabilityRegistry.getDefaultModelForCapability. simpl.
  rewrite lookup_empty.
  assert (provider_id p ≠ EmptyString) as Hne.
  { rewrite Forall_forall in Hids. by apply Hids. }
  rewrite (bool_decide_eq_false_2 (provider_id p = EmptyString)) by done.
  rewrite Hmodels, (models_of_providers ps _ p Hnodup Hp), Hcap.
  done.
Qed.

Lemma executeCapability_routes_to_first_supplier_witness :
  ModelManager.executeCapability
    (ModelManager.registerCapabilityAliases
       [["text-generation"; "text-creation"]]
       (ModelManager.registerModelProviders
          [Demo.coldProvider; Demo.textProvider; Demo.timeProvider]
          ModelManager.new)).2
    0 "text-creation" "hello" None None
  = Ok "[]".
Proof.
  destruct (executeCapability_routes_to_first_supplier
              [Demo.coldProvider; Demo.textProvider; Demo.timeProvider]
              [["text-generation"; "text-creation"]]
              _ Demo.coldProvider 0 "text-creation" "hello" None eq_refl)
    as (capability & Hcap & _ & Hrun).
  - apply (bool_decide_unpack _). vm_compute. exact I.
  - repeat constructor; discriminate.
  - reflexivity.
  - vm_compute in Hcap. injection Hcap as <-. exact Hrun.
Defined.

(** X8. A request for a capability that is not available is refused
    before any provider is asked: the error names the capability the
    requested name resolves to. *)
Theorem executeCapability_unavailable
  (ps : list ModelProvider) (groups : list (list string))
  (mm : ModelManager.t)
  (now : nat) (capabilityId input : string) (config : option OperationConfig) :
  builtFrom ps groups mm ->
  ModelManager.hasCapability mm capabilityId = false ->
  ModelManager.executeCapability mm now capabilityId input config None
  = Err ("No model specified and no default model set for capability "
         +:+ ModelManager.resolvedId mm capabilityId).
Proof.
  intros Hbuilt Hhas.
  assert (¬ supplies ps (ModelManager.resolvedId mm capabilityId)) as Hnot.
  { intros Hsup. apply (registry_has_built _ _ _ _ Hbuilt) in Hsup.
    unfold ModelManager.hasCapability in Hhas. congruence. }
  destruct (builtFrom_spec _ _ _ Hbuilt) as (Hreg & _ & _).
  unfold ModelManager.executeCapability, ModelManager.opt_or. simpl.
  rewrite Hreg, (default_of_unsupplied ps ModelManager.new _ eq_refl Hnot).
  done.
Qed.

Lemma executeCapability_unavailable_witness :
  ModelManager.executeCapability
    (ModelManager.registerModelProviders [Demo.textProvider] ModelManager.new)
    0 "text-generation" "hello" None None
  = Err "No model specified and no default model set for capability text-generation".
Proof.
  apply (executeCapability_unavailable [Demo.textProvider] []
           (ModelManager.registerModelProviders [Demo.textProvider]
              ModelManager.new)
           0 "text-generation" "hello" None).
  - reflexivity.
  - reflexivity.
Defined.

(** A group whose canonical name is not a registered capability: the names
    equal to the canonical one are passed over, the first other name
    throws. *)
Lemma for_of_registerAlias_unregistered canonicalId aliases mm :
  CapabilityRegistry.hasCapability canonicalId (ModelManager.capabilityRegistry mm)
  = false ->
  for_of aliases (ModelManager.registerAlias canonicalId) mm
  = if bool_decide (Forall (fun alias => alias = canonicalId) aliases)
    then (Returns tt, mm)
    else (Throws ("Capability " +:+ canonicalId +:+ " not found"), mm).
Proof.
  intros Hreg. induction aliases as [|alias aliases IH]; cbn [for_of].
  - by rewrite bool_decide_eq_true_2 by constructor.
  - unfold mbind at 1, M_bind at 1, bind at 1.
    unfold ModelManager.registerAlias at 1.
    destruct (decide (alias = canonicalId)) as [->|Hne].
    + rewrite (bool_decide_eq_false_2 (canonicalId ≠ canonicalId))
        by (intros Hbad; by apply Hbad).
      unfold mret, M_ret, ret. rewrite IH.
      apply (f_equal (fun b : bool =>
               if b then (Returns tt, mm)
               else (Throws ("Capability " +:+ canonicalId +:+ " not found"), mm))).
      apply bool_decide_ext. rewrite Forall_cons. tauto.
    + rewrite (bool_decide_eq_true_2 (alias ≠ canonicalId)) by done.
      unfold_monad. rewrite Hreg. simpl.
      rewrite bool_decide_eq_false_2; [done |].
      intros Hall. inversion Hall. done.
Qed.

(** X9. An alias group none of whose names is available, and which holds a
    name other than its first, makes the registration of aliases throw:
    the error says that the first name of the group was not found, the
    model manager is left as it was, and the groups after it are not
    looked at. *)
Theorem registerCapabilityAliases_unavailable_group
  (ps : list ModelProvider) (before after : list (list string))
  (mm : ModelManager.t) (first : string) (rest : list string) :
  builtFrom ps before mm ->
  Forall (fun id => ModelManager.hasCapability mm id = false) (first :: rest) ->
  Exists (fun id => id ≠ first) rest ->
  ModelManager.registerCapabilityAliases ((first :: rest) :: after) mm
  = (Throws ("Capability " +:+ first +:+ " not found"), mm).
Proof.
  intros Hbuilt Hnone Hother.
  destruct (builtFrom_spec _ _ _ Hbuilt) as (_ & _ & Hsound).
  assert (ModelManager.canonicalIdOf mm (first :: rest) = Some first) as Hcanon.
  { unfold ModelManager.canonicalIdOf.
    destruct (List.find _ _) as [id|] eqn:Hfind; [| done].
    destruct (find_some _ _ Hfind) as [Hin Hhas].
    rewrite Forall_forall in Hnone.
    rewrite (Hnone id) in Hhas; [done | by apply list_elem_of_In]. }
  assert (CapabilityRegistry.hasCapability first
            (ModelManager.capabilityRegistry mm) = false) as Hreg.
  { apply registry_lacks_unavailable; [done |]. by inversion Hnone. }
  unfold ModelManager.registerCapabilityAliases. simpl.
  unfold mbind at 1, M_bind at 1, bind at 1.
  unfold ModelManager.registerAliasGroup.
  unfold mbind at 1, M_bind at 1, bind at 1, get.
  rewrite Hcanon, (for_of_registerAlias_unregistered _ _ _ Hreg).
  rewrite bool_decide_eq_false_2; [done |].
  intros Hall. inversion Hall as [|? ? _ Hrest]; subst.
  apply Exists_exists in Hother as (id & Hid & Hne).
  rewrite Forall_forall in Hrest. by apply Hne, Hrest.
Qed.

Lemma registerCapabilityAliases_unavailable_group_witness :
  ModelManager.registerCapabilityAliases
    [["image-generation"; "image-creation"]; ["text-generation"; "txt-gen"]]
    (ModelManager.registerModelProviders [Demo.textProvider] ModelManager.new)
  = (Throws "Capability image-generation not found",
     ModelManager.registerModelProviders [Demo.textProvider] ModelManager.new).
Proof.
  apply (registerCapabilityAliases_unavailable_group [Demo.textProvider] []).
  - reflexivity.
  - repeat constructor.
  - left. discriminate.
Defined.

(** ** Start-up *)

Lemma ModelManager_checkHealth_returns mm :
  (ModelManager.checkHealth mm).1 = Returns tt <->
  Forall (fun p => rejection (provider_checkHealth p) = None)
         (map_values (ModelManager.models mm)).
Proof.
  pose proof (ModelManager_checkHealth_spec mm) as Hspec.
  rewrite Forall_forall. split.
  - intros Hret. by rewrite Hret in Hspec.
  - intros Hall. destruct (ModelManager.checkHealth mm).1 as [[]|e|];
      [done | | done].
    destruct Hspec as (p & Hp & He & _). specialize (Hall p Hp).
    unfold rejection in Hall. by rewrite He in Hall.
Qed.

Lemma PluginRegistry_init_returns reg :
  PluginRegistry.init reg = Returns tt <->
  Forall (fun p => rejection (plugin_init p) = None)
         (PluginRegistry.getAllPlugins reg).
Proof.
  unfold PluginRegistry.init, promise_all, PluginRegistry.getAllPlugins.
  destruct (first_rejection _) as [[t e]|] eqn:Hfirst.
  - split; [done |]. intros Hall.
    assert (first_rejection (plugin_init <$> map_values (PluginRegistry.plugins reg))
            = None) as Hnone.
    { apply first_rejection_None. by rewrite Forall_fmap. }
    congruence.
  - split; [| done]. intros _.
    apply first_rejection_None in Hfirst. by rewrite Forall_fmap in Hfirst.
Qed.

Lemma missingForPlugin_None mm plugin :
  missingForPlugin mm plugin = None <->
  forall capability, capability ∈ requiredCapabilities plugin ->
    ModelManager.hasCapability mm capability = true.
Proof.
  unfold missingForPlugin. split.
  - intros Hnone capability Hin. apply list_elem_of_In in Hin.
    pose proof (find_none _ _ Hnone capability Hin) as Hneg. simpl in Hneg.
    by apply negb_false_iff in Hneg.
  - intros Hall. destruct (List.find _ _) as [capability|] eqn:Hfind; [| done].
    destruct (find_some _ _ Hfind) as [Hin Hneg].
    apply list_elem_of_In in Hin. rewrite (Hall _ Hin) in Hneg. done.
Qed.

Lemma missingForPlugins_None mm ps :
  missingForPlugins mm ps = None <->
  forall plugin capability, plugin ∈ ps ->
    capability ∈ requiredCapabilities plugin ->
    ModelManager.hasCapability mm capability = true.
Proof.
  induction ps as [|p ps IH]; simpl.
  - split; [| done]. by intros _ plugin capability ?%elem_of_nil.
  - destruct (missingForPlugin mm p) as [capability|] eqn:Hmiss.
    + split; [done |]. intros Hall.
      assert (missingForPlugin mm p = None) as Hnone; [| congruence].
      apply missingForPlugin_None. intros c Hc. apply (Hall p c); [by left | done].
    + rewrite IH. split.
      * intros Hall plugin c [->|Hin]%elem_of_cons Hc; [| by eapply Hall].
        by eapply missingForPlugin_None.
      * intros Hall plugin c Hin Hc. apply (Hall plugin c); [by right | done].
Qed.

Section StartupFacts.
Context `{Helpers}.

(** X10. [Runtime.init] returns a runtime exactly when every stage of
    start-up passes: the alias groups register on the manager built from
    the providers; the health check of every registered provider passes;
    text generation is available; the memory provider initialises and is
    healthy; the plugins register (their ids are non-empty and distinct);
    every plugin's [init()] fulfils; and every capability a plugin requires
    is available.  The runtime returned holds that model manager, the
    memory provider and the registry of those plugins; it is not running,
    its queue is empty and it has no current context. *)
Theorem Runtime_init_returns_iff
  (arrivals : nat -> list ExternalCall) (config : RuntimeConfig) (rt : Runtime) :
  Runtime_init arrivals config = Returns rt <->
  exists mm reg,
    builtFrom (modelProviders config) (capabilityAliases config) mm /\
    Forall (fun p => rejection (provider_checkHealth p) = None)
           (map_values (ModelManager.models mm)) /\
    ModelManager.hasCapability mm TEXT_GENERATION_CAPABILITY = true /\
    memory_init (memoryProvider config) = Ok tt /\
    memory_checkHealth (memoryProvider config) = Ok tt /\
    PluginRegistry.registerPlugins (config_plugins config) PluginRegistry.new
    = (Returns tt, reg) /\
    Forall (fun p => rejection (plugin_init p) = None) (config_plugins config) /\
    (forall plugin capability,
       plugin ∈ config_plugins config ->
       capability ∈ requiredCapabilities plugin ->
       ModelManager.hasCapability mm capability = true) /\
    rt = mkRuntime mm (memoryProvider config) reg false [] None [] 0
           arrivals 0 [].
Proof.
  unfold Runtime_init, run_on, builtFrom. split.
  - destruct (ModelManager.registerCapabilityAliases _ _) as [[[]|e|] mm];
      cbv beta iota; [| done..].
    destruct (ModelManager.checkHealth mm).1 as [[]|e|] eqn:Hhealth;
      [| by destruct (ModelManager.init mm).1..].
    destruct (ModelManager.init mm).1; cbv beta iota; [| done..].
    unfold missingRequired, REQUIRED_CAPABILITIES. simpl.
    destruct (ModelManager.hasCapability mm TEXT_GENERATION_CAPABILITY)
      eqn:Htext; simpl; [| done].
    destruct (memory_init _) as [[]|e]; cbv beta iota; [| done].
    destruct (memory_checkHealth _) as [[]|e]; cbv beta iota; [| done].
    destruct (PluginRegistry.registerPlugins _ _) as [[[]|e|] reg] eqn:Hreg;
      cbv beta iota; [| done..].
    destruct (PluginRegistry.init reg) as [[]|e|] eqn:Hinit;
      cbv beta iota; [| done..].
    destruct (missingForPlugins mm (PluginRegistry.getAllPlugins reg))
      as [[plugin capability]|] eqn:Hmiss; [done |].
    intros [= <-]. exists mm, reg.
    pose proof (for_of_registerPlugin_plugins _ _ _ Hreg) as Hall.
    simpl in Hall. rewrite Hall in Hmiss.
    apply PluginRegistry_init_returns in Hinit. rewrite Hall in Hinit.
    apply ModelManager_checkHealth_returns in Hhealth.
    rewrite missingForPlugins_None in Hmiss.
    repeat split; done.
  - intros (mm & reg & -> & Hhealth & Htext & -> & -> & Hreg & Hinit & Hcaps & ->).
    cbv beta iota. rewrite ModelManager_init_returns.
    apply ModelManager_checkHealth_returns in Hhealth. rewrite Hhealth.
    unfold missingRequired, REQUIRED_CAPABILITIES. simpl.
    rewrite Htext. simpl. rewrite Hreg. cbv beta iota.
    pose proof (for_of_registerPlugin_plugins _ _ _ Hreg) as Hall.
    simpl in Hall.
    assert (PluginRegistry.init reg = Returns tt) as ->.
    { apply PluginRegistry_init_returns. by rewrite Hall. }
    assert (missingForPlugins mm (PluginRegistry.getAllPlugins reg) = None)
      as ->.
    { apply missingForPlugins_None. by rewrite Hall. }
    done.
Qed.

End StartupFacts.

(** ** Putting events on the queue *)

Section QueueFacts.
Context `{Helpers}.

Lemma queueInterface_push_spec (context : AgentContext) (rt : Runtime) o rt' :
  queueInterface_push context rt = (o, rt') ->
  match o with
  | Returns _ =>
      exists event,
        rt' = withEnqueued event rt /\
        conversationId event = conversationId context /\
        platformContext event = platformContext context /\
        tail (contextChain event) = tail (contextChain context) /\
        match head (contextChain context) with
        | Some first =>
            exists history,
              head (contextChain event)
              = Some (<["messageHistory" := JArr history]> first)
        | None => contextChain event = []
        end
  | Throws e => rt' = rt /\ is_Some (getUserInput context)
  | Pending => False
  end.
Proof.
  unfold queueInterface_push. unfold_monad.
  destruct rt as [mm mem reg run q cur h clk sch calls tr].
  unfold withEnqueued. simpl.
  destruct (getUserInput context) as [userInput|]; simpl.
  - destruct (getRecentConversationHistory _ _ _ _) as [history|e]; simpl;
      [| intros [= <- <-]; by eauto].
    destruct (storeUserInteraction _ _ _ _ _ _ _) as [[]|e]; simpl;
      [| intros [= <- <-]; by eauto].
    intros [= <- <-]. eexists. split; [reflexivity |]. simpl.
    destruct (contextChain context) as [|first rest]; simpl; eauto.
  - intros [= <- <-]. eexists. split; [reflexivity |]. simpl.
    destruct (contextChain context) as [|first rest]; simpl; eauto.
Qed.

(** X11. [queueInterface.push] is all or nothing.  When it returns, the
    runtime differs only by one new event object, placed last in the
    queue: the object has the conversation id, the platform context and
    the chain of the context pushed, except that the first item of the
    chain has gained the field [messageHistory].  When it throws, which it
    only does for a context that has a user input, the runtime is exactly
    as it was before. *)
Theorem queueInterface_push_all_or_nothing (context : AgentContext) (rt : Runtime) :
  match queueInterface_push context rt with
  | (Returns _, rt') =>
      exists event,
        rt' = withEnqueued event rt /\
        conversationId event = conversationId context /\
        platformContext event = platformContext context /\
        tail (contextChain event) = tail (contextChain context) /\
        match head (contextChain context) with
        | Some first =>
            exists history,
              head (contextChain event)
              = Some (<["messageHistory" := JArr history]> first)
        | None => contextChain event = []
        end
  | (Throws e, rt') => rt' = rt /\ is_Some (getUserInput context)
  | (Pending, _) => False
  end.
Proof.
  destruct (queueInterface_push context rt) as [o rt'] eqn:Hpush.
  by apply queueInterface_push_spec in Hpush.
Qed.

(** X12. [createEvent] is all or nothing as well.  When it returns, the
    memory provider has named the conversation of the item's user and
    plugin, and one new event object is last in the queue: its chain is
    the initial item alone, with the field [messageHistory] added, and it
    carries that conversation id and the platform context given.  When it
    throws, the runtime is exactly as it was before. *)
Theorem createEvent_all_or_nothing (initialContext : ContextItem)
  (platformContext : option (gmap string JsValue)) (rt : Runtime) :
  match createEvent initialContext platformContext rt with
  | (Returns _, rt') =>
      exists conversationId history,
        getOrCreateConversation (memoryManager rt) (clock rt)
          (initialContext !! "user") (initialContext !! "pluginId")
        = Ok conversationId /\
        rt' = withEnqueued
                (mkContext [<["messageHistory" := JArr history]> initialContext]
                           (Some conversationId) platformContext)
                rt
  | (Throws e, rt') => rt' = rt
  | (Pending, _) => False
  end.
Proof.
  unfold createEvent. unfold_monad. unfold ret, throw.
  destruct (getOrCreateConversation _ _ _ _) as [conversationId|e];
    cbv beta iota; [| done].
  destruct (queueInterface_push _ rt) as [o rt'] eqn:Hpush.
  apply queueInterface_push_spec in Hpush.
  destruct o as [[]|e|]; [| by destruct Hpush | done].
  destruct Hpush as (event & -> & Hid & Hplatform & Htail & history & Hhead).
  exists conversationId, history. split; [done |].
  destruct event as [[|first rest] cid pc]; simpl in *; [done |].
  congruence.
Qed.

End QueueFacts.

(** ** The evaluation loop and the execution of pipelines *)

Section LoopFacts.
Context `{Helpers}.

(** The loop returns only by finding the runtime stopped. *)
Lemma runEvaluationLoop_returns_stopped budget :
  forall s s', runEvaluationLoop budget s = (Returns tt, s') ->
               isRunning s' = false.
Proof.
  induction budget as [|budget IH]; intros s s'; cbn [runEvaluationLoop];
    [done |].
  unfold mbind at 1, M_bind at 1, bind at 1, get.
  destruct (isRunning s) eqn:Hrun; cycle 1.
  { by intros [= <-]. }
  destruct (eventQueue s) as [|context rest].
  - unfold mbind at 1, M_bind at 1, bind at 1.
    destruct (suspend s) as [[now|e|] s1]; [apply IH | done | done].
  - unfold mbind at 1, M_bind at 1, bind at 1, modify.
    unfold mbind at 1, M_bind at 1, bind at 1, emit, modify.
    unfold mbind at 1, M_bind at 1, bind at 1, deref, gets.
    destruct (getUserInput _) as [userInput|]; [| done].
    unfold mbind at 1, M_bind at 1, bind at 1.
    destruct (try_finally _ _ _) as [[[]|e|] s3]; [apply IH | done | done].
Qed.

(** With no trigger to start, the loop over the plugins does nothing. *)
Lemma startTriggers_none s :
  Forall (fun plugin => triggers plugin = [])
         (PluginRegistry.getAllPlugins (pluginRegistry s)) ->
  startTriggers s = (Returns tt, s).
Proof.
  unfold startTriggers. unfold mbind at 1, M_bind at 1, bind at 1, get.
  generalize (PluginRegistry.getAllPlugins (pluginRegistry s)).
  intros ps Hnone. induction Hnone as [|p ps Hp _ IH]; simpl; [done |].
  rewrite Hp. simpl. unfold mbind at 1, M_bind at 1, bind at 1.
  unfold mret at 1, M_ret at 1, ret at 1. apply IH.
Qed.

(** [start()] on a runtime that is not running, in terms of its two
    phases. *)
Lemma start_phases budget rt :
  isRunning rt = false ->
  start budget rt
  = match startTriggers (set_isRunning true rt) with
    | (Returns _, s1) =>
        match runEvaluationLoop budget s1 with
        | (Throws e, s2) => (Throws e, set_isRunning false s2)
        | run => run
        end
    | (Throws e, s1) => (Throws e, s1)
    | (Pending, s1) => (Pending, s1)
    end.
Proof.
  intros Hstopped. unfold start.
  unfold mbind at 1, M_bind at 1, bind at 1, get. rewrite Hstopped.
  unfold mbind at 1, M_bind at 1, bind at 1, modify.
  unfold mbind at 1, M_bind at 1, bind at 1.
  destruct (startTriggers (set_isRunning true rt)) as [[[]|e|] s1];
    [| done | done].
  unfold try_catch.
  destruct (runEvaluationLoop budget s1) as [[[]|e|] s2]; by unfold_monad.
Qed.

(** X13. [start()], called on a runtime that is not running.  When the
    triggers have been started and [start()] has finished, by returning or
    by throwing, the runtime is not running: [start()] can be called
    again.  When a trigger throws on being started, [start()] throws that
    error at once: the loop is not run, and the running flag is not set
    back. *)
Theorem start_leaves_runtime_stopped (budget : nat) (rt : Runtime) :
  isRunning rt = false ->
  (start budget rt).1 ≠ Pending ->
  match startTriggers (set_isRunning true rt) with
  | (Returns _, _) => isRunning (start budget rt).2 = false
  | (Throws e, s1) => start budget rt = (Throws e, s1)
  | (Pending, _) => False
  end.
Proof.
  intros Hstopped. rewrite (start_phases budget rt Hstopped).
  destruct (startTriggers (set_isRunning true rt)) as [[[]|e|] s1];
    [| done | simpl; intros Hp; by apply Hp].
  destruct (runEvaluationLoop budget s1) as [[[]|e|] s2] eqn:Hloop; simpl.
  - intros _. by eapply runEvaluationLoop_returns_stopped.
  - done.
  - intros Hp. by destruct Hp.
Qed.

(** X14. An event that has no user input stops the runtime.  When
    [start()] has started the triggers and finds such an event first in
    the queue, it takes it from the queue and throws; the runtime is then
    not running, the events behind it are still queued, and nothing else
    has changed. *)
Theorem start_stops_on_event_without_user_input
  (budget : nat) (rt s1 : Runtime) (context : ref) (rest : list ref) :
  isRunning rt = false ->
  startTriggers (set_isRunning true rt) = (Returns tt, s1) ->
  isRunning s1 = true ->
  eventQueue s1 = context :: rest ->
  getUserInput (heap s1 !!! context) = None ->
  exists e,
    start (S budget) rt
    = (Throws e,
       set_isRunning false
         (set_trace (trace s1 ++ [Dequeued context])%list
            (set_eventQueue rest s1))).
Proof.
  intros Hstopped Htriggers Hrunning Hqueue Hinput.
  rewrite (start_phases _ rt Hstopped), Htriggers.
  cbn [runEvaluationLoop].
  unfold_monad. unfold deref, emit. unfold_monad.
  rewrite Hrunning, Hqueue. simpl. rewrite Hinput.
  eexists. reflexivity.
Qed.

(** The handler of the [try] block around a step never throws, so the
    block ends by returning or not at all. *)
Lemma guarded_step_spec plugin pipeline i step context s o s1 :
  try_catch
    (executeStep plugin pipeline i step context)
    (fun error =>
       now ← Date_now;
       chainPush context
         (errorContextItem now (pluginId step) (action step) error (Some step));;
       mret pipeline) s = (o, s1) ->
  stepping context s s1 /\ forall e, o ≠ Throws e.
Proof.
  intros Hrun. split.
  - revert Hrun. apply (respects_try_catch (stepping context)).
    + apply stepping_executeStep.
    + intros error. apply respects_bind; [apply _ | |].
      * apply respects_Date_now, _.
      * intros now. apply respects_bind; [apply _ | |].
        -- apply stepping_chainPush.
        -- intros []. apply respects_ret. apply _.
  - revert Hrun. unfold try_catch.
    destruct (executeStep plugin pipeline i step context s) as [[p|e|] s0].
    + by intros [= <- <-].
    + unfold Date_now, chainPush, deref, setChain. unfold_monad.
      by intros [= <- <-].
    + by intros [= <- <-].
Qed.

Lemma executePipeline_loop_throws budget context :
  forall pipeline i s e s',
    currentContext s = Some context ->
    executePipeline_loop budget context pipeline i s = (Throws e, s') ->
    pluginRegistry s' = pluginRegistry s /\
    exists id,
      (id ∉ map_keys (PluginRegistry.plugins (pluginRegistry s))) /\
      e = notFoundMessage id (map_keys (PluginRegistry.plugins (pluginRegistry s))).
Proof.
  induction budget as [|budget IH]; intros pipeline i s e s' Hcur;
    cbn [executePipeline_loop]; [done |].
  case_bool_decide; [| done].
  destruct (pipeline !! i) as [step|].
  - unfold mbind at 1, M_bind at 1, bind at 1, get.
    unfold mbind at 1, M_bind at 1, bind at 1, lift_outcome.
    unfold PluginRegistry.getPlugin.
    destruct (map_get (PluginRegistry.plugins (pluginRegistry s)) (pluginId step))
      as [plugin|] eqn:Hget.
    + unfold mbind at 1, M_bind at 1, bind at 1.
      destruct (try_catch _ _ s) as [o s1] eqn:Hstep.
      apply guarded_step_spec in Hstep as [Hstepping Hno].
      destruct (Hstepping Hcur) as (Hreg & Hcur1 & _).
      destruct o as [p|e1|]; [| by destruct (Hno e1) | done].
      intros Hrest. apply IH in Hrest as [Hreg' Hid]; [| done].
      rewrite Hreg in Hreg', Hid. done.
    + intros [= <- <-]. split; [done |]. exists (pluginId step).
      split; [by apply map_get_None_keys | done].
  - unfold Date_now, chainPush, deref, setChain.
    unfold mbind at 1, M_bind at 1, bind at 1, gets.
    unfold mbind at 1, M_bind at 1, bind at 1.
    unfold mbind at 1, M_bind at 1, bind at 1, gets, modify.
    intros Hrest. apply IH in Hrest; [| done]. done.
Qed.

(** X15. The only error that [executePipeline] lets through is the plugin
    registry's lookup error, for a step that names a plugin which is not
    registered; a failing executor, a failing model and a failing
    modification are all handled inside.  Whenever [executePipeline] has
    finished, the runtime has no current context. *)
Theorem executePipeline_throws_only_lookup_errors
  (budget : nat) (pipeline : list PipelineStep) (context : ref) (s : Runtime) :
  match executePipeline budget pipeline context s with
  | (Throws e, s') =>
      currentContext s' = None /\
      exists id,
        (id ∉ map_keys (PluginRegistry.plugins (pluginRegistry s))) /\
        e = notFoundMessage id
              (map_keys (PluginRegistry.plugins (pluginRegistry s)))
  | (Returns _, s') => currentContext s' = None
  | (Pending, _) => True
  end.
Proof.
  unfold executePipeline.
  unfold mbind at 1, M_bind at 1, bind at 1, modify, try_finally.
  destruct (executePipeline_loop budget context pipeline 0
              (set_currentContext (Some context) s)) as [[[]|e|] s1] eqn:Hloop;
    [done | | done].
  split; [done |].
  apply executePipeline_loop_throws in Hloop as [_ Hid]; done.
Qed.

End LoopFacts.

Lemma start_leaves_runtime_stopped_witness :
  isRunning (@start Demo.helpers 4 Demo.hauntedRuntime).2 = false /\
  isRunning (@start Demo.helpers 4 jammedRuntime).2 = true.
Proof.
  split.
  - apply (@start_leaves_runtime_stopped Demo.helpers 4 Demo.hauntedRuntime).
    + reflexivity.
    + vm_compute. discriminate.
  - pose proof (@start_leaves_runtime_stopped Demo.helpers 4 jammedRuntime
                  eq_refl) as Hthrows.
    rewrite Hthrows; [reflexivity |]. vm_compute. discriminate.
Defined.

Lemma start_stops_on_event_without_user_input_witness :
  exists e,
    @start Demo.helpers 1
      (set_eventQueue [0]
         (set_heap [mkContext [] None None] Demo.emptyRuntime))
    = (Throws e,
       set_trace [Dequeued 0]
         (set_heap [mkContext [] None None] Demo.emptyRuntime)).
Proof.
  apply (@start_stops_on_event_without_user_input Demo.helpers 0
           (set_eventQueue [0]
              (set_heap [mkContext [] None None] Demo.emptyRuntime))
           (set_isRunning true
              (set_eventQueue [0]
                 (set_heap [mkContext [] None None] Demo.emptyRuntime)))
           0 []).
  - reflexivity.
  - reflexivity.
  - reflexivity.
  - reflexivity.
  - reflexivity.
Defined.

(** ** Structured object retrieval when the model fails *)

Section RetrievalFacts.
Context `{Helpers}.

(** A request that the model manager refuses: it is thrown to the caller,
    and the model manager stays the one it was. *)
Lemma requestCapability_refused mm capabilityId input config e s o s' :
  (forall now, ModelManager.executeCapability mm now capabilityId input config None
               = Err e) ->
  requestCapability mm capabilityId input config s = (o, s') ->
  o = Throws e /\ modelManager s' = modelManager s.
Proof.
  intros Hdown Hrun.
  pose proof (requestCapability_spec _ _ _ _ _ _ _ Hrun) as (Hq & _ & _).
  split; [| by destruct Hq].
  revert Hrun. unfold requestCapability.
  unfold mbind at 1, M_bind at 1, bind at 1.
  destruct (suspend s) as [o1 s1] eqn:Hsus.
  assert (exists now, o1 = Returns now) as [now ->].
  { revert Hsus. unfold suspend. unfold mbind at 1, M_bind at 1, bind at 1, get.
    unfold mbind at 1, M_bind at 1, bind at 1.
    destruct (for_of_runExternal_returns (schedule s (clock s)) s) as [s2 ->].
    unfold_monad. intros [= <- <-]. eauto. }
  unfold_monad. rewrite Hdown. by intros [= <- <-].
Qed.

Lemma Runtime_getObject_loop_refused {T} (schema : ZodType T) prompt config e pe :
  parseResponse schema EmptyString = Err pe ->
  forall budget attempt_no lastError s o s',
  refuses (modelManager s) config e ->
  (0 ≤ attempt_no < MAX_RETRIES config)%Z ->
  Z.to_nat (MAX_RETRIES config - attempt_no) ≤ budget ->
  Runtime_getObject_loop budget schema prompt config attempt_no
    EmptyString lastError s = (o, s') ->
  o = Throws e.
Proof.
  intros Hparse.
  induction budget as [|budget IH];
    intros attempt_no lastError s o s' Hdown Hrange Hbudget; [lia |].
  cbn [Runtime_getObject_loop].
  rewrite bool_decide_eq_true_2 by lia.
  cbv zeta. unfold mbind at 1, M_bind at 1, bind at 1, attempt.
  unfold mbind at 1, M_bind at 1, bind at 1, get.
  destruct (requestCapability _ _ _ _ s) as [o1 s1] eqn:Hreq.
  apply requestCapability_refused with (e := e) in Hreq as [-> Hmm];
    [| by intros now; apply Hdown].
  case_bool_decide as Hlast; [by intros [= <- <-] |].
  rewrite Hparse. apply IH; [by rewrite Hmm | lia | lia].
Qed.

(** X16. [Runtime.getObject] when the model manager refuses every
    text-generation request with the error [e].  If the empty string does
    not parse against the schema, [getObject] throws [e], the error of the
    request, not an error of parsing.  If the empty string parses to [v],
    then [getObject] returns [v] although no request was answered, unless
    the bound on the attempts is one, in which case it throws [e]. *)
Theorem Runtime_getObject_when_model_refuses {T} (schema : ZodType T)
  (prompt : string) (config : option OperationConfig) (s : Runtime) (e : string) :
  refuses (modelManager s) config e ->
  (1 ≤ MAX_RETRIES config)%Z ->
  (Runtime_getObject schema prompt config s).1
  = match parseResponse schema EmptyString with
    | Err _ => Throws e
    | Ok v =>
        if bool_decide (MAX_RETRIES config = 1)%Z then Throws e
        else Returns (Some v)
    end.
Proof.
  intros Hdown Hmax.
  destruct (parseResponse schema EmptyString) as [v|pe] eqn:Hparse.
  - unfold Runtime_getObject.
    replace (S (Z.to_nat (MAX_RETRIES config)))
      with (S (S (Z.to_nat (MAX_RETRIES config - 1)))) by lia.
    cbn [Runtime_getObject_loop].
    rewrite bool_decide_eq_true_2 by lia.
    cbv zeta. unfold mbind at 1, M_bind at 1, bind at 1, attempt.
    unfold mbind at 1, M_bind at 1, bind at 1, get.
    destruct (requestCapability _ _ _ _ s) as [o1 s1] eqn:Hreq.
    apply requestCapability_refused with (e := e) in Hreq as [-> Hmm];
      [| by intros now; apply Hdown].
    rewrite Hparse.
    rewrite (bool_decide_ext (0 = MAX_RETRIES config - 1)%Z
                             (MAX_RETRIES config = 1)%Z) by lia.
    by case_bool_decide.
  - destruct (Runtime_getObject schema prompt config s) as [o s'] eqn:Hrun.
    unfold Runtime_getObject in Hrun.
    apply (Runtime_getObject_loop_refused schema prompt config e pe Hparse)
      in Hrun; [done | done | lia | lia].
Qed.

Lemma getObject_loop_refused {T} mm (schema : ZodType T) prompt config e :
  (forall now input,
     ModelManager.executeCapability mm now "text-generation" input config None
     = Err e) ->
  forall budget attempt_no lastError lastResponse s o s',
  (0 ≤ attempt_no < maxRetriesOf config)%Z ->
  Z.to_nat (maxRetriesOf config - attempt_no) ≤ budget ->
  getObject_loop budget mm schema prompt config attempt_no
    lastError lastResponse s = (o, s') ->
  o = Throws e.
Proof.
  intros Hdown.
  induction budget as [|budget IH];
    intros attempt_no lastError lastResponse s o s' Hrange Hbudget; [lia |].
  cbn [getObject_loop].
  rewrite bool_decide_eq_true_2 by lia.
  cbv zeta. unfold mbind at 1, M_bind at 1, bind at 1, attempt.
  destruct (requestCapability _ _ _ _ s) as [o1 s1] eqn:Hreq.
  apply requestCapability_refused with (e := e) in Hreq as [-> _];
    [| by intros now; apply Hdown].
  case_bool_decide as Hlast; [by intros [= <- <-] |].
  apply IH; lia.
Qed.

(** X21. The earlier free-standing [getObject] when the model manager
    refuses every text-generation request with the error [e]: with a
    bound of at least one attempt it throws [e], whatever the schema makes
    of the empty string; with a bound of none it throws the error that
    says no valid response was had, without asking the model. *)
Theorem getObject_when_model_refuses {T} (mm : ModelManager.t)
  (schema : ZodType T) (prompt : string) (config : option OperationConfig)
  (s : Runtime) (e : string) :
  (forall now input,
     ModelManager.executeCapability mm now "text-generation" input config None
     = Err e) ->
  (getObject mm schema prompt config s).1
  = if bool_decide (1 ≤ maxRetriesOf config)%Z then Throws e
    else Throws "Failed to get valid response after retries".
Proof.
  intros Hdown. case_bool_decide as Hmax.
  - destruct (getObject mm schema prompt config s) as [o s'] eqn:Hrun.
    unfold getObject in Hrun.
    apply (getObject_loop_refused mm schema prompt config e Hdown) in Hrun;
      [done | lia | lia].
  - unfold getObject. cbn [getObject_loop].
    by rewrite bool_decide_eq_false_2 by lia.
Qed.

End RetrievalFacts.

Lemma Runtime_getObject_when_model_refuses_witness :
  (@Runtime_getObject Demo.helpers _ Demo.nullSchema "what time is it?" None
     Demo.emptyRuntime).1
  = Throws "No model specified and no default model set for capability text-generation".
Proof.
  apply (@Runtime_getObject_when_model_refuses Demo.helpers _ Demo.nullSchema
           "what time is it?" None Demo.emptyRuntime
           "No model specified and no default model set for capability text-generation").
  - intros now input. reflexivity.
  - vm_compute. discriminate.
Defined.

Lemma getObject_when_model_refuses_witness :
  (@getObject Demo.helpers _ ModelManager.new Demo.nullSchema
     "what time is it?" None Demo.emptyRuntime).1
  = Throws "No model specified and no default model set for capability text-generation".
Proof.
  apply (@getObject_when_model_refuses Demo.helpers _ ModelManager.new
           Demo.nullSchema "what time is it?" None Demo.emptyRuntime
           "No model specified and no default model set for capability text-generation").
  intros now input. reflexivity.
Defined.

(** ** Executing a plan while the model refuses *)

Lemma executedOf_app t1 t2 :
  executedOf (t1 ++ t2) = (executedOf t1 ++ executedOf t2)%list.
Proof. apply omap_app. Qed.

Lemma executedOf_enqueued es : Forall fromOutside es -> executedOf es = [].
Proof.
  induction 1 as [|e es He _ IH]; [done |].
  destruct e; simpl in *; done.
Qed.

Lemma executedOf_quiet s s' :
  quiet s s' -> executedOf (trace s') = executedOf (trace s).
Proof.
  intros [_ _ _ _ _ _ _ (es & -> & Hes & _)].
  by rewrite executedOf_app, (executedOf_enqueued es Hes), app_nil_r.
Qed.

Lemma ran_quiet step s s1 s2 : ran step s s1 -> quiet s1 s2 -> ran step s s2.
Proof.
  intros (Hmm & Hreg & Hcur & Htrace) Hq.
  pose proof (executedOf_quiet _ _ Hq) as Htrace'.
  destruct Hq as [Hmm' _ Hreg' _ _ Hcur' _ _].
  repeat split; congruence.
Qed.

Lemma ran_set_heap step s s1 h : ran step s s1 -> ran step s (set_heap h s1).
Proof. by intros (? & ? & ? & ?). Qed.

Section PlanFacts.
Context `{Helpers}.

#[local] Hint Resolve undisturbed_runPluginCall undisturbed_suspend
  undisturbed_createEvent undisturbed_queueInterface_push
  settles_suspend settles_createEvent settles_queueInterface_push : runtime.

Lemma settles_runPluginCall c : settles (runPluginCall c).
Proof. unfold runPluginCall. repeat settles_step. Qed.

#[local] Hint Resolve settles_runPluginCall : runtime.

(** Running an executor: the run is observed, and whatever else happens
    meanwhile only enqueues. *)
Lemma executePlugin_ran plugin step context s o s' :
  executePlugin plugin step context s = (o, s') ->
  ran step s s' /\ o ≠ Pending.
Proof.
  unfold executePlugin.
  unfold mbind at 1, M_bind at 1, bind at 1, get.
  unfold mbind at 1, M_bind at 1, bind at 1, deref, gets.
  unfold mbind at 1, M_bind at 1, bind at 1, emit, modify.
  set (s1 := set_trace _ s).
  destruct (plugin_execute plugin (action step) (clock s) (heap s !!! context))
    as [calls settlement].
  intros Hrun.
  assert (respects undisturbed
            (for_of calls runPluginCall;; suspend;; await settlement)) as Hrest
    by (repeat respects_step).
  assert (settles (for_of calls runPluginCall;; suspend;; await settlement))
    as Hset by (repeat settles_step).
  specialize (Hset s1). rewrite Hrun in Hset. split; [| done].
  apply Hrest in Hrun. apply undisturbed_quiet in Hrun.
  apply (ran_quiet step s s1); [| done].
  repeat split. subst s1. simpl. rewrite executedOf_app. done.
Qed.

Lemma applyModification_declined pipeline i modification :
  declinesToModify modification ->
  applyModification pipeline i modification = pipeline.
Proof.
  unfold applyModification. intros [-> | ->]; [done |].
  by destruct (shouldModify modification).
Qed.

(** Recording the result of an executor returns, and changes the store of
    event objects only. *)
Lemma record_result_returns context (item : Z -> ContextItem) s :
  exists h,
    (now ← Date_now; chainPush context (item now)) s
    = (Returns tt, set_heap h s).
Proof.
  unfold Date_now, chainPush, deref, setChain. unfold_monad. eauto.
Qed.

Lemma set_heap_same s : set_heap (heap s) s = s.
Proof. by destruct s. Qed.

(** One guarded step when modifications leave the plan as it is: the
    executor runs, and the plan stays. *)
Lemma guarded_step_unmodified keeps plugin pipeline i step context s o s' :
  unmodifying keeps -> keeps (modelManager s) ->
  try_catch
    (executeStep plugin pipeline i step context)
    (fun error =>
       now ← Date_now;
       chainPush context
         (errorContextItem now (pluginId step) (action step) error (Some step));;
       mret pipeline) s = (o, s') ->
  o = Returns pipeline /\ ran step s s'.
Proof.
  intros Hunmodifying Hkeeps. unfold try_catch, executeStep.
  unfold mbind at 1, M_bind at 1, bind at 1.
  destruct (executePlugin plugin step context s) as [o1 s1] eqn:Hexec.
  apply executePlugin_ran in Hexec as [Hran Hnp].
  assert (forall err s2, ran step s s2 ->
            forall o s',
            (now ← Date_now;
             chainPush context
               (errorContextItem now (pluginId step) (action step) err
                  (Some step));;
             mret pipeline) s2 = (o, s') ->
            o = Returns pipeline /\ ran step s s') as Hhandler.
  { intros err s2 Hran2 o2 s3.
    destruct (record_result_returns context
                (fun now => errorContextItem now (pluginId step) (action step)
                              err (Some step)) s2) as [h Hrecord].
    unfold mbind at 1, M_bind at 1, bind at 1.
    unfold mbind at 1, M_bind at 1, bind at 1 in Hrecord.
    destruct (Date_now s2) as [[now|?|] s4]; [| done..].
    unfold mbind at 1, M_bind at 1, bind at 1. rewrite Hrecord.
    unfold_monad. intros [= <- <-]. split; [done |]. by apply ran_set_heap. }
  destruct o1 as [result|err|]; [| by apply Hhandler | done].
  assert (exists h,
            (if negb (success result)
             then now ← Date_now;
                  chainPush context
                    (errorContextItem now (pluginId step) (action step)
                       (str_or (error result) "Unknown error") (Some step))
             else match data result with
                  | Some data =>
                      now ← Date_now;
                      chainPush context (resultContextItem now step data)
                  | None => mret tt
                  end) s1 = (Returns tt, set_heap h s1)) as [h Hrecord].
  { destruct (negb (success result)); [apply record_result_returns |].
    destruct (data result) as [data|].
    - apply (record_result_returns context
               (fun now => resultContextItem now step data)).
    - exists (heap s1). by rewrite set_heap_same. }
  unfold mbind at 1, M_bind at 1, bind at 1. rewrite Hrecord.
  unfold mbind at 1, M_bind at 1, bind at 1, deref, gets.
  unfold mbind at 1, M_bind at 1, bind at 1, get.
  unfold mbind at 1, M_bind at 1, bind at 1.
  destruct (evaluatePipelineModification _ (set_heap h s1)) as [o3 s4] eqn:Hmod.
  pose proof (quiet_evaluatePipelineModification _ _ _ _ Hmod) as Hq.
  assert (ran step s s4) as Hran4.
  { apply (ran_quiet step s (set_heap h s1)); [| done]. by apply ran_set_heap. }
  apply Hunmodifying in Hmod; cycle 1.
  { simpl. destruct Hran as (-> & _). done. }
  destruct o3 as [modification|err|]; [| by apply Hhandler | done].
  unfold_monad. intros [= <- <-].
  by rewrite applyModification_declined.
Qed.

Lemma executePipeline_loop_unmodified keeps context pipeline budget :
  unmodifying keeps ->
  forall i s,
    keeps (modelManager s) ->
    Forall (fun step =>
              is_Some (map_get (PluginRegistry.plugins (pluginRegistry s))
                               (pluginId step))) pipeline ->
    length pipeline - i < budget ->
    exists s',
      executePipeline_loop budget context pipeline i s = (Returns tt, s') /\
      modelManager s' = modelManager s /\
      currentContext s' = currentContext s /\
      executedOf (trace s') = (executedOf (trace s) ++ drop i pipeline)%list.
Proof.
  intros Hunmodifying.
  induction budget as [|budget IH]; intros i s Hkeeps Hreg Hbudget; [lia |].
  cbn [executePipeline_loop].
  case_bool_decide as Hi; cycle 1.
  { exists s. split; [done |]. split; [done |]. split; [done |].
    by rewrite drop_ge, app_nil_r by lia. }
  destruct (lookup_lt_is_Some_2 pipeline i Hi) as [step Hstep].
  rewrite Hstep.
  unfold mbind at 1, M_bind at 1, bind at 1, get.
  unfold mbind at 1, M_bind at 1, bind at 1, lift_outcome.
  unfold PluginRegistry.getPlugin.
  rewrite Forall_forall in Hreg.
  destruct (Hreg step) as [plugin Hplugin];
    [by eapply list_elem_of_lookup_2 |].
  rewrite Hplugin.
  unfold mbind at 1, M_bind at 1, bind at 1.
  destruct (try_catch _ _ s) as [o s1] eqn:Hguarded.
  apply (guarded_step_unmodified keeps) in Hguarded
    as [-> (Hmm & Hreg1 & Hcur & Htrace)]; [| done | done].
  destruct (IH (S i) s1) as (s' & Hrun & Hmm' & Hcur' & Htrace').
  - by rewrite Hmm.
  - rewrite Forall_forall, Hreg1. done.
  - lia.
  - exists s'. split; [done |]. split; [congruence |]. split; [congruence |].
    rewrite Htrace', Htrace, <- app_assoc. simpl.
    by rewrite (drop_S _ _ _ Hstep).
Qed.

(** A plan that no modification changes is carried out as it was given. *)
Lemma executePipeline_unmodified keeps budget pipeline context s :
  unmodifying keeps -> keeps (modelManager s) ->
  Forall (fun step =>
            is_Some (map_get (PluginRegistry.plugins (pluginRegistry s))
                             (pluginId step))) pipeline ->
  length pipeline < budget ->
  exists s',
    executePipeline budget pipeline context s = (Returns tt, s') /\
    modelManager s' = modelManager s /\
    executedOf (trace s') = (executedOf (trace s) ++ pipeline)%list /\
    currentContext s' = None.
Proof.
  intros Hunmodifying Hkeeps Hreg Hbudget. unfold executePipeline.
  unfold mbind at 1, M_bind at 1, bind at 1, modify, try_finally.
  destruct (executePipeline_loop_unmodified keeps context pipeline budget
              Hunmodifying 0 (set_currentContext (Some context) s))
    as (s' & -> & Hmm & _ & Htrace); [done | done | lia |].
  eexists. split; [reflexivity |]. split; [done |]. split; [| done].
  simpl. by rewrite Htrace, drop_0.
Qed.

(** A model that refuses every planning request changes no plan. *)
Lemma refuses_unmodifying e pe :
  parseResponse PipelineModificationSchema EmptyString = Err pe ->
  unmodifying (fun mm => refuses mm planningConfig e).
Proof.
  intros Hparse context s o s' Hdown.
  unfold evaluatePipelineModification.
  destruct (generatePipelineModificationTemplate context) as [template|e'];
    [| unfold_monad; by intros [= <- <-]].
  unfold mbind at 1, M_bind at 1, bind at 1, await, ret.
  unfold try_catch, mbind, M_bind, bind.
  destruct (Runtime_getObject _ _ _ s) as [o1 s1] eqn:Hget.
  unfold Runtime_getObject in Hget.
  apply (Runtime_getObject_loop_refused _ _ _ e pe Hparse) in Hget;
    [| done | rewrite MAX_RETRIES_planning; lia
     | rewrite MAX_RETRIES_planning; lia].
  subst o1. unfold_monad. intros [= <- <-]. by left.
Qed.

(** X17. While the model manager refuses every planning request, and
    provided the empty string is not read as a modification,
    [executePipeline] carries out the plan as it was given: with every
    step naming a registered plugin, it returns; the executors that have
    run are those of the steps of the plan, once each and in the order of
    the plan, whether they succeed or fail; and the runtime is left without
    a current context. *)
Theorem executePipeline_runs_plan_when_model_refuses
  (budget : nat) (pipeline : list PipelineStep) (context : ref) (s : Runtime)
  (e pe : string) :
  refuses (modelManager s) planningConfig e ->
  parseResponse PipelineModificationSchema EmptyString = Err pe ->
  Forall (fun step =>
            is_Some (map_get (PluginRegistry.plugins (pluginRegistry s))
                             (pluginId step))) pipeline ->
  length pipeline < budget ->
  exists s',
    executePipeline budget pipeline context s = (Returns tt, s') /\
    executedOf (trace s') = (executedOf (trace s) ++ pipeline)%list /\
    currentContext s' = None.
Proof.
  intros Hdown Hparse Hreg Hbudget.
  destruct (executePipeline_unmodified
              (fun mm => refuses mm planningConfig e) budget pipeline context s
              (refuses_unmodifying e pe Hparse) Hdown Hreg Hbudget)
    as (s' & Hrun & _ & Htrace & Hcur).
  eauto.
Qed.

End PlanFacts.

Lemma executePipeline_runs_plan_when_model_refuses_witness :
  exists s',
    @executePipeline Demo.helpers 3 [Demo.timeStep; Demo.timeStep] 0
      offlineRuntime = (Returns tt, s') /\
    executedOf (trace s') = [Demo.timeStep; Demo.timeStep].
Proof.
  destruct (@executePipeline_runs_plan_when_model_refuses Demo.helpers 3
              [Demo.timeStep; Demo.timeStep] 0 offlineRuntime
              "No model specified and no default model set for capability text-generation"
              "Unexpected token")
    as (s' & Hrun & Htrace & _).
  - intros now input. reflexivity.
  - reflexivity.
  - repeat constructor; vm_compute; eauto.
  - simpl. lia.
  - exists s'. split; [exact Hrun | exact Htrace].
Defined.

(** ** Choosing the default provider *)

(** X18. After [setDefaultModelForCapability(capabilityId, modelId)] with
    the id of a registered provider, a request for that capability without
    a model id goes to that provider: its capability of the resolved name
    answers, and if it has none the request fails with the error that
    names the capability and the provider. *)
Theorem setDefaultModelForCapability_routes
  (mm : ModelManager.t) (p : ModelProvider)
  (now : nat) (capabilityId input : string) (config : option OperationConfig) :
  map_get (ModelManager.models mm) (provider_id p) = Some p ->
  provider_id p ≠ EmptyString ->
  ModelManager.executeCapability
    (ModelManager.setDefaultModelForCapability capabilityId (provider_id p) mm)
    now capabilityId input config None
  = match getCapability p (ModelManager.resolvedId mm capabilityId) with
    | Some capability =>
        runCapability capability (ModelManager.resolvedId mm capabilityId)
          now input config
    | None =>
        Err ("Capability " +:+ ModelManager.resolvedId mm capabilityId
             +:+ " not found on model " +:+ provider_id p)
    end.
Proof.
  intros Hmodel Hne.
  unfold ModelManager.executeCapability, ModelManager.setDefaultModelForCapability,
    ModelManager.opt_or, ModelManager.resolvedId, runCapability,
    CapabilityRegistry.getDefaultModelForCapability,
    CapabilityRegistry.setDefaultModelForCapability.
  simpl. rewrite lookup_insert_eq.
  rewrite (bool_decide_eq_false_2 (provider_id p = EmptyString)) by done.
  by rewrite Hmodel.
Qed.

Lemma setDefaultModelForCapability_routes_witness :
  let mm := ModelManager.registerModelProviders
              [Demo.coldProvider; Demo.timeProvider] ModelManager.new in
  ModelManager.executeCapability mm 0 "text-generation" "hello" None None
  = Ok "[]" /\
  ModelManager.executeCapability
    (ModelManager.setDefaultModelForCapability "text-generation" "oracle" mm)
    0 "text-generation" "hello" None None
  = Ok "[time]".
Proof.
  split; [reflexivity |].
  apply (setDefaultModelForCapability_routes
           (ModelManager.registerModelProviders
              [Demo.coldProvider; Demo.timeProvider] ModelManager.new)
           Demo.timeProvider 0 "text-generation" "hello" None).
  - reflexivity.
  - discriminate.
Defined.

(** ** Stopping, and failures that stop the runtime *)

Section StopFacts.
Context `{Helpers}.

(** X19. [stop()] is honoured at the next turn of the loop.  When
    [start()] has started the triggers, finds the queue empty, and a call
    of [stop()] arrives while the loop sleeps, [start()] returns: the
    runtime is not running, one instant has passed, and nothing has been
    taken from the queue or put on it. *)
Theorem stop_ends_sleeping_loop (budget : nat) (rt s1 : Runtime) :
  isRunning rt = false ->
  startTriggers (set_isRunning true rt) = (Returns tt, s1) ->
  isRunning s1 = true ->
  eventQueue s1 = [] ->
  schedule s1 (clock s1) = [ExternalStop] ->
  start (S (S budget)) rt
  = (Returns tt, set_isRunning false (set_clock (S (clock s1)) s1)).
Proof.
  intros Hstopped Htriggers Hrunning Hqueue Harrivals.
  rewrite (start_phases _ rt Hstopped), Htriggers.
  destruct s1 as [mm mem reg run q cur h clk sch calls tr]. simpl in *.
  subst run q. cbn [runEvaluationLoop].
  unfold suspend, runExternal, stop. unfold_monad. simpl.
  rewrite Harrivals. reflexivity.
Qed.

Lemma suspend_returns s : exists now s1, suspend s = (Returns now, s1) /\
                                          undisturbed s s1.
Proof.
  destruct (suspend s) as [o s1] eqn:Hsus.
  pose proof (undisturbed_suspend _ _ _ Hsus) as Hu.
  revert Hsus. unfold suspend. unfold mbind at 1, M_bind at 1, bind at 1, get.
  unfold mbind at 1, M_bind at 1, bind at 1.
  destruct (for_of_runExternal_returns (schedule s (clock s)) s) as [s2 ->].
  unfold_monad. intros [= <- <-]. eauto.
Qed.

(** The history is fetched before the [try] block of [evaluatePipeline]:
    when the memory provider fails, the error is not recovered. *)
Lemma evaluatePipeline_history_error context s userInput e :
  getUserInput (heap s !!! context) = Some userInput ->
  (forall now user platform,
     getRecentConversationHistory (memoryManager s) now user platform = Err e) ->
  exists s1, evaluatePipeline context s = (Throws e, s1) /\ undisturbed s s1.
Proof.
  intros Hinput Hfails. unfold evaluatePipeline, buildGenerationContext.
  unfold mbind at 1 2, M_bind at 1 2, bind at 1 2, deref, gets.
  rewrite Hinput.
  unfold mbind at 1 2 3, M_bind at 1 2 3, bind at 1 2 3, get.
  unfold mbind at 1, M_bind at 1, bind at 1.
  destruct (suspend_returns s) as (now & s1 & -> & Hu).
  rewrite Hfails. unfold await, throw. eauto.
Qed.

(** X20. A failure of the memory provider while an event is planned stops
    the runtime.  When [start()] has started the triggers and takes from
    the queue an event that has a user input, and the memory provider fails
    to give the conversation history, [start()] throws the provider's error
    and leaves the runtime not running, with no current context. *)
Theorem start_stops_on_history_error
  (budget : nat) (rt s1 : Runtime) (context : ref) (rest : list ref)
  (userInput : ContextItem) (e : string) :
  isRunning rt = false ->
  startTriggers (set_isRunning true rt) = (Returns tt, s1) ->
  isRunning s1 = true ->
  eventQueue s1 = context :: rest ->
  getUserInput (heap s1 !!! context) = Some userInput ->
  (forall now user platform,
     getRecentConversationHistory (memoryManager s1) now user platform = Err e) ->
  exists rt',
    start (S (S budget)) rt = (Throws e, rt') /\
    isRunning rt' = false /\ currentContext rt' = None.
Proof.
  intros Hstopped Htriggers Hrunning Hqueue Hinput Hfails.
  rewrite (start_phases _ rt Hstopped), Htriggers.
  cbn [runEvaluationLoop].
  unfold mbind at 1, M_bind at 1, bind at 1, get. rewrite Hrunning, Hqueue.
  unfold mbind at 1, M_bind at 1, bind at 1, modify.
  unfold mbind at 1, M_bind at 1, bind at 1, emit, modify.
  unfold mbind at 1, M_bind at 1, bind at 1, deref, gets. simpl.
  rewrite Hinput.
  unfold mbind at 1, M_bind at 1, bind at 1, try_finally, try_catch.
  unfold processEvent.
  unfold mbind at 1, M_bind at 1, bind at 1, modify.
  unfold mbind at 1, M_bind at 1, bind at 1.
  match goal with
  | |- context [evaluatePipeline context ?s0] =>
      destruct (evaluatePipeline_history_error context s0 userInput e)
        as (s2 & -> & Hu); [done | done |]
  end.
  unfold_monad. simpl. eauto.
Qed.

End StopFacts.

Lemma stop_ends_sleeping_loop_witness :
  let rt := Runtime_new ModelManager.new Demo.memory PluginRegistry.new
              (fun now => if bool_decide (now = 0) then [ExternalStop] else []) in
  @start Demo.helpers 2 rt = (Returns tt, set_clock 1 rt).
Proof.
  apply (@stop_ends_sleeping_loop Demo.helpers 0
           (Runtime_new ModelManager.new Demo.memory PluginRegistry.new
              (fun now => if bool_decide (now = 0) then [ExternalStop] else []))
           (set_isRunning true
              (Runtime_new ModelManager.new Demo.memory PluginRegistry.new
                 (fun now => if bool_decide (now = 0) then [ExternalStop]
                             else [])))).
  - reflexivity.
  - reflexivity.
  - reflexivity.
  - reflexivity.
  - reflexivity.
Defined.

Lemma start_stops_on_history_error_witness :
  exists rt',
    @start Demo.helpers 2 forgetfulRuntime = (Throws "memory unavailable", rt') /\
    isRunning rt' = false.
Proof.
  destruct (@start_stops_on_history_error Demo.helpers 0 forgetfulRuntime
              (set_isRunning true forgetfulRuntime) 0 []
              Demo.userMessage "memory unavailable")
    as (rt' & Hrun & Hstopped & _).
  - reflexivity.
  - reflexivity.
  - reflexivity.
  - reflexivity.
  - reflexivity.
  - intros now user platform. reflexivity.
  - exists rt'. split; [exact Hrun | exact Hstopped].
Defined.

(** ** The loop processes the events it takes *)

Section ProcessingFacts.
Context `{Helpers}.

(** A planning request to a model that gives the plan [plan]: it is
    answered, and the model manager stays the one it was. *)
Lemma requestCapability_plans mm plan input s o s' :
  plans mm plan ->
  requestCapability mm TEXT_GENERATION_CAPABILITY input planningConfig s
  = (o, s') ->
  quiet s s' /\
  exists response,
    o = Returns response /\
    parseResponse PipelineSchema response = Ok plan /\
    match parseResponse PipelineModificationSchema response with
    | Ok modification => declinesToModify modification
    | Err _ => True
    end.
Proof.
  intros Hplans Hrun.
  pose proof (requestCapability_spec _ _ _ _ _ _ _ Hrun) as (Hq & _ & _).
  split; [done |].
  revert Hrun. unfold requestCapability.
  unfold mbind at 1, M_bind at 1, bind at 1.
  destruct (suspend_returns s) as (now & s1 & -> & _).
  destruct (Hplans now input) as (response & Hanswer & Hplan & Hmodify).
  unfold_monad. rewrite Hanswer. intros [= <- <-]. eauto.
Qed.

(** The plan is retrieved at the first attempt. *)
Lemma Runtime_getObject_plans plan template s o s' :
  plans (modelManager s) plan ->
  Runtime_getObject PipelineSchema template planningConfig s = (o, s') ->
  o = Returns (Some plan).
Proof.
  intros Hplans. unfold Runtime_getObject.
  cbn [Runtime_getObject_loop].
  rewrite bool_decide_eq_true_2 by (rewrite MAX_RETRIES_planning; lia).
  cbv zeta. unfold mbind at 1, M_bind at 1, bind at 1, attempt.
  unfold mbind at 1, M_bind at 1, bind at 1, get.
  destruct (requestCapability _ _ _ _ s) as [o1 s1] eqn:Hreq.
  apply (requestCapability_plans _ plan) in Hreq
    as (_ & response & -> & Hplan & _); [| done].
  rewrite Hplan. unfold_monad. by intros [= <- <-].
Qed.

(** Whatever modification is retrieved from such a model leaves the plan
    as it is. *)
Lemma Runtime_getObject_loop_declines plan prompt :
  forall budget attempt_no lastResponse lastError s o s',
  plans (modelManager s) plan ->
  Runtime_getObject_loop budget PipelineModificationSchema prompt
    planningConfig attempt_no lastResponse lastError s = (o, s') ->
  forall modification,
    o = Returns (Some modification) -> declinesToModify modification.
Proof.
  induction budget as [|budget IH];
    intros attempt_no lastResponse lastError s o s' Hplans;
    cbn [Runtime_getObject_loop]; [by intros [= <- <-] |].
  case_bool_decide as Hlt; [| by intros [= <- <-]].
  cbv zeta. unfold mbind at 1, M_bind at 1, bind at 1, attempt.
  unfold mbind at 1, M_bind at 1, bind at 1, get.
  destruct (requestCapability _ _ _ _ s) as [o1 s1] eqn:Hreq.
  apply (requestCapability_plans _ plan) in Hreq
    as (Hq & response & -> & _ & Hmodify); [| done].
  destruct (parseResponse PipelineModificationSchema response)
    as [modification|err].
  - unfold_monad. by intros [= <- <-] m [= <-].
  - case_bool_decide; [by intros [= <- <-] |].
    apply IH. destruct Hq as [-> _]. done.
Qed.

Lemma plans_unmodifying plan : unmodifying (fun mm => plans mm plan).
Proof.
  intros context s o s' Hplans.
  unfold evaluatePipelineModification.
  destruct (generatePipelineModificationTemplate context) as [template|e'];
    [| unfold_monad; by intros [= <- <-]].
  unfold mbind at 1, M_bind at 1, bind at 1, await, ret.
  unfold try_catch, mbind, M_bind, bind.
  destruct (Runtime_getObject _ _ _ s) as [o1 s1] eqn:Hget.
  pose proof (planning_getObject_spec _ _ _ _ _ Hget) as [_ Hsettled].
  unfold Runtime_getObject in Hget.
  pose proof (Runtime_getObject_loop_declines plan _ _ _ _ _ _ _ _
                Hplans Hget) as Hdeclines.
  destruct Hsettled as [[modification ->]|[e ->]].
  - unfold_monad. intros [= <- <-]. by apply Hdeclines.
  - unfold_monad. intros [= <- <-]. by left.
Qed.

(** With a memory provider that gives the history, the generation context
    is put together. *)
Lemma buildGenerationContext_returns context s o s' :
  remembers (memoryManager s) ->
  buildGenerationContext context s = (o, s') ->
  exists pipelineContext, o = Returns pipelineContext.
Proof.
  intros Hremembers. unfold buildGenerationContext.
  unfold mbind at 1, M_bind at 1, bind at 1, deref, gets.
  unfold mbind at 1, M_bind at 1, bind at 1, get.
  destruct (getUserInput (heap s !!! context)) as [userInput|]; cycle 1.
  { unfold_monad. intros [= <- <-]. eauto. }
  unfold mbind at 1, M_bind at 1, bind at 1.
  unfold mbind at 1, M_bind at 1, bind at 1.
  destruct (suspend_returns s) as (now & s1 & -> & _).
  destruct (Hremembers now (userInput !! "user")
              (Some (js_or (Some userInput ≫= (.!! "pluginId"))
                           (JStr "unknown")))) as [history ->].
  unfold_monad. intros [= <- <-]. eauto.
Qed.

(** ... and the plan the model gives is the plan of the event. *)
Lemma evaluatePipeline_plans plan context s o s' :
  remembers (memoryManager s) -> renders -> plans (modelManager s) plan ->
  evaluatePipeline context s = (o, s') ->
  o = Returns plan /\ quiet s s'.
Proof.
  intros Hremembers Hrenders Hplans Hrun.
  split; [| by eapply quiet_evaluatePipeline].
  revert Hrun. unfold evaluatePipeline.
  unfold mbind at 1, M_bind at 1, bind at 1.
  destruct (buildGenerationContext context s) as [o1 s1] eqn:Hbuild.
  pose proof (quiet_buildGenerationContext _ _ _ _ Hbuild) as Hq.
  apply buildGenerationContext_returns in Hbuild as [pipelineContext ->];
    [| done].
  unfold try_catch, generatePipeline.
  destruct (Hrenders pipelineContext) as [template ->].
  unfold mbind at 1, M_bind at 1, bind at 1, await, ret.
  unfold mbind at 1, M_bind at 1, bind at 1.
  destruct (Runtime_getObject _ _ _ s1) as [o2 s2] eqn:Hget.
  apply (Runtime_getObject_plans plan) in Hget as ->;
    [| destruct Hq as [-> _]; done].
  unfold_monad. by intros [= <- <-].
Qed.

(** Whatever the processing of an event adds to the trace is a step of
    that event or comes from outside. *)
Lemma processEvent_steps budget context userInput s o s' :
  processEvent budget context userInput s = (o, s') ->
  exists es, trace s' = (trace s ++ es)%list /\ Forall (stepOf context) es.
Proof.
  intros Hrun.
  change (processEvent budget context userInput
            (set_currentContext (Some context) s) = (o, s')) in Hrun.
  apply within_processEvent in Hrun.
  destruct Hrun as (_ & _ & es & Htrace & Hsteps & _); [by right |].
  exists es. split; [exact Htrace | done].
Qed.

(** The processing of an event whose plan the model gives: it ends, and
    the executors that have run meanwhile are those of the plan, in
    order. *)
Lemma processEvent_plans plan budget context userInput s o s' :
  remembers (memoryManager s) -> renders -> plans (modelManager s) plan ->
  Forall (fun step =>
            is_Some (map_get (PluginRegistry.plugins (pluginRegistry s))
                             (pluginId step))) plan ->
  length plan < budget ->
  processEvent budget context userInput s = (o, s') ->
  o ≠ Pending /\
  executedOf (trace s') = (executedOf (trace s) ++ plan)%list.
Proof.
  intros Hremembers Hrenders Hplans Hreg Hbudget. unfold processEvent.
  unfold mbind at 1, M_bind at 1, bind at 1, modify.
  unfold mbind at 1, M_bind at 1, bind at 1.
  destruct (evaluatePipeline context _) as [o1 sa] eqn:Hplan.
  apply (evaluatePipeline_plans plan) in Hplan as [-> Hqa];
    [| done | done | done].
  pose proof (executedOf_quiet _ _ Hqa) as Htrace_a. simpl in Htrace_a.
  destruct Hqa as [Hmm_a _ Hreg_a _ _ _ _ _]. simpl in Hmm_a, Hreg_a.
  unfold mbind at 1, M_bind at 1, bind at 1.
  destruct (executePipeline_unmodified (fun mm => plans mm plan) budget plan
              context sa (plans_unmodifying plan))
    as (sb & -> & _ & Htrace_b & _);
    [by rewrite Hmm_a | by rewrite Hreg_a | done |].
  rewrite Htrace_a in Htrace_b.
  unfold mbind at 1, M_bind at 1, bind at 1, deref, gets.
  destruct (last (contextChain (heap sb !!! context))) as [lastContext|];
    [| unfold_monad; by intros [= <- <-]].
  unfold mbind at 1, M_bind at 1, bind at 1, get.
  unfold mbind at 1, M_bind at 1, bind at 1.
  destruct (suspend_returns sb) as (now & sc & -> & Hu).
  apply undisturbed_quiet, executedOf_quiet in Hu.
  destruct (storeAssistantInteraction _ _ _ _ _ _) as [[]|e];
    unfold_monad; intros [= <- <-]; (split; [done | congruence]).
Qed.

(** The trace of the loop only grows. *)
Lemma runEvaluationLoop_extends budget :
  forall s o s',
    runEvaluationLoop budget s = (o, s') ->
    exists es, trace s' = (trace s ++ es)%list.
Proof.
  induction budget as [|budget IH]; intros s o s'; cbn [runEvaluationLoop].
  { intros [= <- <-]. exists []. by rewrite app_nil_r. }
  unfold mbind at 1, M_bind at 1, bind at 1, get.
  destruct (isRunning s); cycle 1.
  { intros [= <- <-]. exists []. by rewrite app_nil_r. }
  destruct (eventQueue s) as [|context rest].
  - unfold mbind at 1, M_bind at 1, bind at 1.
    destruct (suspend_returns s) as (now & s1 & -> & Hu).
    destruct Hu as [_ _ _ _ _ _ _ (es1 & Ht1 & _)].
    intros Hrest. apply IH in Hrest as [es ->].
    exists (es1 ++ es)%list. by rewrite Ht1, app_assoc.
  - unfold mbind at 1, M_bind at 1, bind at 1, modify.
    unfold mbind at 1, M_bind at 1, bind at 1, emit, modify.
    unfold mbind at 1, M_bind at 1, bind at 1, deref, gets.
    set (s1 := set_trace _ _).
    destruct (getUserInput (heap s1 !!! context)) as [userInput|].
    2:{ intros [= <- <-]. exists [Dequeued context]. done. }
    unfold mbind at 1, M_bind at 1, bind at 1, try_finally, try_catch.
    destruct (processEvent budget context userInput s1) as [o2 s2] eqn:Hprocess.
    apply processEvent_steps in Hprocess as (es2 & Ht2 & _).
    destruct o2 as [[]|e|].
    + unfold_monad. simpl. intros Hrest. apply IH in Hrest as [es ->].
      simpl. rewrite Ht2. simpl.
      exists (Dequeued context :: es2 ++ Cleared context :: es)%list.
      by rewrite <- !app_assoc.
    + unfold_monad. simpl. intros [= <- <-]. simpl. rewrite Ht2. simpl.
      exists (Dequeued context :: es2 ++ [Cleared context])%list.
      by rewrite <- !app_assoc.
    + intros [= <- <-]. rewrite Ht2. simpl.
      exists (Dequeued context :: es2)%list. by rewrite <- !app_assoc.
Qed.

(** One turn of the loop, with an event at the head of the queue whose
    plan the model gives: the event is taken, the executors of its plan are
    run for it, in order, and its processing is ended, before anything else
    is taken. *)
Lemma runEvaluationLoop_processes_head plan budget s context rest userInput :
  isRunning s = true ->
  eventQueue s = context :: rest ->
  getUserInput (heap s !!! context) = Some userInput ->
  remembers (memoryManager s) -> renders -> plans (modelManager s) plan ->
  Forall (fun step =>
            is_Some (map_get (PluginRegistry.plugins (pluginRegistry s))
                             (pluginId step))) plan ->
  length plan < budget ->
  exists es after,
    trace (runEvaluationLoop (S budget) s).2
    = (trace s ++ Dequeued context :: es ++ Cleared context :: after)%list /\
    executedOf es = plan /\
    Forall (stepOf context) es.
Proof.
  intros Hrunning Hqueue Hinput Hremembers Hrenders Hplans Hreg Hbudget.
  cbn [runEvaluationLoop].
  unfold mbind at 1, M_bind at 1, bind at 1, get. rewrite Hrunning, Hqueue.
  unfold mbind at 1, M_bind at 1, bind at 1, modify.
  unfold mbind at 1, M_bind at 1, bind at 1, emit, modify.
  unfold mbind at 1, M_bind at 1, bind at 1, deref, gets.
  set (s1 := set_trace _ _).
  change (heap s1) with (heap s). rewrite Hinput.
  unfold mbind at 1, M_bind at 1, bind at 1, try_finally, try_catch.
  destruct (processEvent budget context userInput s1) as [o2 s2] eqn:Hprocess.
  pose proof (processEvent_steps _ _ _ _ _ _ Hprocess) as (es & Ht2 & Hsteps).
  apply (processEvent_plans plan) in Hprocess as [Hsettled Hexecuted];
    [| done..].
  assert (executedOf es = plan) as Hes.
  { rewrite Ht2, executedOf_app in Hexecuted.
    by apply app_inv_head in Hexecuted. }
  destruct o2 as [[]|e|]; [| | done].
  - unfold_monad. simpl.
    destruct (runEvaluationLoop budget _) as [o3 s3] eqn:Hrest.
    apply runEvaluationLoop_extends in Hrest as [after Ht3].
    exists es, after. split; [| done].
    simpl in *. rewrite Ht3, Ht2. simpl. by rewrite <- !app_assoc.
  - unfold_monad. simpl. exists es, []. split; [| done].
    rewrite Ht2. simpl. by rewrite <- !app_assoc.
Qed.

End ProcessingFacts.

Section OneAtATime.
Context `{Helpers}.


End OneAtATime.


